(** * Accessible accordion and dialog controllers: a verification development

    The accordion controller (accordion, updateFocusState, toggleTabPanel),
    the inert-based dialog controller (dialog.open, dialog.close,
    checkCloseDialog) and the built tabindex-based dialog controller
    (dialog.show, dialog.close, keydownHandler, clickHandler) are embedded as
    state-passing functions over a small model of the DOM they touch. *)

From Stdlib Require Import ZArith String Lia.
From stdpp Require Import base tactics option list gmap pretty.

Local Open Scope string_scope.
Local Open Scope list_scope.
Local Open Scope Z_scope.

(** JavaScript converts the boolean handed to setAttribute to a string. *)
Definition js_string_of_bool (b : bool) : string :=
  if b then "true" else "false".

(** ** The document tree

    An element is named by its path from the root element, innermost step
    first, so that the parent of an element is the tail of its path and the
    ancestor chain of every element is finite. *)
Module Dom.

Definition node : Type := list nat.

Definition parentElement (el : node) : option node :=
  match el with
  | [] => None
  | _ :: p => Some p
  end.

(** [document.body]: the second child of the root element, after the head. *)
Definition body : node := [1%nat].

(** [anc.contains(el)]: [el] is [anc] or lies inside it. *)
Fixpoint contains (anc el : node) : bool :=
  bool_decide (el = anc) ||
  match el with
  | [] => false
  | _ :: p => contains anc p
  end.

(** [el] matches the selector [anc *]: it lies strictly inside [anc]. *)
Definition inside (anc el : node) : bool :=
  match el with
  | [] => false
  | _ :: p => contains anc p
  end.

(** [anc.children], in document order. *)
Definition children (anc : node) (elements : list node) : list node :=
  filter (fun el => parentElement el = Some anc) elements.

(** A keyboard or pointer event reaching a document-level listener. *)
Record Event := mkEvent {
  ev_type : string;
  which : Z;
  target : node }.

(** [new CustomEvent(type, params)]: [bubbles] is false and [detail]
    absent unless [params] says otherwise. *)
Record CustomEvent := mkCustomEvent {
  type : string;
  bubbles : bool;
  detail : option node }.

Definition esc : Z := 27.

End Dom.

(** ** The accordion controller *)
Module Accordion.

(** The elements the controller touches: the headings and the panels, named
    by their position in the [tabs] array and in the [panels] node list; the
    other descendants of the root that carry aria-expanded, which the query
    of lines 218-219 matches as well; and the elements the aria-controls of
    those names. *)
Inductive Element :=
| TabEl (i : nat)
| PanelEl (i : nat)
| OtherEl (g j : nat)
| ControlledEl (i : nat).

(** Every DOM operation of a handler is recorded, in program order. *)
Inductive Effect :=
| SetAttribute (el : Element) (name value : string)
| Focus (el : Element)
| PreventDefault
| DispatchEvent (type : string) (bubbles : bool) (detail : Element).

Record Tab := mkTab {
  aria_expanded : string;
  aria_selected : string;
  tabindex : string }.

Record Panel := mkPanel { aria_hidden : string }.

(** What [root.querySelector('#' + el.getAttribute('aria-controls'))] gives
    for an element that is not a heading: the string may be no selector at
    all (an empty attribute gives a lone hash), and then the query throws;
    otherwise the query gives null or an element, named by its position in
    [controlled]. *)
Inductive Controls :=
| BadSelector
| Resolves (p : option nat).

(** A descendant of the root without the tab role that carries
    aria-expanded. The constructor does not touch it. *)
Record Other := mkOther {
  other_expanded : string;
  other_controls : Controls }.

Record Options := mkOptions {
  expanded : bool;
  multiple : bool;
  wrapFocus : bool }.

(** The container as the constructor finds it. [markup_others !! g] lists,
    in document order, the elements with aria-expanded that come after
    heading [g - 1] and before heading [g]; those after the last heading are
    in the entries from the number of headings on. [markup_controlled] are
    the elements the aria-controls of those resolve to; they are taken to be
    none of the accordion's own headings and panels, which answer to the
    ids lines 92 and 101 generate. *)
Record Markup := mkMarkup {
  has_expanded : bool;
  has_multiple : bool;
  has_wrap_focus : bool;
  markup_tabs : list Tab;
  markup_panels : list Panel;
  markup_others : list (list Other);
  markup_controlled : list Panel }.

(** The closure of one accordion: its options, the live attributes of its
    headings and panels, and the three state variables; then the live
    attributes of the other elements under the root. [currentTab] is a
    reference to an element of [tabs] ([None] is undefined). *)
Record State := mkState {
  OPTIONS : Options;
  tabs : list Tab;
  panels : list Panel;
  currentTabIndex : Z;
  currentTab : option nat;
  lastTabIndex : Z;
  activeElement : option Element;
  trace : list Effect;
  others : list (list Other);
  controlled : list Panel }.

(** The key codes module is imported by the source but is not part of it. *)
Record KeyCodes := mkKeys {
  left : Z; up : Z; right : Z; down : Z;
  end_ : Z; home : Z; enter : Z; space : Z }.

(** [tabs[i]] as a reference: undefined outside the array. *)
Definition array_ref {A} (l : list A) (i : Z) : option nat :=
  if (i <? 0) || (Z.of_nat (length l) <=? i) then None else Some (Z.to_nat i).

(** The constructor: lines 76-106. The generated ids only wire heading [i]
    to panel [i]; that wiring is the positional lookup of [toggleTabPanel]. *)
Definition accordion (m : Markup) : State :=
  let opts := mkOptions (has_expanded m) (has_multiple m) (has_wrap_focus m) in
  let tabs :=
    imap (fun i (_ : Tab) =>
            mkTab (js_string_of_bool (if expanded opts then true else false))
                  (js_string_of_bool (if (i =? 0)%nat then true else false))
                  (if (i =? 0)%nat then "0" else "-1"))
         (markup_tabs m) in
  let panels :=
    imap (fun (_ : nat) (_ : Panel) =>
            mkPanel (js_string_of_bool (if expanded opts then false else true)))
         (markup_panels m) in
  mkState opts tabs panels 0 (array_ref tabs 0)
          (Z.of_nat (length tabs) - 1) None []
          (markup_others m) (markup_controlled m).

(** *** A state monad with uncaught faults *)

Inductive Outcome (A : Type) :=
| Done (a : A) (s : State)
| Fault          (* an uncaught exception: the handler is abandoned *)
| OutOfFuel.
Arguments Done {A} a s.
Arguments Fault {A}.
Arguments OutOfFuel {A}.

Definition M (A : Type) : Type := State -> Outcome A.

#[global] Instance M_ret : MRet M := fun A a s => Done a s.
#[global] Instance M_bind : MBind M := fun A B f m s =>
  match m s with
  | Done a s' => f a s'
  | Fault => Fault
  | OutOfFuel => OutOfFuel
  end.

Definition gets {A} (f : State -> A) : M A := fun s => Done (f s) s.
Definition modify (f : State -> State) : M unit := fun s => Done tt (f s).
Definition throw {A} : M A := fun _ => Fault.
Definition emit (e : Effect) : M unit :=
  modify (fun s => mkState (OPTIONS s) (tabs s) (panels s) (currentTabIndex s)
                      (currentTab s) (lastTabIndex s) (activeElement s)
                      (trace s ++ [e]) (others s) (controlled s)).

Definition set_tabs (ts : list Tab) (s : State) : State :=
  mkState (OPTIONS s) ts (panels s) (currentTabIndex s) (currentTab s)
          (lastTabIndex s) (activeElement s) (trace s) (others s) (controlled s).
Definition set_panels (ps : list Panel) (s : State) : State :=
  mkState (OPTIONS s) (tabs s) ps (currentTabIndex s) (currentTab s)
          (lastTabIndex s) (activeElement s) (trace s) (others s) (controlled s).
Definition set_currentTabIndex (i : Z) (s : State) : State :=
  mkState (OPTIONS s) (tabs s) (panels s) i (currentTab s)
          (lastTabIndex s) (activeElement s) (trace s) (others s) (controlled s).
Definition set_currentTab (r : option nat) (s : State) : State :=
  mkState (OPTIONS s) (tabs s) (panels s) (currentTabIndex s) r
          (lastTabIndex s) (activeElement s) (trace s) (others s) (controlled s).
Definition set_activeElement (e : option Element) (s : State) : State :=
  mkState (OPTIONS s) (tabs s) (panels s) (currentTabIndex s) (currentTab s)
          (lastTabIndex s) e (trace s) (others s) (controlled s).
Definition set_others (os : list (list Other)) (s : State) : State :=
  mkState (OPTIONS s) (tabs s) (panels s) (currentTabIndex s) (currentTab s)
          (lastTabIndex s) (activeElement s) (trace s) os (controlled s).
Definition set_controlled (cs : list Panel) (s : State) : State :=
  mkState (OPTIONS s) (tabs s) (panels s) (currentTabIndex s) (currentTab s)
          (lastTabIndex s) (activeElement s) (trace s) (others s) cs.

(** Using a reference: a member access on undefined or null faults. *)
Definition deref {A} (r : option A) : M A :=
  match r with Some k => mret k | None => throw end.

Definition set_tab_attr (name value : string) (t : Tab) : Tab :=
  if String.eqb name "aria-expanded" then mkTab value (aria_selected t) (tabindex t)
  else if String.eqb name "aria-selected" then mkTab (aria_expanded t) value (tabindex t)
  else if String.eqb name "tabindex" then mkTab (aria_expanded t) (aria_selected t) value
  else t.

(** [tab.setAttribute(name, value)] on the heading [tabs[k]]. *)
Definition tab_setAttribute (k : nat) (name value : string) : M unit :=
  modify (fun s => set_tabs (alter (set_tab_attr name value) k (tabs s)) s) ;;
  emit (SetAttribute (TabEl k) name value).

(** [tab.focus()] on a heading: the only call is the one of line 201, on
    the heading that line 200 has just given a tabindex, which makes it
    focusable. *)
Definition focus (el : Element) : M unit :=
  modify (set_activeElement (Some el)) ;; emit (Focus el).

Definition dispatchEvent (type : string) (bubbles : bool) (detail : Element) : M unit :=
  emit (DispatchEvent type bubbles detail).

(** *** updateFocusState: lines 188-205 *)
Definition updateFocusState : M unit :=
  old ← gets currentTab ;
  old ← deref old ;
  tab_setAttribute old "aria-selected" (js_string_of_bool false) ;;
  tab_setAttribute old "tabindex" "-1" ;;
  dispatchEvent "accordion-blurred" true (TabEl old) ;;
  ts ← gets tabs ;
  i ← gets currentTabIndex ;
  modify (set_currentTab (array_ref ts i)) ;;
  new ← gets currentTab ;
  new ← deref new ;
  tab_setAttribute new "aria-selected" (js_string_of_bool true) ;;
  tab_setAttribute new "tabindex" "0" ;;
  focus (TabEl new) ;;
  dispatchEvent "accordion-focused" true (TabEl new).

(** The argument of toggleTabPanel: a heading, or the element the query of
    line 219 returned, which may be one of the other elements. *)
Inductive Expandable :=
| ExTab (k : nat)
| ExOther (g j : nat).

Definition element_of (el : Expandable) : Element :=
  match el with
  | ExTab k => TabEl k
  | ExOther g j => OtherEl g j
  end.

(** The element line 211 finds: a panel of the accordion, or one of
    [controlled]. *)
Inductive PanelRef :=
| OwnPanel (k : nat)
| Controlled (i : nat).

Definition lookup_other (oss : list (list Other)) (g j : nat) : option Other :=
  match oss !! g with
  | Some os => os !! j
  | None => None
  end.

(** The first element of one gap whose attribute is the string true. *)
Definition first_other (g : nat) (os : list Other) : option Expandable :=
  (fun p => ExOther g (fst p))
    <$> list_find (fun o => other_expanded o = "true") os.

(** The elements after the last heading. *)
Fixpoint query_others (g : nat) (oss : list (list Other)) : option Expandable :=
  match oss with
  | [] => None
  | os :: oss' =>
    match first_other g os with
    | Some el => Some el
    | None => query_others (S g) oss'
    end
  end.

(** Gap [g], then heading [g], then the rest of the document. *)
Fixpoint query_from (g : nat) (ts : list Tab) (oss : list (list Other))
  : option Expandable :=
  match ts with
  | [] => query_others g oss
  | t :: ts' =>
    match first_other g (default [] (head oss)) with
    | Some el => Some el
    | None =>
      if bool_decide (aria_expanded t = "true") then Some (ExTab g)
      else query_from (S g) ts' (tail oss)
    end
  end.

(** [root.querySelector('[aria-expanded="true"]')]: the first descendant of
    the root, in document order, whose attribute is the string true,
    whether it is a heading or not. *)
Definition query_expanded (ts : list Tab) (oss : list (list Other))
  : option Expandable :=
  query_from 0 ts oss.

(** [root.querySelector('#' + tab.getAttribute('aria-controls'))] for a
    heading: the panel at the heading's position, null when there is none. *)
Definition query_panel (ps : list Panel) (k : nat) : option nat :=
  if bool_decide (k < length ps)%nat then Some k else None.

(** Line 211 for either kind of element. *)
Definition query_controls (el : Expandable) : M (option PanelRef) :=
  match el with
  | ExTab k =>
    ps ← gets panels ;
    mret (OwnPanel <$> query_panel ps k)
  | ExOther g j =>
    oss ← gets others ;
    o ← deref (lookup_other oss g j) ;
    match other_controls o with
    | BadSelector => throw
    | Resolves None => mret None
    | Resolves (Some i) =>
      cs ← gets controlled ;
      mret (Controlled <$> query_panel cs i)
    end
  end.

(** [el.getAttribute('aria-expanded')] *)
Definition getAttribute_expanded (el : Expandable) : M string :=
  match el with
  | ExTab k =>
    ts ← gets tabs ;
    t ← deref (ts !! k) ;
    mret (aria_expanded t)
  | ExOther g j =>
    oss ← gets others ;
    o ← deref (lookup_other oss g j) ;
    mret (other_expanded o)
  end.

(** [el.setAttribute('aria-expanded', value)] *)
Definition setAttribute_expanded (el : Expandable) (value : string) : M unit :=
  match el with
  | ExTab k => tab_setAttribute k "aria-expanded" value
  | ExOther g j =>
    modify (fun s =>
      set_others
        (alter (alter (fun o => mkOther value (other_controls o)) j) g (others s))
        s) ;;
    emit (SetAttribute (OtherEl g j) "aria-expanded" value)
  end.

(** [panel.setAttribute('aria-hidden', value)]; the panel may be null. *)
Definition panel_setAttribute (p : option PanelRef) (value : string) : M unit :=
  r ← deref p ;
  match r with
  | OwnPanel k =>
    modify (fun s => set_panels (alter (fun _ => mkPanel value) k (panels s)) s) ;;
    emit (SetAttribute (PanelEl k) "aria-hidden" value)
  | Controlled i =>
    modify (fun s =>
      set_controlled (alter (fun _ => mkPanel value) i (controlled s)) s) ;;
    emit (SetAttribute (ControlledEl i) "aria-hidden" value)
  end.

(** *** toggleTabPanel: lines 210-237. The recursion is bounded by fuel. *)
Fixpoint toggleTabPanel (fuel : nat) (tab : Expandable) : M unit :=
  match fuel with
  | O => fun _ => OutOfFuel
  | S fuel' =>
    panel ← query_controls tab ;
    e ← getAttribute_expanded tab ;
    if String.eqb e "false" then
      opts ← gets OPTIONS ;
      ts ← gets tabs ;
      oss ← gets others ;
      (if negb (multiple opts) && bool_decide (is_Some (query_expanded ts oss)) then
         ts' ← gets tabs ;
         oss' ← gets others ;
         openPanel ← deref (query_expanded ts' oss') ;
         toggleTabPanel fuel' openPanel
       else mret tt) ;;
      setAttribute_expanded tab (js_string_of_bool true) ;;
      panel_setAttribute panel (js_string_of_bool false) ;;
      dispatchEvent "accordion-expanded" true (element_of tab)
    else
      setAttribute_expanded tab (js_string_of_bool false) ;;
      panel_setAttribute panel (js_string_of_bool true) ;;
      dispatchEvent "accordion-collapsed" true (element_of tab)
  end.

(** The event target: a heading (an element with the tab role), or not. A
    heading beyond the array is one the constructor did not collect. *)
Inductive Target :=
| Heading (i : nat)
| NotHeading.

Definition role_is_tab (t : Target) : bool :=
  match t with Heading _ => true | NotHeading => false end.

(** [tabs.indexOf(e.target)] for a target with the tab role. *)
Definition indexOf (ts : list Tab) (t : Target) : Z :=
  match t with
  | Heading i => if bool_decide (i < length ts)%nat then Z.of_nat i else -1
  | NotHeading => -1
  end.

Section Handlers.
Variable KEYS : KeyCodes.
Variable fuel : nat.

(** *** The keydown listener: lines 109-170 *)
Definition keydown (target : Target) (which : Z) : M unit :=
  if role_is_tab target then
    if (which =? left KEYS) || (which =? up KEYS) then
      emit PreventDefault ;;
      opts ← gets OPTIONS ;
      i ← gets currentTabIndex ;
      last ← gets lastTabIndex ;
      (if wrapFocus opts
       then modify (set_currentTabIndex (if i =? 0 then last else i - 1))
       else modify (set_currentTabIndex (if i =? 0 then 0 else i - 1))) ;;
      updateFocusState
    else if (which =? right KEYS) || (which =? down KEYS) then
      emit PreventDefault ;;
      opts ← gets OPTIONS ;
      i ← gets currentTabIndex ;
      last ← gets lastTabIndex ;
      (if wrapFocus opts
       then modify (set_currentTabIndex (if i =? last then 0 else i + 1))
       else modify (set_currentTabIndex (if i =? last then last else i + 1))) ;;
      updateFocusState
    else if which =? end_ KEYS then
      emit PreventDefault ;;
      last ← gets lastTabIndex ;
      modify (set_currentTabIndex last) ;;
      updateFocusState
    else if which =? home KEYS then
      modify (set_currentTabIndex 0) ;;
      updateFocusState
    else if (which =? enter KEYS) || (which =? space KEYS) then
      emit PreventDefault ;;
      tab ← gets currentTab ;
      tab ← deref tab ;
      toggleTabPanel fuel (ExTab tab)
    else mret tt
  else mret tt.

(** *** The mousedown listener: lines 173-183 *)
Definition mousedown (target : Target) : M unit :=
  if role_is_tab target then
    ts ← gets tabs ;
    modify (set_currentTabIndex (indexOf ts target)) ;;
    updateFocusState ;;
    tab ← gets currentTab ;
    tab ← deref tab ;
    toggleTabPanel fuel (ExTab tab)
  else mret tt.

Inductive Input :=
| Keydown (target : Target) (which : Z)
| Mousedown (target : Target).

Definition handle (i : Input) : M unit :=
  match i with
  | Keydown t w => keydown t w
  | Mousedown t => mousedown t
  end.

(** Running a sequence of inputs, collecting the state after each one. *)
Fixpoint run (ins : list Input) (s : State) : Outcome (list State) :=
  match ins with
  | [] => Done [] s
  | i :: ins' =>
    match handle i s with
    | Done _ s' =>
      match run ins' s' with
      | Done l s'' => Done (s' :: l) s''
      | Fault => Fault
      | OutOfFuel => OutOfFuel
      end
    | Fault => Fault
    | OutOfFuel => OutOfFuel
    end
  end.

End Handlers.

End Accordion.

(** ** The dialog controller based on the inert property *)
Module InertDialog.
Import Dom.

(** The attributes of the container that configure the dialog. *)
Record Container := mkContainer {
  has_modeless : bool;
  has_no_esc : bool }.

Record Options := mkOptions { modeless : bool }.

(** What the constructor fixes for the lifetime of the dialog. *)
Record Closure := mkClosure {
  OPTIONS : Options;
  root : node;
  dialog_el : node }.

(** The constructor, lines 302-343, without the attribute and id wiring:
    the only option it reads from the container is [modeless]. *)
Definition dialog (element : Container) (root dlg : node) : Closure :=
  mkClosure (mkOptions (has_modeless element)) root dlg.

Record State := mkState {
  elements : list node;            (* the document, in document order *)
  has_open : bool;                 (* dialog.hasAttribute('open') *)
  inert : gset node;               (* the elements whose inert property is true *)
  overflow : option string;        (* document.body.style.overflow *)
  listeners : list string;         (* event types checkCloseDialog listens to *)
  autofocus : option node;         (* dialog.querySelector('[autofocus]') *)
  activeElement : node;            (* document.activeElement *)
  previousActiveElement : option node;
  dispatched : list CustomEvent;   (* events dispatched on root, oldest first *)
  focusable : gset node }.
      (* the elements that can take the focus: links, buttons, form controls
         and the elements with a tabindex *)

(** How a call ends: normally, or by an uncaught TypeError. *)
Inductive Completion :=
| Normal (s : State)
| Throw (s : State).

Definition state_of (c : Completion) : State :=
  match c with Normal s => s | Throw s => s end.

Definition set_has_open (b : bool) (s : State) : State :=
  mkState (elements s) b (inert s) (overflow s) (listeners s) (autofocus s)
          (activeElement s) (previousActiveElement s) (dispatched s)
          (focusable s).
Definition set_inert (el : node) (b : bool) (s : State) : State :=
  mkState (elements s) (has_open s)
          (if b then inert s ∪ {[ el ]} else inert s ∖ {[ el ]})
          (overflow s) (listeners s) (autofocus s)
          (activeElement s) (previousActiveElement s) (dispatched s)
          (focusable s).
Definition set_overflow (v : option string) (s : State) : State :=
  mkState (elements s) (has_open s) (inert s) v (listeners s) (autofocus s)
          (activeElement s) (previousActiveElement s) (dispatched s)
          (focusable s).
Definition set_listeners (l : list string) (s : State) : State :=
  mkState (elements s) (has_open s) (inert s) (overflow s) l (autofocus s)
          (activeElement s) (previousActiveElement s) (dispatched s)
          (focusable s).
Definition set_activeElement (el : node) (s : State) : State :=
  mkState (elements s) (has_open s) (inert s) (overflow s) (listeners s)
          (autofocus s) el (previousActiveElement s) (dispatched s) (focusable s).
Definition set_previousActiveElement (r : option node) (s : State) : State :=
  mkState (elements s) (has_open s) (inert s) (overflow s) (listeners s)
          (autofocus s) (activeElement s) r (dispatched s) (focusable s).

(** Registering the same function twice for a type registers it once. *)
Definition addEventListener (t : string) (s : State) : State :=
  set_listeners (if bool_decide (t ∈ listeners s) then listeners s
                 else listeners s ++ [t]) s.
Definition removeEventListener (t : string) (s : State) : State :=
  set_listeners (filter (fun t' => t' ≠ t) (listeners s)) s.

(** An element is inert when it or one of its ancestors carries the flag. *)
Fixpoint is_inert (I : gset node) (el : node) : bool :=
  bool_decide (el ∈ I) ||
  match el with
  | [] => false
  | _ :: p => is_inert I p
  end.

(** [el.focus()]: the element becomes [document.activeElement] when it can
    take the focus and is not inert; otherwise the call does nothing. The
    body, which [document.activeElement] names while no element has the
    focus, cannot take it unless the page made it focusable. *)
Definition can_focus (s : State) (el : node) : bool :=
  bool_decide (el ∈ focusable s) && negb (is_inert (inert s) el).

Definition focus (el : node) (s : State) : State :=
  if can_focus s el then set_activeElement el s else s.

Definition dispatchEvent (e : CustomEvent) (s : State) : State :=
  mkState (elements s) (has_open s) (inert s) (overflow s) (listeners s)
          (autofocus s) (activeElement s) (previousActiveElement s)
          (dispatched s ++ [e]) (focusable s).

(** [Array.from(document.body.children).forEach(...)] setting the inert
    property of every child but the root. *)
Definition mark_siblings (c : Closure) (b : bool) (s : State) : State :=
  foldl (fun st child =>
           if bool_decide (child ≠ root c) then set_inert child b st else st)
        s (children body (elements s)).

(** *** dialog.open: lines 349-381 *)
Definition open (c : Closure) (s : State) : State :=
  if has_open s then s else
  let s := set_previousActiveElement (Some (activeElement s)) s in
  let s := if negb (modeless (OPTIONS c))
           then mark_siblings c true (set_overflow (Some "hidden") s)
           else s in
  let s := set_has_open true s in
  let s := addEventListener "click" s in
  let s := addEventListener "keydown" s in
  let s := match autofocus s with
           | None => focus (dialog_el c) s
           | Some a => focus a s
           end in
  dispatchEvent (mkCustomEvent "modal-opened" false (Some (dialog_el c))) s.

(** *** dialog.close: lines 386-411 *)
Definition close (c : Closure) (s : State) : Completion :=
  if negb (has_open s) then Normal s else
  let s := if negb (modeless (OPTIONS c))
           then mark_siblings c false (set_overflow None s)
           else s in
  let s := set_has_open false s in
  let s := removeEventListener "click" s in
  let s := removeEventListener "keydown" s in
  match previousActiveElement s with
  | None => Throw s
  | Some p =>
    let s := focus p s in
    let s := set_previousActiveElement None s in
    Normal (dispatchEvent
              (mkCustomEvent "modal-closed" false (Some (dialog_el c))) s)
  end.

(** The ancestor walk of lines 426-434. *)
Fixpoint walk (dlg el : node) : node :=
  match el with
  | [] => el
  | _ :: p => if bool_decide (el = dlg) then el else walk dlg p
  end.

(** *** checkCloseDialog: lines 417-441 *)
Definition checkCloseDialog (c : Closure) (e : Event) (s : State) : Completion :=
  if String.eqb (ev_type e) "keydown" && (which e =? esc) then close c s
  else
    let el := walk (dialog_el c) (target e) in
    if bool_decide (el ≠ dialog_el c) then close c s else Normal s.

(** An event arriving at the document runs the handler when it is
    registered for the event's type. *)
Definition document_event (c : Closure) (e : Event) (s : State) : Completion :=
  if bool_decide (ev_type e ∈ listeners s) then checkCloseDialog c e s
  else Normal s.

End InertDialog.

(** ** The built dialog controller based on tabindex *)
Module BuildDialog.
Import Dom.

Record Container := mkContainer { has_modeless : bool }.

Record Options := mkOptions { modeless : bool }.

(** What the constructor fixes: the options, the root, the dialog element
    and the [type] property it stores on the dialog. *)
Record Closure := mkClosure {
  OPTIONS : Options;
  root : node;
  dialog_el : node;
  dialog_type : string }.

(** A deferred callback handed to setTimeout. *)
Inductive Task :=
| MarkNodes      (* the callback of lines 147-170 *)
| RestoreNodes.  (* the callback of lines 196-209 *)

Record State := mkState {
  elements : list node;                 (* the document, in document order *)
  role : gmap node string;              (* the role attribute, where present *)
  tabindex : gmap node string;          (* the tabindex attribute, where present *)
  prevTabindex : gmap node (option string);
      (* the _prevTabindex property: absent is undefined, [None] is null *)
  outline : gmap node string;           (* style.outline, where set *)
  aria_hidden : option string;          (* the dialog's aria-hidden attribute *)
  nonModalNodes : option (list node);   (* the _nonModalNodes property *)
  lastFocusedElement : option node;     (* the _lastFocusedElement property *)
  activeElement : node;                 (* document.activeElement *)
  overflow : option string;             (* document.body.style.overflow *)
  autofocusEls : list (node * bool);
      (* this.querySelectorAll('[autofocus]'), each with isVisible of it *)
  listeners : list string;              (* types with a handler on document *)
  timers : list Task;                   (* pending setTimeout callbacks *)
  dispatched : list CustomEvent;        (* events dispatched on root *)
  focusable : gset node }.
      (* the elements that can take the focus whatever their tabindex:
         links, buttons, form controls *)

Inductive Completion :=
| Normal (s : State)
| Throw (s : State).

Definition state_of (c : Completion) : State :=
  match c with Normal s => s | Throw s => s end.

(** The constructor, lines 60-93, without the attribute and id wiring; it
    leaves the dialog hidden. *)
Definition dialog (element : Container) (root dlg : node) : Closure :=
  mkClosure (mkOptions (has_modeless element)) root dlg
            (if has_modeless element then "modeless" else "modal").

Definition set_tabindex (m : gmap node string) (s : State) : State :=
  mkState (elements s) (role s) m (prevTabindex s) (outline s) (aria_hidden s)
          (nonModalNodes s) (lastFocusedElement s) (activeElement s)
          (overflow s) (autofocusEls s) (listeners s) (timers s) (dispatched s)
          (focusable s).
Definition set_prevTabindex (m : gmap node (option string)) (s : State) : State :=
  mkState (elements s) (role s) (tabindex s) m (outline s) (aria_hidden s)
          (nonModalNodes s) (lastFocusedElement s) (activeElement s)
          (overflow s) (autofocusEls s) (listeners s) (timers s) (dispatched s)
          (focusable s).
Definition set_outline (m : gmap node string) (s : State) : State :=
  mkState (elements s) (role s) (tabindex s) (prevTabindex s) m (aria_hidden s)
          (nonModalNodes s) (lastFocusedElement s) (activeElement s)
          (overflow s) (autofocusEls s) (listeners s) (timers s) (dispatched s)
          (focusable s).
Definition set_aria_hidden (v : option string) (s : State) : State :=
  mkState (elements s) (role s) (tabindex s) (prevTabindex s) (outline s) v
          (nonModalNodes s) (lastFocusedElement s) (activeElement s)
          (overflow s) (autofocusEls s) (listeners s) (timers s) (dispatched s)
          (focusable s).
Definition set_nonModalNodes (v : option (list node)) (s : State) : State :=
  mkState (elements s) (role s) (tabindex s) (prevTabindex s) (outline s)
          (aria_hidden s) v (lastFocusedElement s) (activeElement s)
          (overflow s) (autofocusEls s) (listeners s) (timers s) (dispatched s)
          (focusable s).
Definition set_lastFocusedElement (v : option node) (s : State) : State :=
  mkState (elements s) (role s) (tabindex s) (prevTabindex s) (outline s)
          (aria_hidden s) (nonModalNodes s) v (activeElement s)
          (overflow s) (autofocusEls s) (listeners s) (timers s) (dispatched s)
          (focusable s).
Definition set_activeElement (el : node) (s : State) : State :=
  mkState (elements s) (role s) (tabindex s) (prevTabindex s) (outline s)
          (aria_hidden s) (nonModalNodes s) (lastFocusedElement s) el
          (overflow s) (autofocusEls s) (listeners s) (timers s) (dispatched s)
          (focusable s).
Definition set_overflow (v : option string) (s : State) : State :=
  mkState (elements s) (role s) (tabindex s) (prevTabindex s) (outline s)
          (aria_hidden s) (nonModalNodes s) (lastFocusedElement s)
          (activeElement s) v (autofocusEls s) (listeners s) (timers s)
          (dispatched s)
          (focusable s).
Definition set_listeners (l : list string) (s : State) : State :=
  mkState (elements s) (role s) (tabindex s) (prevTabindex s) (outline s)
          (aria_hidden s) (nonModalNodes s) (lastFocusedElement s)
          (activeElement s) (overflow s) (autofocusEls s) l (timers s)
          (dispatched s)
          (focusable s).
Definition set_timers (l : list Task) (s : State) : State :=
  mkState (elements s) (role s) (tabindex s) (prevTabindex s) (outline s)
          (aria_hidden s) (nonModalNodes s) (lastFocusedElement s)
          (activeElement s) (overflow s) (autofocusEls s) (listeners s) l
          (dispatched s)
          (focusable s).
Definition dispatchEvent (e : CustomEvent) (s : State) : State :=
  mkState (elements s) (role s) (tabindex s) (prevTabindex s) (outline s)
          (aria_hidden s) (nonModalNodes s) (lastFocusedElement s)
          (activeElement s) (overflow s) (autofocusEls s) (listeners s)
          (timers s) (dispatched s ++ [e]) (focusable s).

Definition addEventListener (t : string) (s : State) : State :=
  set_listeners (if bool_decide (t ∈ listeners s) then listeners s
                 else listeners s ++ [t]) s.
Definition removeEventListener (t : string) (s : State) : State :=
  set_listeners (filter (fun t' => t' ≠ t) (listeners s)) s.

Definition setTimeout (t : Task) (s : State) : State :=
  set_timers (timers s ++ [t]) s.

(** The rules for parsing integers that decide whether a tabindex attribute
    makes its element focusable: leading white space, an optional sign, and
    then at least one digit; what follows the digits is ignored. *)
Definition is_whitespace (c : Ascii.ascii) : bool :=
  match Ascii.nat_of_ascii c with
  | 9%nat | 10%nat | 12%nat | 13%nat | 32%nat => true
  | _ => false
  end.

Definition is_digit (c : Ascii.ascii) : bool :=
  (48 <=? Ascii.nat_of_ascii c)%nat && (Ascii.nat_of_ascii c <=? 57)%nat.

Fixpoint skip_whitespace (str : string) : string :=
  match str with
  | String c rest => if is_whitespace c then skip_whitespace rest else str
  | EmptyString => str
  end.

Definition starts_with_digit (str : string) : bool :=
  match str with
  | String c _ => is_digit c
  | EmptyString => false
  end.

Definition is_sign (c : Ascii.ascii) : bool :=
  match Ascii.nat_of_ascii c with
  | 43%nat | 45%nat => true
  | _ => false
  end.

Definition parses_as_integer (str : string) : bool :=
  match skip_whitespace str with
  | String c rest => if is_sign c then starts_with_digit rest else is_digit c
  | EmptyString => false
  end.

(** An element can take the focus when it is focusable by its kind or
    carries a tabindex attribute that is an integer. The body, which
    [document.activeElement] names while no element has the focus, is
    neither unless the page made it so. *)
Definition can_focus (s : State) (el : node) : bool :=
  bool_decide (el ∈ focusable s)
  || from_option parses_as_integer false (tabindex s !! el).

(** [el.focus()]: the element becomes [document.activeElement] when it can
    take the focus; otherwise the call does nothing. *)
Definition focus (el : node) (s : State) : State :=
  if can_focus s el then set_activeElement el s else s.

(** The first visible element of [autofocusEls]: the loop of lines 118-124. *)
Definition first_visible (l : list (node * bool)) : option node :=
  fst <$> (snd <$> list_find (fun p => snd p = true) l).

(** [document.querySelectorAll('body *:not([role="dialog"]):not([tabindex="-1"])')] *)
Definition query_nonModal (s : State) : list node :=
  filter (fun el => inside body el = true
                    ∧ role s !! el ≠ Some "dialog"
                    ∧ tabindex s !! el ≠ Some "-1")
         (elements s).

(** [Array.from(_this.querySelectorAll('*'))] *)
Definition query_modalNodes (c : Closure) (s : State) : list node :=
  filter (fun el => inside (dialog_el c) el = true) (elements s).

(** One turn of the loop of lines 154-169. *)
Definition mark_node (modalNodes : list node) (st : State) (el : node) : State :=
  if bool_decide (el ∉ modalNodes) then
    let st := set_prevTabindex (<[el := tabindex st !! el]> (prevTabindex st)) st in
    let st := set_tabindex (<[el := "-1"]> (tabindex st)) st in
    set_outline (<[el := "none"]> (outline st)) st
  else st.

(** A string or null in a condition: only a non-empty string is truthy. *)
Definition truthy (v : option (option string)) : option string :=
  match v with
  | Some (Some str) => if String.eqb str "" then None else Some str
  | _ => None
  end.

(** One turn of the loop of lines 197-208. *)
Definition restore_node (st : State) (el : node) : State :=
  let st :=
    match truthy (prevTabindex st !! el) with
    | Some prev =>
      let st := set_tabindex (<[el := prev]> (tabindex st)) st in
      set_prevTabindex (<[el := None]> (prevTabindex st)) st
    | None => set_tabindex (delete el (tabindex st)) st
    end in
  set_outline (delete el (outline st)) st.

Definition run_task (c : Closure) (t : Task) (s : State) : Completion :=
  match t with
  | MarkNodes =>
    let modalNodes := query_modalNodes c s in
    let s := set_nonModalNodes (Some (query_nonModal s)) s in
    match nonModalNodes s with
    | Some l => Normal (foldl (mark_node modalNodes) s l)
    | None => Throw s
    end
  | RestoreNodes =>
    match nonModalNodes s with
    | Some l => Normal (foldl restore_node s l)
    | None => Throw s
    end
  end.

(** The event loop runs the pending callbacks in the order they were
    scheduled; a callback that faults does not stop the later ones. *)
Fixpoint run_tasks (c : Closure) (ts : list Task) (s : State) : State :=
  match ts with
  | [] => s
  | t :: ts' => run_tasks c ts' (state_of (run_task c t s))
  end.

Definition run_timers (c : Closure) (s : State) : State :=
  run_tasks c (timers s) (set_timers [] s).

(** *** dialog.show: lines 98-176 *)
Definition show (c : Closure) (s : State) : State :=
  if bool_decide (aria_hidden s = None) then s else
  let s := set_aria_hidden None s in
  let s := set_lastFocusedElement (Some (activeElement s)) s in
  let s := match first_visible (autofocusEls s) with
           | Some a => focus a s
           | None => focus (dialog_el c) s
           end in
  let s := if String.eqb (dialog_type c) "modal"
           then setTimeout MarkNodes (set_overflow (Some "hidden") s)
           else s in
  let s := addEventListener "keydown" s in
  addEventListener "mousedown" s.

(** *** dialog.close: lines 181-220 *)
Definition close (c : Closure) (s : State) : Completion :=
  if bool_decide (aria_hidden s ≠ None) then Normal s else
  let s := set_aria_hidden (Some (js_string_of_bool true)) s in
  let s := if String.eqb (dialog_type c) "modal"
           then setTimeout RestoreNodes (set_overflow None s)
           else s in
  match lastFocusedElement s with
  | None => Throw s
  | Some p =>
    let s := focus p s in
    let s := set_lastFocusedElement None s in
    let s := removeEventListener "keydown" s in
    Normal (removeEventListener "mousedown" s)
  end.

(** *** keydownHandler: lines 223-231 *)
Definition keydownHandler (c : Closure) (e : Event) (s : State) : Completion :=
  if which e =? esc then
    close c (dispatchEvent (mkCustomEvent "dialog-closed" false None) s)
  else Normal s.

(** The ancestor walk of lines 240-243. *)
Fixpoint walk (dlg el : node) : node :=
  match el with
  | [] => el
  | _ :: p => if bool_decide (el ≠ dlg) then walk dlg p else el
  end.

(** What a handler did to the event it was given. *)
Record Cancelled := mkCancelled {
  defaultPrevented : bool;
  propagationStopped : bool }.

(** *** clickHandler: lines 233-249. It changes the event only. *)
Definition clickHandler (c : Closure) (e : Event) (s : State)
  : State * Cancelled :=
  if negb (String.eqb (dialog_type c) "modal") then (s, mkCancelled false false)
  else
    let el := walk (dialog_el c) (target e) in
    if bool_decide (el ≠ dialog_el c) then (s, mkCancelled true true)
    else (s, mkCancelled false false).

(** An event arriving at the document: keydown and mousedown each have
    their own handler. *)
Definition document_event (c : Closure) (e : Event) (s : State) : Completion :=
  if bool_decide (ev_type e ∈ listeners s) then
    if String.eqb (ev_type e) "keydown" then keydownHandler c e s
    else if String.eqb (ev_type e) "mousedown" then Normal (fst (clickHandler c e s))
    else Normal s
  else Normal s.

End BuildDialog.

(** ** The identifiers the accordion constructor generates *)
Module AccordionIds.
Import Accordion.

Definition TAB_ID : string := "ae_accordion-heading".
Definition PANEL_ID : string := "ae_accordion-panel".

(** A string concatenated with a number: the number in decimal. *)
Definition concat_number (prefix : string) (n : N) : string :=
  String.append prefix (pretty n).

(** The id attributes and the references to them that the two loops of
    lines 86-102 write, heading by heading and panel by panel, and the
    counter as line 104 leaves it. *)
Record Wired := mkWired {
  tab_controls : list string;
  tab_id : list string;
  panel_labelledby : list string;
  panel_id : list string;
  uid_after : N }.

Definition wire (uid : N) (m : Markup) : Wired :=
  let nTabs := length (markup_tabs m) in
  let nPanels := length (markup_panels m) in
  mkWired
    ((fun i => concat_number PANEL_ID (uid + N.of_nat i)) <$> seq 0 nTabs)
    ((fun i => concat_number TAB_ID (uid + N.of_nat i)) <$> seq 0 nTabs)
    ((fun i => concat_number TAB_ID (uid + N.of_nat i)) <$> seq 0 nPanels)
    ((fun i => concat_number PANEL_ID (uid + N.of_nat i)) <$> seq 0 nPanels)
    (uid + N.of_nat nTabs).

(** [root.querySelector('#' + id)] among the elements the constructor gave
    an id: the headings never match a panel id, so the first match is the
    first panel with that id. *)
Definition query_id (w : Wired) (id : string) : option Element :=
  match list_find (fun x => x = id) (tab_id w) with
  | Some (i, _) => Some (TabEl i)
  | None =>
    match list_find (fun x => x = id) (panel_id w) with
    | Some (i, _) => Some (PanelEl i)
    | None => None
    end
  end.

End AccordionIds.

(** ** The label the dialog constructors give the dialog *)
Module DialogLabel.
Import AccordionIds.

Definition TITLE_ID : string := "ae_dialog-heading".

(** What the labelling steps read and write: the id attribute of the first
    heading ([None]: there is no heading; [Some None]: it has no id), the
    dialog's aria-labelledby attribute, and the counter. *)
Record Labels := mkLabels {
  title : option (option string);
  labelledby : option string;
  uid : N }.

(** Lines 88-90 and 336-338: the heading keeps its id or gets a fresh one. *)
Definition ensure_id (t : option string) (uid : N) : string * N :=
  match t with
  | Some id => (id, uid)
  | None => (concat_number TITLE_ID uid, (uid + 1)%N)
  end.

(** The inert variant, lines 334-343: a member access on the missing
    heading faults ([None]). *)
Definition label_inert (l : Labels) : option Labels :=
  match title l with
  | None => None
  | Some t =>
    let (id, uid') := ensure_id t (uid l) in
    Some (mkLabels (Some (Some id))
                   (match labelledby l with
                    | Some x => Some x
                    | None => Some id
                    end)
                   uid')
  end.

(** The built variant, lines 84-93. *)
Definition label_build (l : Labels) : Labels :=
  match title l with
  | None => l
  | Some t =>
    let (id, uid') := ensure_id t (uid l) in
    mkLabels (Some (Some id)) (Some id) uid'
  end.

End DialogLabel.

(** ** Properties of the accordion controller *)
Module AccordionSpec.
Import Accordion.

(** The [aria-expanded] and [tabindex] attributes of the headings, in order. *)
Definition expanded_flags (s : State) : list string := aria_expanded <$> tabs s.
Definition tab_stops (s : State) : list string := tabindex <$> tabs s.

(** The [aria-expanded] attributes of the other elements under the root. *)
Definition other_flags (oss : list (list Other)) : list string :=
  other_expanded <$> concat oss.

Definition count_true (l : list string) : nat :=
  length (filter (fun e => e = "true") l).

(** The number of headings whose panel is expanded. *)
Definition expanded_count (s : State) : nat :=
  length (filter (fun e => e = "true") (expanded_flags s)).

(** The number of other elements whose attribute is the string true, and
    the number of all the elements the query of line 218 matches. *)
Definition others_count (s : State) : nat := count_true (other_flags (others s)).
Definition matching_count (s : State) : nat :=
  (expanded_count s + others_count s)%nat.

(** Heading [k] is the only tab stop. *)
Definition only_tab_stop (k : nat) (s : State) : Prop :=
  forall j t, tabs s !! j = Some t ->
    tabindex t = if bool_decide (j = k) then "0" else "-1".

(** Every other element that the query can return names, by its
    aria-controls, an element under the root. *)
Definition resolvable (oss : list (list Other)) (cs : list Panel) : Prop :=
  forall g j o, lookup_other oss g j = Some o -> other_expanded o = "true" ->
    exists i, other_controls o = Resolves (Some i) /\ (i < length cs)%nat.

(** The element line 211 finds for the other element [j] of gap [g]. *)
Definition resolved (s : State) (g j : nat) : option nat :=
  match lookup_other (others s) g j with
  | Some o =>
    match other_controls o with
    | Resolves (Some i) => query_panel (controlled s) i
    | _ => None
    end
  | None => None
  end.

(** The state after the three steps that expand ([b = true]) or collapse
    ([b = false]) heading [k] and its panel. *)
Definition toggled (k : nat) (b : bool) (s : State) : State :=
  mkState (OPTIONS s)
          (alter (set_tab_attr "aria-expanded" (js_string_of_bool b)) k (tabs s))
          (alter (fun _ => mkPanel (js_string_of_bool (negb b))) k (panels s))
          (currentTabIndex s) (currentTab s) (lastTabIndex s) (activeElement s)
          (trace s ++
           [SetAttribute (TabEl k) "aria-expanded" (js_string_of_bool b);
            SetAttribute (PanelEl k) "aria-hidden" (js_string_of_bool (negb b));
            DispatchEvent (if b then "accordion-expanded" else "accordion-collapsed")
                          true (TabEl k)])
          (others s) (controlled s).

(** The state after the three steps that collapse the other element [j] of
    gap [g] and hide the element [i] it controls. *)
Definition other_closed (g j i : nat) (s : State) : State :=
  mkState (OPTIONS s) (tabs s) (panels s)
          (currentTabIndex s) (currentTab s) (lastTabIndex s) (activeElement s)
          (trace s ++
           [SetAttribute (OtherEl g j) "aria-expanded" "false";
            SetAttribute (ControlledEl i) "aria-hidden" "true";
            DispatchEvent "accordion-collapsed" true (OtherEl g j)])
          (alter (alter (fun o => mkOther "false" (other_controls o)) j) g
                 (others s))
          (alter (fun _ => mkPanel "true") i (controlled s)).

(** The state in which toggleTabPanel expands a heading: the one the nested
    call leaves when it completes. *)
Definition nested_closed (el : Expandable) (s : State) : State :=
  match el with
  | ExTab j => toggled j false s
  | ExOther g j => other_closed g j (default 0%nat (resolved s g j)) s
  end.

(** The state toggleTabPanel leaves for heading [k] when it completes. *)
Definition toggle_result (k : nat) (s : State) : State :=
  match tabs s !! k with
  | Some t =>
    if String.eqb (aria_expanded t) "false" then
      match query_expanded (tabs s) (others s) with
      | Some el =>
        if multiple (OPTIONS s) then toggled k true s
        else toggled k true (nested_closed el s)
      | None => toggled k true s
      end
    else toggled k false s
  | None => s
  end.

(** The effects of one focus transition from heading [old] to heading [new]. *)
Definition focus_transition (old new : nat) : list Effect :=
  [SetAttribute (TabEl old) "aria-selected" "false";
   SetAttribute (TabEl old) "tabindex" "-1";
   DispatchEvent "accordion-blurred" true (TabEl old);
   SetAttribute (TabEl new) "aria-selected" "true";
   SetAttribute (TabEl new) "tabindex" "0";
   Focus (TabEl new);
   DispatchEvent "accordion-focused" true (TabEl new)].

(** The state after a focus transition. *)
Definition refocused (old new : nat) (s : State) : State :=
  mkState (OPTIONS s)
          (alter (set_tab_attr "tabindex" "0") new
             (alter (set_tab_attr "aria-selected" "true") new
                (alter (set_tab_attr "tabindex" "-1") old
                   (alter (set_tab_attr "aria-selected" "false") old (tabs s)))))
          (panels s) (currentTabIndex s) (Some new) (lastTabIndex s)
          (Some (TabEl new)) (trace s ++ focus_transition old new)
          (others s) (controlled s).

(** The state in which a handler calls updateFocusState: the default action
    possibly prevented, the index variable assigned. *)
Definition prevented (s : State) : State :=
  mkState (OPTIONS s) (tabs s) (panels s) (currentTabIndex s) (currentTab s)
          (lastTabIndex s) (activeElement s) (trace s ++ [PreventDefault])
          (others s) (controlled s).

Definition moved (pd : bool) (i : Z) (s : State) : State :=
  set_currentTabIndex i (if pd then prevented s else s).

(** The index a previous and a next command assign. *)
Definition prev_index (s : State) : Z :=
  let i := currentTabIndex s in
  if wrapFocus (OPTIONS s)
  then (if i =? 0 then lastTabIndex s else i - 1)
  else (if i =? 0 then 0 else i - 1).

Definition next_index (s : State) : Z :=
  let i := currentTabIndex s in
  if wrapFocus (OPTIONS s)
  then (if i =? lastTabIndex s then 0 else i + 1)
  else (if i =? lastTabIndex s then lastTabIndex s else i + 1).

(** The four ways a completed handler changes the state. *)
Inductive handled (s : State) : State -> Prop :=
| handled_ignored : handled s s
| handled_navigated pd i k :
    0 <= i <= lastTabIndex s -> currentTab s = Some k ->
    handled s (refocused k (Z.to_nat i) (moved pd i s))
| handled_key_toggled k :
    currentTab s = Some k ->
    handled s (toggle_result k (prevented s))
| handled_clicked h k :
    (h < length (tabs s))%nat -> currentTab s = Some k ->
    handled s (toggle_result h (refocused k h (moved false (Z.of_nat h) s))).

Section Reachable.
Variable KEYS : KeyCodes.
Variable fuel : nat.
Variable m : Markup.

(** The states an accordion passes through: the one the constructor leaves,
    and the one each completed handler leaves. *)
Inductive reachable : State -> Prop :=
| reachable_init : reachable (accordion m)
| reachable_step s i s' :
    reachable s -> handle KEYS fuel i s = Done tt s' -> reachable s'.

(** An input the markup contract allows: a pointer-down on a heading hits
    one of the headings the constructor collected. *)
Definition valid_input (i : Input) : Prop :=
  match i with
  | Mousedown (Heading k) => (k < length (markup_tabs m))%nat
  | _ => True
  end.

(** What every reachable state of an accordion with a heading satisfies. *)
Record Inv (s : State) : Prop := mkInv {
  inv_options : OPTIONS s =
    mkOptions (has_expanded m) (has_multiple m) (has_wrap_focus m);
  inv_tabs : length (tabs s) = length (markup_tabs m);
  inv_panels : length (panels s) = length (markup_panels m);
  inv_last : lastTabIndex s = Z.of_nat (length (markup_tabs m)) - 1;
  inv_current : exists k, currentTabIndex s = Z.of_nat k /\ currentTab s = Some k
                     /\ (k < length (markup_tabs m))%nat /\ only_tab_stop k s }.

End Reachable.

Ltac munfold :=
  cbv beta iota delta
    [mbind M_bind mret M_ret gets modify emit throw deref tab_setAttribute
     panel_setAttribute getAttribute_expanded setAttribute_expanded
     query_controls element_of focus dispatchEvent
     set_tabs set_panels set_currentTab set_currentTabIndex set_activeElement
     set_others set_controlled
     OPTIONS tabs panels currentTabIndex currentTab lastTabIndex
     activeElement trace others controlled].

(** Taking the state apart first keeps the unfolded handlers small. *)
Ltac mstart s :=
  destruct s as [s_opts s_tabs s_panels s_index s_cur s_last s_active s_trace
                 s_others s_controlled];
  cbn [OPTIONS tabs panels currentTabIndex currentTab lastTabIndex
       activeElement trace others controlled] in *.

Lemma array_ref_alter {A} (f : A -> A) k (l : list A) i :
  array_ref (alter f k l) i = array_ref l i.
Proof. unfold array_ref. by rewrite length_alter. Qed.

Lemma array_ref_in_range {A} (l : list A) (k : nat) :
  (k < length l)%nat -> array_ref l (Z.of_nat k) = Some k.
Proof.
  intros Hk. unfold array_ref.
  destruct (Z.ltb_spec (Z.of_nat k) 0); [lia|].
  destruct (Z.leb_spec (Z.of_nat (length l)) (Z.of_nat k)); [lia|].
  cbn. by rewrite Nat2Z.id.
Qed.

Lemma array_ref_Some {A} (l : list A) i k :
  array_ref l i = Some k -> i = Z.of_nat k /\ (k < length l)%nat.
Proof.
  unfold array_ref.
  destruct (Z.ltb_spec i 0); [done|].
  destruct (Z.leb_spec (Z.of_nat (length l)) i); [done|].
  cbn. intros [= <-]. lia.
Qed.

(** updateFocusState in closed form. *)
Lemma updateFocusState_eq s old new :
  currentTab s = Some old ->
  array_ref (tabs s) (currentTabIndex s) = Some new ->
  updateFocusState s = Done tt (refocused old new s).
Proof.
  intros H1 H2. mstart s. unfold updateFocusState, refocused, focus_transition.
  munfold. rewrite H1. munfold. rewrite !array_ref_alter, H2. munfold.
  cbn [js_string_of_bool]. by rewrite <- !app_assoc.
Qed.

Lemma updateFocusState_fault_undefined s :
  array_ref (tabs s) (currentTabIndex s) = None -> updateFocusState s = Fault.
Proof.
  intros H. mstart s. unfold updateFocusState. munfold.
  destruct s_cur; munfold; [|done].
  by rewrite !array_ref_alter, H.
Qed.

Lemma lookup_alter_case {A} (f : A -> A) (l : list A) i j :
  alter f i l !! j = (if bool_decide (i = j) then f else id) <$> l !! j.
Proof.
  rewrite list_lookup_alter. case_decide; subst.
  - by rewrite bool_decide_true.
  - rewrite bool_decide_false by done. by destruct (l !! j).
Qed.

Lemma refocused_tab_stop old new s :
  only_tab_stop old s -> only_tab_stop new (refocused old new s).
Proof.
  intros Hold j t. unfold refocused. cbn [tabs].
  rewrite !lookup_alter_case.
  destruct (tabs s !! j) as [t0|] eqn:Hj; cbn; [|done].
  specialize (Hold j t0 Hj). intros [= <-].
  repeat case_bool_decide; subst; cbn; try done; congruence.
Qed.

Lemma refocused_flags old new s :
  expanded_flags (refocused old new s) = expanded_flags s.
Proof.
  unfold expanded_flags, refocused. cbn [tabs].
  apply list_eq. intros j. rewrite !list_lookup_fmap, !lookup_alter_case.
  destruct (tabs s !! j); cbn; repeat case_bool_decide; done.
Qed.

(** What the query returns is an element whose attribute is the string
    true, and it returns one when there is one. *)
Lemma first_other_Some g os el :
  first_other g os = Some el ->
  exists j o, el = ExOther g j /\ os !! j = Some o /\ other_expanded o = "true".
Proof.
  unfold first_other.
  destruct (list_find _ os) as [[j o]|] eqn:Hf; [|done].
  cbn. intros [= <-]. apply list_find_Some in Hf as (? & ? & _). eauto.
Qed.

Lemma first_other_None g os :
  first_other g os = None <-> Forall (fun o => other_expanded o <> "true") os.
Proof. unfold first_other. rewrite fmap_None. apply list_find_None. Qed.

Lemma query_others_Some g oss el :
  query_others g oss = Some el ->
  exists g' j o, el = ExOther (g + g') j
    /\ lookup_other oss g' j = Some o /\ other_expanded o = "true".
Proof.
  revert g. induction oss as [|os oss IH]; intros g; [done|]. cbn.
  destruct (first_other g os) as [el'|] eqn:Hf.
  - intros [= <-]. apply first_other_Some in Hf as (j & o & -> & Ho & He).
    exists 0%nat, j, o. rewrite Nat.add_0_r. done.
  - intros (g' & j & o & -> & Ho & He)%IH.
    exists (S g'), j, o. split; [f_equal; lia|done].
Qed.

Lemma query_others_None g oss :
  query_others g oss = None ->
  Forall (Forall (fun o => other_expanded o <> "true")) oss.
Proof.
  revert g. induction oss as [|os oss IH]; intros g; [done|]. cbn.
  destruct (first_other g os) eqn:Hf; [done|].
  intros H. constructor; [by apply (first_other_None g)|by eapply IH].
Qed.

Lemma query_from_Some g ts oss el :
  query_from g ts oss = Some el ->
  (exists j t, el = ExTab (g + j) /\ ts !! j = Some t /\ aria_expanded t = "true")
  \/ (exists g' j o, el = ExOther (g + g') j
        /\ lookup_other oss g' j = Some o /\ other_expanded o = "true").
Proof.
  revert g oss. induction ts as [|t ts IH]; intros g oss; cbn.
  { intros H%query_others_Some. by right. }
  destruct (first_other g (default [] (head oss))) as [el'|] eqn:Hf.
  - intros [= <-]. apply first_other_Some in Hf as (j & o & -> & Ho & He).
    right. exists 0%nat, j, o. rewrite Nat.add_0_r.
    split; [done|]. split; [|done].
    destruct oss as [|os oss]; [done|]. done.
  - case_bool_decide as Ht.
    + intros [= <-]. left. exists 0%nat, t. by rewrite Nat.add_0_r.
    + intros [(j & t' & -> & Hj & He)|(g' & j & o & -> & Ho & He)]%IH.
      * left. exists (S j), t'. split; [f_equal; lia|done].
      * right. exists (S g'), j, o. split; [f_equal; lia|].
        split; [|done]. destruct oss as [|os oss]; [|done].
        by destruct g'.
Qed.

Lemma query_from_None g ts oss :
  query_from g ts oss = None ->
  Forall (fun t => aria_expanded t <> "true") ts
  /\ Forall (Forall (fun o => other_expanded o <> "true")) oss.
Proof.
  revert g oss. induction ts as [|t ts IH]; intros g oss; cbn.
  { intros H%query_others_None. done. }
  destruct (first_other g (default [] (head oss))) eqn:Hf; [done|].
  case_bool_decide as Ht; [done|].
  intros [H1 H2]%IH. split; [by constructor|].
  destruct oss as [|os oss]; [done|].
  constructor; [|done]. by apply (first_other_None g).
Qed.

Lemma query_expanded_tab ts oss j :
  query_expanded ts oss = Some (ExTab j) ->
  exists t, ts !! j = Some t /\ aria_expanded t = "true".
Proof.
  intros [(i & t & [= ->] & ? & ?)|(? & ? & ? & [=] & _)]%query_from_Some.
  eauto.
Qed.

Lemma query_expanded_other ts oss g j :
  query_expanded ts oss = Some (ExOther g j) ->
  exists o, lookup_other oss g j = Some o /\ other_expanded o = "true".
Proof.
  intros [(? & ? & [=] & _)|(g' & i & o & [= -> ->] & ? & ?)]%query_from_Some.
  eauto.
Qed.

Lemma query_expanded_None ts oss :
  query_expanded ts oss = None ->
  Forall (fun t => aria_expanded t <> "true") ts
  /\ Forall (Forall (fun o => other_expanded o <> "true")) oss.
Proof. apply query_from_None. Qed.

(** With no other element expanded, the query is the search among the
    headings: it returns the first expanded heading. *)
Lemma query_from_headings g ts oss :
  Forall (Forall (fun o => other_expanded o <> "true")) oss ->
  query_from g ts oss
  = (fun p => ExTab (g + fst p))
      <$> list_find (fun t => aria_expanded t = "true") ts.
Proof.
  revert g oss. induction ts as [|t ts IH]; intros g oss Hoss; cbn.
  { clear -Hoss. revert g. induction Hoss as [|os oss Hos _ IH]; intros g; [done|].
    cbn. rewrite (proj2 (first_other_None g os) Hos). apply IH. }
  assert (first_other g (default [] (head oss)) = None) as ->.
  { apply first_other_None. destruct Hoss; [constructor|done]. }
  case_bool_decide as Ht.
  - rewrite decide_True by done. cbn. by rewrite Nat.add_0_r.
  - rewrite decide_False by done. rewrite IH by (destruct Hoss; [constructor|done]).
    destruct (list_find _ ts) as [[i u]|]; cbn; [|done]. f_equal. f_equal. lia.
Qed.

Lemma query_expanded_first ts oss j :
  Forall (Forall (fun o => other_expanded o <> "true")) oss ->
  query_expanded ts oss = Some (ExTab j) <->
  exists t, ts !! j = Some t /\ aria_expanded t = "true"
       /\ forall i u, ts !! i = Some u -> (i < j)%nat -> aria_expanded u <> "true".
Proof.
  intros Hoss. unfold query_expanded. rewrite query_from_headings by done. split.
  - destruct (list_find _ ts) as [[i t]|] eqn:Hf; [|done].
    cbn. intros [= <-]. apply list_find_Some in Hf. eauto.
  - intros (t & H1 & H2 & H3).
    assert (list_find (fun t => aria_expanded t = "true") ts = Some (j, t)) as ->;
      [|done].
    apply list_find_Some. eauto.
Qed.

(** toggleTabPanel in closed form, by the branch it takes. *)
Lemma toggle_collapse f k s t :
  tabs s !! k = Some t -> aria_expanded t <> "false" ->
  (k < length (panels s))%nat ->
  toggleTabPanel (S f) (ExTab k) s = Done tt (toggled k false s).
Proof.
  intros Ht He Hk. mstart s. cbn [toggleTabPanel]. unfold toggled. munfold.
  rewrite Ht. munfold.
  destruct (String.eqb_spec (aria_expanded t) "false") as [|_]; [done|].
  unfold query_panel. rewrite bool_decide_true by done.
  cbn [fmap option_fmap option_map]. munfold.
  cbn [negb js_string_of_bool]. by rewrite <- !app_assoc.
Qed.

Lemma other_collapse f g j s o i :
  lookup_other (others s) g j = Some o -> other_expanded o <> "false" ->
  other_controls o = Resolves (Some i) -> (i < length (controlled s))%nat ->
  toggleTabPanel (S f) (ExOther g j) s = Done tt (other_closed g j i s).
Proof.
  intros Ho He Hc Hi. mstart s. cbn [toggleTabPanel]. unfold other_closed. munfold.
  rewrite Ho. munfold. rewrite Hc.
  unfold query_panel. rewrite bool_decide_true by done.
  cbn [fmap option_fmap option_map]. munfold. rewrite Ho. munfold.
  destruct (String.eqb_spec (other_expanded o) "false") as [|_]; [done|].
  munfold. cbn [negb js_string_of_bool]. by rewrite <- !app_assoc.
Qed.

Lemma other_collapse_Done f g j s s' o :
  lookup_other (others s) g j = Some o -> other_expanded o <> "false" ->
  toggleTabPanel f (ExOther g j) s = Done tt s' ->
  exists i, resolved s g j = Some i /\ s' = other_closed g j i s.
Proof.
  intros Ho He. destruct f as [|f]; [done|].
  unfold resolved. rewrite Ho.
  destruct (other_controls o) as [|[i|]] eqn:Hc.
  - mstart s. cbn [toggleTabPanel]. munfold. rewrite Ho. munfold. by rewrite Hc.
  - destruct (decide (i < length (controlled s))%nat) as [Hi|Hi].
    + rewrite (other_collapse f g j s o i) by done. intros [= <-].
      exists i. unfold query_panel. by rewrite bool_decide_true.
    + mstart s. cbn [toggleTabPanel]. munfold. rewrite Ho. munfold. rewrite Hc.
      unfold query_panel. rewrite bool_decide_false by done.
      cbn [fmap option_fmap option_map]. munfold. rewrite Ho. munfold.
      destruct (String.eqb_spec (other_expanded o) "false") as [|_]; [done|].
      by munfold.
  - mstart s. cbn [toggleTabPanel]. munfold. rewrite Ho. munfold. rewrite Hc.
    munfold. rewrite Ho. munfold.
    destruct (String.eqb_spec (other_expanded o) "false") as [|_]; [done|].
    by munfold.
Qed.

(** The nested call, on whatever the query returned. *)
Lemma nested_collapse f el s :
  query_expanded (tabs s) (others s) = Some el ->
  (forall j, el = ExTab j -> (j < length (panels s))%nat) ->
  (forall g j, el = ExOther g j -> is_Some (resolved s g j)) ->
  toggleTabPanel (S f) el s = Done tt (nested_closed el s).
Proof.
  intros Hq Hp Hr. destruct el as [j|g j]; cbn [nested_closed].
  - apply query_expanded_tab in Hq as (t & Ht & He).
    eapply toggle_collapse; eauto. by rewrite He.
  - apply query_expanded_other in Hq as (o & Ho & He).
    destruct (Hr g j eq_refl) as [i Hi]. rewrite Hi.
    revert Hi. unfold resolved. rewrite Ho.
    destruct (other_controls o) as [|[i'|]] eqn:Hc; [done| |done].
    unfold query_panel. case_bool_decide; [|done]. intros [= ->].
    eapply other_collapse; eauto. by rewrite He.
Qed.

Lemma nested_collapse_Done f el s s' :
  query_expanded (tabs s) (others s) = Some el ->
  toggleTabPanel f el s = Done tt s' ->
  s' = nested_closed el s
  /\ (forall j, el = ExTab j -> (j < length (panels s))%nat)
  /\ (forall g j, el = ExOther g j -> is_Some (resolved s g j)).
Proof.
  intros Hq Hd. destruct el as [j|g j]; cbn [nested_closed].
  - apply query_expanded_tab in Hq as (t & Ht & He).
    destruct f as [|f]; [done|].
    destruct (decide (j < length (panels s))%nat) as [Hj|Hj].
    + rewrite (toggle_collapse f j s t) in Hd by (by rewrite ?He).
      injection Hd as <-. split; [done|]. split; [by intros ? [= <-]|done].
    + exfalso. revert Hd. mstart s. cbn [toggleTabPanel]. munfold.
      rewrite Ht. munfold. rewrite He. cbn [String.eqb Ascii.eqb Bool.eqb].
      unfold query_panel. rewrite bool_decide_false by done.
      cbn [fmap option_fmap option_map]. by munfold.
  - apply query_expanded_other in Hq as (o & Ho & He).
    eapply other_collapse_Done in Hd as (i & Hi & ->); [|done|by rewrite He].
    rewrite Hi. split; [done|]. split; [done|].
    intros ? ? [= <- <-]. eauto.
Qed.


Lemma toggle_expand_alone f k s t :
  tabs s !! k = Some t -> aria_expanded t = "false" ->
  multiple (OPTIONS s) = true \/ query_expanded (tabs s) (others s) = None ->
  (k < length (panels s))%nat ->
  toggleTabPanel (S f) (ExTab k) s = Done tt (toggled k true s).
Proof.
  intros Ht He Hc Hk. mstart s. cbn [toggleTabPanel]. unfold toggled. munfold.
  rewrite Ht. munfold. rewrite He. cbn [String.eqb Ascii.eqb Bool.eqb].
  assert (negb (multiple s_opts)
          && bool_decide (is_Some (query_expanded s_tabs s_others)) = false) as ->.
  { destruct Hc as [-> | ->]; [done|].
    rewrite bool_decide_false by (by intros [? ?]). apply andb_false_r. }
  munfold. unfold query_panel. rewrite bool_decide_true by done.
  cbn [fmap option_fmap option_map]. munfold.
  cbn [negb js_string_of_bool]. by rewrite <- !app_assoc.
Qed.

(** One unfolding of the expanding branch, with the nested call kept. *)
Lemma toggle_expand_unfold f k s t el :
  tabs s !! k = Some t -> aria_expanded t = "false" ->
  multiple (OPTIONS s) = false ->
  query_expanded (tabs s) (others s) = Some el ->
  toggleTabPanel (S f) (ExTab k) s =
  match toggleTabPanel f el s with
  | Done _ s1 =>
    if bool_decide (k < length (panels s))%nat
    then Done tt (toggled k true s1)
    else Fault
  | Fault => Fault
  | OutOfFuel => OutOfFuel
  end.
Proof.
  intros Ht He Hm Hq. mstart s. cbn [toggleTabPanel]. munfold.
  rewrite Ht. munfold. rewrite He. cbn [String.eqb Ascii.eqb Bool.eqb].
  rewrite Hm, Hq. rewrite bool_decide_true by eauto. cbn [negb andb].
  munfold. rewrite ?Hq. munfold.
  destruct (toggleTabPanel f el _) as [[] s1| |]; [|done|done].
  destruct s1 as [? ? ? ? ? ? ? ? ? ?]. unfold toggled, query_panel. munfold.
  case_bool_decide; cbn [fmap option_fmap option_map]; munfold; [|done].
  cbn [negb js_string_of_bool]. by rewrite <- !app_assoc.
Qed.

Lemma toggle_Done f k s s' :
  toggleTabPanel f (ExTab k) s = Done tt s' -> s' = toggle_result k s.
Proof.
  intros Hd. unfold toggle_result. destruct (tabs s !! k) as [t|] eqn:Ht.
  2:{ destruct f; [done|]. mstart s. cbn [toggleTabPanel] in Hd.
      revert Hd. munfold. by rewrite Ht. }
  destruct (String.eqb_spec (aria_expanded t) "false") as [He|He].
  2:{ destruct f as [|f]; [done|].
      destruct (decide (k < length (panels s))%nat) as [Hk|Hk].
      - rewrite (toggle_collapse f k s t) in Hd by done. by injection Hd.
      - exfalso. revert Hd. mstart s. cbn [toggleTabPanel]. munfold.
        rewrite Ht. munfold.
        destruct (String.eqb_spec (aria_expanded t) "false") as [|_]; [done|].
        unfold query_panel. rewrite bool_decide_false by done.
        cbn [fmap option_fmap option_map]. by munfold. }
  destruct f as [|f]; [done|].
  destruct (query_expanded (tabs s) (others s)) as [el|] eqn:Hq.
  2:{ destruct (decide (k < length (panels s))%nat) as [Hk|Hk].
      - rewrite (toggle_expand_alone f k s t) in Hd by auto. by injection Hd.
      - exfalso. revert Hd. mstart s. cbn [toggleTabPanel]. munfold.
        rewrite Ht. munfold. rewrite He. cbn [String.eqb Ascii.eqb Bool.eqb].
        rewrite Hq. rewrite bool_decide_false by (by intros [? ?]).
        rewrite andb_false_r. munfold.
        unfold query_panel. rewrite bool_decide_false by done.
        cbn [fmap option_fmap option_map]. by munfold. }
  destruct (multiple (OPTIONS s)) eqn:Hm.
  { destruct (decide (k < length (panels s))%nat) as [Hk|Hk].
    - rewrite (toggle_expand_alone f k s t) in Hd by auto. by injection Hd.
    - exfalso. revert Hd. mstart s. cbn [toggleTabPanel]. munfold.
      rewrite Ht. munfold. rewrite He. cbn [String.eqb Ascii.eqb Bool.eqb].
      rewrite Hm. cbn [negb andb]. munfold.
      unfold query_panel. rewrite bool_decide_false by done.
      cbn [fmap option_fmap option_map]. by munfold. }
  rewrite (toggle_expand_unfold f k s t el) in Hd by done.
  destruct (toggleTabPanel f el s) as [[] s1| |] eqn:Hin; [|done|done].
  apply nested_collapse_Done in Hin as (-> & _); [|done].
  case_bool_decide; [|done]. by injection Hd.
Qed.

(** Two levels of recursion are all toggleTabPanel ever uses: with fuel for
    them it completes on every heading that has a panel, when the other
    elements the query can return resolve. *)
Lemma resolvable_resolved s g j o :
  resolvable (others s) (controlled s) ->
  lookup_other (others s) g j = Some o -> other_expanded o = "true" ->
  is_Some (resolved s g j).
Proof.
  intros Hr Ho He. destruct (Hr g j o Ho He) as (i & Hc & Hi).
  unfold resolved, query_panel. rewrite Ho, Hc.
  rewrite bool_decide_true by done. eauto.
Qed.

Lemma toggle_total f k s :
  (2 <= f)%nat -> (k < length (tabs s))%nat ->
  (length (tabs s) <= length (panels s))%nat ->
  resolvable (others s) (controlled s) ->
  toggleTabPanel f (ExTab k) s = Done tt (toggle_result k s).
Proof.
  intros Hf Hk Hp Hr. destruct f as [|[|f]]; [lia|lia|].
  unfold toggle_result.
  destruct (lookup_lt_is_Some_2 (tabs s) k Hk) as [t Ht]. rewrite Ht.
  destruct (String.eqb_spec (aria_expanded t) "false") as [He|He].
  - destruct (query_expanded (tabs s) (others s)) as [el|] eqn:Hq.
    + destruct (multiple (OPTIONS s)) eqn:Hm.
      * eapply toggle_expand_alone; eauto. lia.
      * rewrite (toggle_expand_unfold (S f) k s t el) by done.
        rewrite nested_collapse; [|done| |].
        -- rewrite bool_decide_true by lia. done.
        -- intros j ->. apply query_expanded_tab in Hq as (tj & Htj & _).
           apply lookup_lt_Some in Htj. lia.
        -- intros g j ->. apply query_expanded_other in Hq as (o & Ho & Heo).
           by eapply resolvable_resolved.
    + eapply toggle_expand_alone; eauto. lia.
  - eapply toggle_collapse; eauto. lia.
Qed.

(** What toggling leaves alone, and what it does to the expanded flags. *)
Lemma toggled_tab_stop k0 k b s :
  only_tab_stop k0 s -> only_tab_stop k0 (toggled k b s).
Proof.
  intros H j t. unfold toggled. cbn [tabs]. rewrite lookup_alter_case.
  destruct (tabs s !! j) as [t0|] eqn:Hj; cbn; [|done].
  intros [= <-]. specialize (H j t0 Hj).
  destruct (bool_decide (k = j)); cbn; exact H.
Qed.

Lemma toggled_flags k b s :
  expanded_flags (toggled k b s) = <[k := js_string_of_bool b]> (expanded_flags s).
Proof.
  unfold expanded_flags, toggled. cbn [tabs]. rewrite list_insert_alter.
  apply list_fmap_alter, Forall_true. done.
Qed.

(** The nested call leaves the headings alone when it closes one of the
    other elements, and it never touches a tab stop. *)
Lemma nested_closed_other_tabs g j s :
  tabs (nested_closed (ExOther g j) s) = tabs s
  /\ panels (nested_closed (ExOther g j) s) = panels s.
Proof. done. Qed.

Lemma nested_closed_frame el s :
  OPTIONS (nested_closed el s) = OPTIONS s
  /\ length (tabs (nested_closed el s)) = length (tabs s)
  /\ length (panels (nested_closed el s)) = length (panels s)
  /\ currentTabIndex (nested_closed el s) = currentTabIndex s
  /\ currentTab (nested_closed el s) = currentTab s
  /\ lastTabIndex (nested_closed el s) = lastTabIndex s
  /\ activeElement (nested_closed el s) = activeElement s
  /\ length (controlled (nested_closed el s)) = length (controlled s).
Proof.
  destruct el as [k|g j]; cbn; rewrite ?length_alter; done.
Qed.

Lemma nested_closed_tab_stop k0 el s :
  only_tab_stop k0 s -> only_tab_stop k0 (nested_closed el s).
Proof.
  destruct el as [k|g j]; [apply toggled_tab_stop|done].
Qed.

Lemma count_true_app l1 l2 :
  count_true (l1 ++ l2) = (count_true l1 + count_true l2)%nat.
Proof. unfold count_true. by rewrite filter_app, length_app. Qed.

Lemma count_true_insert l k old v :
  l !! k = Some old ->
  (count_true (<[k := v]> l) + (if String.eqb old "true" then 1 else 0)
   = count_true l + (if String.eqb v "true" then 1 else 0))%nat.
Proof.
  intros Hk. unfold count_true.
  rewrite insert_take_drop by (by eapply lookup_lt_Some).
  rewrite <- (take_drop_middle l k old Hk) at 3.
  rewrite !filter_app, !filter_cons, !length_app.
  destruct (String.eqb_spec old "true"), (String.eqb_spec v "true");
    repeat case_decide; try done; cbn [length]; lia.
Qed.

Lemma count_true_zero l :
  Forall (fun e => e <> "true") l -> count_true l = 0%nat.
Proof.
  unfold count_true. induction 1 as [|e l He _ IH]; [done|].
  rewrite filter_cons. by case_decide.
Qed.

(** Looking up an other element after one of them was written. *)
Lemma lookup_other_alter f oss g j g' j' :
  lookup_other (alter (alter f j) g oss) g' j'
  = (if bool_decide (g = g' /\ j = j') then f else id) <$> lookup_other oss g' j'.
Proof.
  unfold lookup_other. rewrite lookup_alter_case.
  destruct (oss !! g') as [os|]; cbn; [|done].
  case_bool_decide as Hg; cbn.
  - subst g'. rewrite lookup_alter_case.
    destruct (os !! j'); cbn; [|done].
    repeat case_bool_decide; naive_solver.
  - rewrite bool_decide_false by naive_solver. by destruct (os !! j').
Qed.

(** Closing an other element that was expanded removes one from the number
    of expanded ones. *)
Lemma other_flags_closed oss g j o :
  lookup_other oss g j = Some o -> other_expanded o = "true" ->
  (count_true (other_flags
     (alter (alter (fun o => mkOther "false" (other_controls o)) j) g oss)) + 1
   = count_true (other_flags oss))%nat.
Proof.
  unfold other_flags, lookup_other.
  revert g. induction oss as [|os oss IH]; intros g Ho He; [by destruct g|].
  destruct g as [|g]; cbn in Ho; cbn [alter list_alter concat].
  - rewrite !fmap_app, !count_true_app.
    pose proof (count_true_insert (other_expanded <$> os) j "true" "false") as H.
    rewrite list_lookup_fmap, Ho in H. cbn in H. specialize (H (f_equal _ He)).
    assert (other_expanded <$> alter (fun o => mkOther "false" (other_controls o)) j os
            = <[j := "false"]> (other_expanded <$> os)) as ->.
    { rewrite list_insert_alter. by apply list_fmap_alter, Forall_true. }
    lia.
  - rewrite !fmap_app, !count_true_app. specialize (IH g Ho He). lia.
Qed.

Lemma others_count_closed g j i s o :
  lookup_other (others s) g j = Some o -> other_expanded o = "true" ->
  (others_count (other_closed g j i s) + 1 = others_count s)%nat.
Proof. apply other_flags_closed. Qed.

Lemma query_expanded_None_count s :
  query_expanded (tabs s) (others s) = None ->
  expanded_count s = 0%nat /\ others_count s = 0%nat.
Proof.
  intros [H1 H2]%query_expanded_None. split.
  - apply count_true_zero. unfold expanded_flags. by apply Forall_fmap.
  - apply count_true_zero. unfold other_flags. apply Forall_fmap.
    apply Forall_concat. eapply Forall_impl; [exact H2|].
    intros os Hos. eapply Forall_impl; [exact Hos|]. done.
Qed.

Lemma flags_lookup s k t :
  tabs s !! k = Some t -> expanded_flags s !! k = Some (aria_expanded t).
Proof. intros H. unfold expanded_flags. by rewrite list_lookup_fmap, H. Qed.

(** The nested call closes one element that matched the query. *)
Lemma nested_closed_count el s :
  query_expanded (tabs s) (others s) = Some el ->
  (matching_count (nested_closed el s) + 1 = matching_count s)%nat
  /\ (forall k t, el <> ExTab k -> tabs s !! k = Some t ->
        expanded_flags (nested_closed el s) !! k = Some (aria_expanded t)).
Proof.
  intros Hq. unfold matching_count. destruct el as [j|g j]; cbn [nested_closed].
  - apply query_expanded_tab in Hq as (tj & Htj & Hej).
    pose proof (flags_lookup _ _ _ Htj) as Hfj.
    pose proof (count_true_insert _ _ _ "false" Hfj) as H1.
    rewrite Hej in H1. cbn in H1. split.
    + unfold expanded_count. rewrite toggled_flags. cbn [js_string_of_bool].
      unfold count_true in *.
      change (others_count (toggled j false s)) with (others_count s). lia.
    + intros k t Hk Ht. rewrite toggled_flags.
      rewrite list_lookup_insert_ne by congruence. by apply flags_lookup.
  - apply query_expanded_other in Hq as (o & Ho & He).
    pose proof (others_count_closed g j (default 0%nat (resolved s g j)) s o Ho He).
    split.
    + change (expanded_count (other_closed g j (default 0%nat (resolved s g j)) s))
        with (expanded_count s). lia.
    + intros k t _ Ht. by apply flags_lookup.
Qed.

(** With [multiple] off, toggling never raises the number of elements that
    match the query above one, and never raises it once it is at least
    one. *)
Lemma toggle_result_bound k s :
  multiple (OPTIONS s) = false ->
  (matching_count (toggle_result k s) <= Nat.max (matching_count s) 1)%nat
  /\ ((1 <= matching_count s)%nat ->
      (matching_count (toggle_result k s) <= matching_count s)%nat).
Proof.
  intros Hm. unfold toggle_result.
  destruct (tabs s !! k) as [t|] eqn:Ht; [|lia].
  pose proof (flags_lookup _ _ _ Ht) as Hfk.
  destruct (String.eqb_spec (aria_expanded t) "false") as [He|He].
  - destruct (query_expanded (tabs s) (others s)) as [el|] eqn:Hq.
    + rewrite Hm.
      destruct (nested_closed_count el s Hq) as [H1 H2].
      assert (el <> ExTab k) as Hne.
      { intros ->. apply query_expanded_tab in Hq as (t' & Ht' & He').
        congruence. }
      specialize (H2 k t Hne Ht). rewrite He in H2.
      pose proof (count_true_insert _ _ _ "true" H2) as H3. cbn in H3.
      unfold matching_count, expanded_count in *. rewrite toggled_flags.
      cbn [js_string_of_bool].
      change (others_count (toggled k true (nested_closed el s)))
        with (others_count (nested_closed el s)).
      unfold count_true in *. lia.
    + destruct (query_expanded_None_count _ Hq) as [H0 H0'].
      pose proof (count_true_insert _ _ _ "true" Hfk) as H2.
      rewrite He in H2. cbn in H2.
      unfold matching_count, expanded_count in *. rewrite toggled_flags.
      cbn [js_string_of_bool].
      change (others_count (toggled k true s)) with (others_count s).
      unfold count_true in *. lia.
  - pose proof (count_true_insert _ _ _ "false" Hfk) as H2.
    unfold matching_count, expanded_count in *. rewrite toggled_flags.
    cbn [js_string_of_bool].
    change (others_count (toggled k false s)) with (others_count s).
    unfold count_true in *. cbn in H2.
    destruct (String.eqb (aria_expanded t) "true"); lia.
Qed.

Lemma toggle_result_count k s :
  multiple (OPTIONS s) = false ->
  (matching_count s <= 1)%nat -> (matching_count (toggle_result k s) <= 1)%nat.
Proof. intros Hm Hc. destruct (toggle_result_bound k s Hm). lia. Qed.

(** Toggling writes the string false, and nothing else, to the other
    elements: none of them becomes expanded, and those that can be returned
    by the query keep resolving. *)
Lemma nested_closed_others el s g j o :
  lookup_other (others (nested_closed el s)) g j = Some o ->
  exists o0, lookup_other (others s) g j = Some o0
    /\ other_controls o = other_controls o0
    /\ (other_expanded o = other_expanded o0 \/ other_expanded o = "false").
Proof.
  destruct el as [k|g0 j0]; cbn [nested_closed].
  - intros H. exists o. auto.
  - cbn [other_closed others]. rewrite lookup_other_alter.
    destruct (lookup_other (others s) g j) as [o0|]; cbn; [|done].
    intros [= <-]. exists o0. split; [done|].
    case_bool_decide; cbn; auto.
Qed.

Lemma toggle_result_others k s g j o :
  lookup_other (others (toggle_result k s)) g j = Some o ->
  exists o0, lookup_other (others s) g j = Some o0
    /\ other_controls o = other_controls o0
    /\ (other_expanded o = other_expanded o0 \/ other_expanded o = "false").
Proof.
  unfold toggle_result.
  destruct (tabs s !! k); [|by eauto].
  destruct (String.eqb _ _); [|by eauto].
  destruct (query_expanded _ _) as [el|]; [|by eauto].
  destruct (multiple _); [by eauto|].
  apply (nested_closed_others el s).
Qed.

Lemma toggle_result_controlled k s :
  length (controlled (toggle_result k s)) = length (controlled s).
Proof.
  unfold toggle_result.
  destruct (tabs s !! k); [|done].
  destruct (String.eqb _ _); [|done].
  destruct (query_expanded _ _) as [el|]; [|done].
  destruct (multiple _); [done|].
  cbn. apply nested_closed_frame.
Qed.

Section Invariant.
Variable KEYS : KeyCodes.
Variable fuel : nat.
Variable m : Markup.

Lemma Inv_init : markup_tabs m <> [] -> Inv m (accordion m).
Proof.
  intros Hne. unfold accordion.
  assert (0 < length (markup_tabs m))%nat as Hlen
    by (destruct (markup_tabs m); [done | cbn; lia]).
  split; cbn [OPTIONS tabs panels currentTabIndex currentTab lastTabIndex];
    rewrite ?length_imap; try done.
  exists 0%nat. split; [done|]. split.
  { apply (array_ref_in_range _ 0). by rewrite length_imap. }
  split; [done|].
  intros j t. cbn [tabs]. rewrite list_lookup_imap.
  destruct (markup_tabs m !! j); cbn; [|done]. intros [= <-]. cbn.
  destruct j; by cbn.
Qed.

Lemma Inv_moved s pd i k :
  Inv m s -> currentTab s = Some k -> 0 <= i <= lastTabIndex s ->
  Inv m (refocused k (Z.to_nat i) (moved pd i s)).
Proof.
  intros [Ho Ht Hp Hl (k0 & Hi & Hc & Hk & Hs)] Hck Hr.
  rewrite Hc in Hck. injection Hck as ->.
  assert (only_tab_stop (Z.to_nat i) (refocused k (Z.to_nat i) (moved pd i s)))
    as Hts.
  { apply refocused_tab_stop. intros j t. destruct pd; apply Hs. }
  split; [destruct pd; cbn; rewrite ?length_alter; done ..|].
  exists (Z.to_nat i). split; [destruct pd; cbn; lia|].
  split; [done|]. split; [lia|done].
Qed.

Lemma nav_step s pd i s' :
  Inv m s -> 0 <= i <= lastTabIndex s ->
  updateFocusState (moved pd i s) = Done tt s' ->
  exists k, currentTab s = Some k
       /\ s' = refocused k (Z.to_nat i) (moved pd i s).
Proof.
  intros HI Hr. destruct (HI) as [_ Ht _ Hl (k & _ & Hc & _ & _)].
  rewrite (updateFocusState_eq _ k (Z.to_nat i)).
  - intros [= <-]. eauto.
  - by destruct pd.
  - replace (currentTabIndex (moved pd i s)) with (Z.of_nat (Z.to_nat i))
      by (destruct pd; cbn; lia).
    apply array_ref_in_range. destruct pd; cbn; lia.
Qed.

Lemma nav_total s pd i :
  Inv m s -> 0 <= i <= lastTabIndex s ->
  exists k, currentTab s = Some k /\
    updateFocusState (moved pd i s) =
      Done tt (refocused k (Z.to_nat i) (moved pd i s)).
Proof.
  intros HI Hr. destruct (HI) as [_ Ht _ Hl (k & _ & Hc & _ & _)].
  exists k. split; [done|]. apply updateFocusState_eq.
  - by destruct pd.
  - replace (currentTabIndex (moved pd i s)) with (Z.of_nat (Z.to_nat i))
      by (destruct pd; cbn; lia).
    apply array_ref_in_range. destruct pd; cbn; lia.
Qed.

Lemma Inv_toggled s k b : Inv m s -> Inv m (toggled k b s).
Proof.
  intros [Ho Ht Hp Hl (k0 & Hi & Hc & Hk & Hs)].
  split; unfold toggled;
    cbn [OPTIONS tabs panels currentTabIndex currentTab lastTabIndex];
    rewrite ?length_alter; try done.
  exists k0. repeat split; try done. by apply (toggled_tab_stop k0 k b s).
Qed.

Lemma Inv_nested_closed s el : Inv m s -> Inv m (nested_closed el s).
Proof.
  intros HI. destruct el as [j|g j]; [by apply Inv_toggled|].
  destruct HI as [Ho Ht Hp Hl Hc]. by split.
Qed.

Lemma Inv_toggle_result s k : Inv m s -> Inv m (toggle_result k s).
Proof.
  intros HI. unfold toggle_result.
  destruct (tabs s !! k); [|done].
  destruct (String.eqb _ _); [|by apply Inv_toggled].
  destruct (query_expanded _ _); [|by apply Inv_toggled].
  destruct (multiple _); [by apply Inv_toggled|].
  by apply Inv_toggled, Inv_nested_closed.
Qed.

Lemma Inv_prevented s : Inv m s -> Inv m (prevented s).
Proof. by intros []. Qed.

Lemma keydown_eq target which s :
  keydown KEYS fuel target which s =
  if role_is_tab target then
    if (which =? left KEYS) || (which =? up KEYS)
    then updateFocusState (moved true (prev_index s) s)
    else if (which =? right KEYS) || (which =? down KEYS)
    then updateFocusState (moved true (next_index s) s)
    else if which =? end_ KEYS
    then updateFocusState (moved true (lastTabIndex s) s)
    else if which =? home KEYS
    then updateFocusState (moved false 0 s)
    else if (which =? enter KEYS) || (which =? space KEYS)
    then match currentTab s with
         | Some k => toggleTabPanel fuel (ExTab k) (prevented s)
         | None => Fault
         end
    else Done tt s
  else Done tt s.
Proof.
  mstart s. unfold keydown, prev_index, next_index, moved, prevented.
  destruct (role_is_tab target); [|done].
  repeat (destruct (_ || _) || destruct (_ =? _ KEYS)); munfold; try done.
  - by destruct (wrapFocus s_opts).
  - by destruct (wrapFocus s_opts).
  - by destruct s_cur.
Qed.

Lemma mousedown_eq target s :
  mousedown fuel target s =
  if role_is_tab target then
    match updateFocusState (moved false (indexOf (tabs s) target) s) with
    | Done _ s1 =>
      match currentTab s1 with
      | Some k => toggleTabPanel fuel (ExTab k) s1
      | None => Fault
      end
    | Fault => Fault
    | OutOfFuel => OutOfFuel
    end
  else Done tt s.
Proof.
  mstart s. unfold mousedown, moved. destruct (role_is_tab target); [|done].
  munfold.
  by destruct (updateFocusState _) as [[] [? ? ? ? [?|] ? ? ? ? ?]| |].
Qed.

Lemma prev_index_range s : Inv m s -> 0 <= prev_index s <= lastTabIndex s.
Proof.
  intros [_ _ _ Hl (k & Hi & _ & Hk & _)]. unfold prev_index.
  destruct (wrapFocus _); destruct (Z.eqb_spec (currentTabIndex s) 0); lia.
Qed.

Lemma next_index_range s : Inv m s -> 0 <= next_index s <= lastTabIndex s.
Proof.
  intros [_ _ _ Hl (k & Hi & _ & Hk & _)]. unfold next_index.
  destruct (wrapFocus _);
    destruct (Z.eqb_spec (currentTabIndex s) (lastTabIndex s)); lia.
Qed.

Lemma last_index_range s : Inv m s -> 0 <= lastTabIndex s <= lastTabIndex s.
Proof. intros [_ _ _ Hl (k & Hi & _ & Hk & _)]. lia. Qed.

Lemma zero_index_range s : Inv m s -> 0 <= 0 <= lastTabIndex s.
Proof. intros [_ _ _ Hl (k & Hi & _ & Hk & _)]. lia. Qed.

(** Every completed handler is one of the four changes. *)
Lemma handle_handled s i s' :
  Inv m s -> handle KEYS fuel i s = Done tt s' -> handled s s'.
Proof.
  intros HI. destruct i as [target which|target]; cbn [handle].
  - rewrite keydown_eq.
    destruct (role_is_tab target); [|intros [= <-]; constructor].
    destruct ((which =? left KEYS) || (which =? up KEYS)).
    { intros (k & Hk & ->)%nav_step; [|done|by apply prev_index_range].
      constructor; [by apply prev_index_range|done]. }
    destruct ((which =? right KEYS) || (which =? down KEYS)).
    { intros (k & Hk & ->)%nav_step; [|done|by apply next_index_range].
      constructor; [by apply next_index_range|done]. }
    destruct (which =? end_ KEYS).
    { intros (k & Hk & ->)%nav_step; [|done|by apply last_index_range].
      constructor; [by apply last_index_range|done]. }
    destruct (which =? home KEYS).
    { intros (k & Hk & ->)%nav_step; [|done|by apply zero_index_range].
      constructor; [by apply zero_index_range|done]. }
    destruct ((which =? enter KEYS) || (which =? space KEYS)).
    { destruct (currentTab s) as [k|] eqn:Hk; [|done].
      intros ->%toggle_Done. by constructor. }
    intros [= <-]. constructor.
  - rewrite mousedown_eq.
    destruct target as [h|]; cbn [role_is_tab indexOf];
      [|intros [= <-]; constructor].
    case_bool_decide as Hh.
    + destruct (updateFocusState _) as [[] s1| |] eqn:Hu; [|done|done].
      apply nav_step in Hu as (k & Hk & ->); [|done|].
      2:{ destruct HI as [_ Ht _ Hl _]. lia. }
      cbn [currentTab refocused]. rewrite Nat2Z.id.
      intros ->%toggle_Done. by constructor.
    + rewrite updateFocusState_fault_undefined; [done|].
      cbn. unfold array_ref. cbn. done.
Qed.

Lemma refocused_moved_flags k n pd i s :
  expanded_flags (refocused k n (moved pd i s)) = expanded_flags s.
Proof. rewrite refocused_flags. by destruct pd. Qed.

Lemma handled_Inv s s' : Inv m s -> handled s s' -> Inv m s'.
Proof.
  intros HI [].
  - done.
  - by apply Inv_moved.
  - by apply Inv_toggle_result, Inv_prevented.
  - apply Inv_toggle_result. rewrite <- (Nat2Z.id h) at 1.
    apply Inv_moved; [done..|]. destruct HI as [_ Ht _ Hl _]. lia.
Qed.

Lemma refocused_moved_matching k n pd i s :
  matching_count (refocused k n (moved pd i s)) = matching_count s.
Proof.
  unfold matching_count, expanded_count. rewrite refocused_moved_flags.
  by destruct pd.
Qed.

Lemma handled_count s s' :
  multiple (OPTIONS s) = false -> handled s s' ->
  (matching_count s <= 1)%nat -> (matching_count s' <= 1)%nat.
Proof.
  intros Hm [] Hc.
  - done.
  - by rewrite refocused_moved_matching.
  - by apply toggle_result_count.
  - apply toggle_result_count; [done|]. by rewrite refocused_moved_matching.
Qed.

(** The other elements that the query can return keep resolving. *)
Lemma handled_resolvable s s' :
  handled s s' -> resolvable (others s) (controlled s) ->
  resolvable (others s') (controlled s').
Proof.
  assert (forall k s0, resolvable (others s0) (controlled s0) ->
            resolvable (others (toggle_result k s0))
                       (controlled (toggle_result k s0))) as Htog.
  { intros k s0 Hr g j o Ho He. rewrite toggle_result_controlled.
    apply toggle_result_others in Ho as (o0 & Ho0 & Hc & [Hx|Hx]).
    - rewrite Hc. apply (Hr g j o0 Ho0). congruence.
    - congruence. }
  intros [] Hr.
  - done.
  - by destruct pd.
  - by apply Htog.
  - by apply Htog.
Qed.



Lemma reachable_Inv s : markup_tabs m <> [] -> reachable KEYS fuel m s -> Inv m s.
Proof.
  intros Hne. induction 1 as [|s i s' _ IH Hs].
  - by apply Inv_init.
  - eapply handled_Inv; [done|]. by eapply handle_handled.
Qed.

(** An accordion without headings never leaves its initial state. *)
Lemma updateFocusState_fault_no_current s :
  currentTab s = None -> updateFocusState s = Fault.
Proof.
  intros H. mstart s. unfold updateFocusState. munfold. by rewrite H.
Qed.

Lemma handle_no_current s i s' :
  currentTab s = None -> handle KEYS fuel i s = Done tt s' -> s' = s.
Proof.
  intros Hc. destruct i as [target which|target]; cbn [handle].
  - rewrite keydown_eq, Hc.
    rewrite !updateFocusState_fault_no_current by (by destruct s).
    repeat (destruct (_ || _) || destruct (_ =? _ KEYS)
            || destruct (role_is_tab _)); congruence.
  - rewrite mousedown_eq.
    rewrite updateFocusState_fault_no_current by (by destruct s).
    destruct (role_is_tab _); congruence.
Qed.

Lemma reachable_no_headings s :
  markup_tabs m = [] -> reachable KEYS fuel m s -> s = accordion m.
Proof.
  intros He. induction 1 as [|s i s' _ IH Hs]; [done|]. subst s.
  eapply handle_no_current; [|done]. unfold accordion. by rewrite He.
Qed.

Lemma reachable_resolvable s :
  resolvable (markup_others m) (markup_controlled m) ->
  reachable KEYS fuel m s -> resolvable (others s) (controlled s).
Proof.
  intros Hm Hr.
  destruct (decide (markup_tabs m = [])) as [Hnil|Hne].
  { by rewrite (reachable_no_headings _ Hnil Hr). }
  induction Hr as [|s i s' Hr IH Hs]; [done|].
  eapply handled_resolvable; [|done].
  eapply handle_handled; [|done]. by apply reachable_Inv.
Qed.

(** No element under the root but the headings carries the attribute with
    the string true. *)
Definition only_headings_expand (oss : list (list Other)) : Prop :=
  Forall (Forall (fun o => other_expanded o <> "true")) oss.

Lemma only_headings_count oss :
  only_headings_expand oss -> count_true (other_flags oss) = 0%nat.
Proof.
  intros H. apply count_true_zero. unfold other_flags. apply Forall_fmap.
  apply Forall_concat. eapply Forall_impl; [exact H|].
  intros os Hos. eapply Forall_impl; [exact Hos|]. done.
Qed.

Lemma only_headings_resolvable oss cs :
  only_headings_expand oss -> resolvable oss cs.
Proof.
  intros H g j o Ho He. exfalso. unfold lookup_other in Ho.
  destruct (oss !! g) as [os|] eqn:Hg; [|done].
  eapply Forall_lookup_1 in H; [|exact Hg].
  eapply Forall_lookup_1 in H; [|exact Ho]. done.
Qed.

Lemma reachable_matching s :
  has_multiple m = false -> has_expanded m = false ->
  only_headings_expand (markup_others m) ->
  reachable KEYS fuel m s -> (matching_count s <= 1)%nat.
Proof.
  intros Hm He Ho Hr.
  assert (matching_count (accordion m) = 0%nat) as H0.
  { unfold matching_count, others_count. cbn [others accordion].
    rewrite (only_headings_count _ Ho), Nat.add_0_r.
    apply count_true_zero. unfold expanded_flags, accordion. cbn [tabs].
    rewrite He. apply Forall_fmap, Forall_forall.
    intros t (j & u & -> & _)%elem_of_lookup_imap_1. done. }
  destruct (decide (markup_tabs m = [])) as [Hnil|Hne].
  { rewrite (reachable_no_headings _ Hnil Hr). lia. }
  induction Hr as [|s i s' Hr IH Hs]; [lia|].
  pose proof (reachable_Inv _ Hne Hr) as HI.
  eapply handled_count; [|by eapply handle_handled|done].
  destruct HI as [-> _ _ _ _]. done.
Qed.

Lemma reachable_count s :
  has_multiple m = false -> has_expanded m = false ->
  only_headings_expand (markup_others m) ->
  reachable KEYS fuel m s -> (expanded_count s <= 1)%nat.
Proof.
  intros Hm He Ho Hr. pose proof (reachable_matching s Hm He Ho Hr).
  unfold matching_count in *. lia.
Qed.

(** With fuel for two levels and a panel for every heading, a handler
    completes on every input of the markup contract. *)
Lemma handle_total s i :
  (2 <= fuel)%nat -> markup_tabs m <> [] ->
  (length (markup_tabs m) <= length (markup_panels m))%nat ->
  resolvable (markup_others m) (markup_controlled m) ->
  reachable KEYS fuel m s -> valid_input m i ->
  exists s', handle KEYS fuel i s = Done tt s'.
Proof.
  intros Hf Hne Hp Hres Hr Hv. pose proof (reachable_Inv _ Hne Hr) as HI.
  pose proof (reachable_resolvable s Hres Hr) as Hrs.
  assert (forall s0 k, Inv m s0 -> currentTab s0 = Some k ->
            resolvable (others s0) (controlled s0) ->
            exists s', toggleTabPanel fuel (ExTab k) s0 = Done tt s') as Htog.
  { intros s0 k [_ Ht0 Hp0 _ (k0 & _ & Hc0 & Hk0 & _)] Hk Hr0. eexists.
    apply toggle_total; [done|congruence|lia|done]. }
  destruct i as [target which|target]; cbn [handle].
  - rewrite keydown_eq. destruct (role_is_tab target); [|eauto].
    destruct ((which =? left KEYS) || (which =? up KEYS)).
    { destruct (nav_total s true (prev_index s) HI (prev_index_range s HI))
        as (k & _ & ->). eauto. }
    destruct ((which =? right KEYS) || (which =? down KEYS)).
    { destruct (nav_total s true (next_index s) HI (next_index_range s HI))
        as (k & _ & ->). eauto. }
    destruct (which =? end_ KEYS).
    { destruct (nav_total s true (lastTabIndex s) HI (last_index_range s HI))
        as (k & _ & ->). eauto. }
    destruct (which =? home KEYS).
    { destruct (nav_total s false 0 HI (zero_index_range s HI))
        as (k & _ & ->). eauto. }
    destruct ((which =? enter KEYS) || (which =? space KEYS)); [|eauto].
    destruct (HI) as [_ _ _ _ (k & _ & Hc & _ & _)]. rewrite Hc.
    apply Htog; [by apply Inv_prevented|done|done].
  - rewrite mousedown_eq. destruct target as [h|]; cbn [role_is_tab]; [|eauto].
    cbn in Hv. cbn [indexOf].
    assert (h < length (tabs s))%nat as Hh by (destruct HI; lia).
    rewrite bool_decide_true by done.
    assert (0 <= Z.of_nat h <= lastTabIndex s) as Hrange by (destruct HI; lia).
    destruct (nav_total s false (Z.of_nat h) HI Hrange) as (k & Hk & ->).
    cbn [currentTab refocused]. apply Htog; [|done|done].
    by apply Inv_moved.
Qed.

End Invariant.

(** The usual DOM key codes, and a three-heading accordion, for examples. *)
Definition dom_keys : KeyCodes := mkKeys 37 38 39 40 35 36 13 32.

Definition three_headings (e mu w : bool) : Markup :=
  mkMarkup e mu w (replicate 3 (mkTab "" "" "")) (replicate 3 (mkPanel ""))
           [] [].

Definition completed {A} (o : Outcome A) : option A :=
  match o with Done a _ => Some a | _ => None end.

(** C5. In every state an accordion with at least one heading passes
    through between handlers, exactly one heading carries the tab stop
    (tabindex 0, all the others -1), and it is the heading at
    currentTabIndex, whatever other elements the root contains; and every
    handler completes on the inputs of the markup contract when every
    heading has a panel and every other element the query of line 218 can
    return names an element by its aria-controls. *)
Theorem roving_tab_stop KEYS fuel m s :
  markup_tabs m <> [] -> reachable KEYS fuel m s ->
  (exists k, currentTabIndex s = Z.of_nat k
        /\ (k < length (tabs s))%nat
        /\ length (tabs s) = length (markup_tabs m)
        /\ forall j t, tabs s !! j = Some t ->
             tabindex t = if bool_decide (j = k) then "0" else "-1")
  /\ ((2 <= fuel)%nat ->
      (length (markup_tabs m) <= length (markup_panels m))%nat ->
      resolvable (markup_others m) (markup_controlled m) ->
      forall i, valid_input m i -> exists s', handle KEYS fuel i s = Done tt s').
Proof.
  intros Hne Hr. split.
  - destruct (reachable_Inv KEYS fuel m s Hne Hr)
      as [_ Ht _ _ (k & Hi & _ & Hk & Hs)].
    exists k. repeat split; try done. lia.
  - intros Hf Hp Hres i Hv. by eapply handle_total.
Qed.

Lemma reachable_after_click KEYS m h s :
  handle KEYS 2 (Mousedown (Heading h)) (accordion m) = Done tt s ->
  reachable KEYS 2 m s.
Proof. intros H. eapply reachable_step; [apply reachable_init|exact H]. Qed.

(** The state of the three-heading accordion after a pointer-down on its
    second heading. *)
Definition second_clicked : State :=
  toggle_result 1
    (refocused 0 1 (moved false 1 (accordion (three_headings false false false)))).

Lemma second_clicked_reachable :
  reachable dom_keys 2 (three_headings false false false) second_clicked.
Proof. apply (reachable_after_click _ _ 1). vm_compute. reflexivity. Qed.

Lemma roving_tab_stop_witness :
  markup_tabs (three_headings false false false) <> [] /\
  reachable dom_keys 2 (three_headings false false false) second_clicked /\
  ((exists k, currentTabIndex second_clicked = Z.of_nat k
        /\ (k < length (tabs second_clicked))%nat
        /\ length (tabs second_clicked)
           = length (markup_tabs (three_headings false false false))
        /\ forall j t, tabs second_clicked !! j = Some t ->
             tabindex t = if bool_decide (j = k) then "0" else "-1")
   /\ ((2 <= 2)%nat ->
       (length (markup_tabs (three_headings false false false))
        <= length (markup_panels (three_headings false false false)))%nat ->
       resolvable (markup_others (three_headings false false false))
                  (markup_controlled (three_headings false false false)) ->
       forall i, valid_input (three_headings false false false) i ->
         exists s', handle dom_keys 2 i second_clicked = Done tt s')).
Proof.
  assert (markup_tabs (three_headings false false false) <> []) as H1
    by discriminate.
  pose proof second_clicked_reachable as H2.
  exact (conj H1 (conj H2 (roving_tab_stop _ _ _ _ H1 H2))).
Defined.

(** A three-heading accordion whose first panel holds two disclosure
    buttons, both open: elements without the tab role that carry
    aria-expanded and name the region they control. *)
Definition with_disclosures : Markup :=
  mkMarkup false false false
           (replicate 3 (mkTab "" "" "")) (replicate 3 (mkPanel ""))
           [[]; [mkOther "true" (Resolves (Some 0%nat));
                 mkOther "true" (Resolves (Some 1%nat))]]
           [mkPanel "false"; mkPanel "false"].

(** C2, as stated, fails, in two ways. In an accordion without [multiple]
    whose container carries [expanded], all three panels start expanded, and
    after a pointer-down on the first heading two of them still are. And in
    an accordion without [multiple] and [expanded] whose root contains two
    other elements with aria-expanded true, each activation closes one of
    those instead of the open heading: after a pointer-down on the third
    heading and one on the first, two panels are expanded. *)
Lemma two_panels_stay_expanded :
  (has_multiple (three_headings true false false) = false /\
   (fun states : list State => expanded_count <$> states)
     <$> completed (run dom_keys 2 [Mousedown (Heading 0)]
                      (accordion (three_headings true false false)))
   = Some [2%nat])
  /\ (has_multiple with_disclosures = false /\
      (fun states : list State => expanded_count <$> states)
        <$> completed (run dom_keys 2 [Mousedown (Heading 2); Mousedown (Heading 0)]
                         (accordion with_disclosures))
      = Some [1%nat; 2%nat]).
Proof.
  split; (split; [reflexivity|]); vm_compute; reflexivity.
Qed.

(** C2, amended. In an accordion whose container carries neither [multiple]
    nor [expanded] (all panels start collapsed) and whose root contains no
    element with aria-expanded true besides the headings, at most one panel
    is expanded in every state between handlers, whatever the inputs were;
    expanding a collapsed heading while another one is expanded first
    collapses that one (its three steps come first in the trace) and then
    expands the heading; and the handlers complete on the inputs of the
    markup contract. *)
Theorem at_most_one_expanded KEYS fuel m :
  has_multiple m = false -> has_expanded m = false ->
  only_headings_expand (markup_others m) ->
  (forall s, reachable KEYS fuel m s -> (expanded_count s <= 1)%nat)
  /\ (forall s k t j s',
        reachable KEYS fuel m s ->
        tabs s !! k = Some t -> aria_expanded t = "false" ->
        query_expanded (tabs s) (others s) = Some (ExTab j) ->
        toggleTabPanel fuel (ExTab k) s = Done tt s' ->
        trace s' = (trace s ++
          [SetAttribute (TabEl j) "aria-expanded" "false";
           SetAttribute (PanelEl j) "aria-hidden" "true";
           DispatchEvent "accordion-collapsed" true (TabEl j);
           SetAttribute (TabEl k) "aria-expanded" "true";
           SetAttribute (PanelEl k) "aria-hidden" "false";
           DispatchEvent "accordion-expanded" true (TabEl k)])%list
        /\ expanded_flags s' = <[k := "true"]> (<[j := "false"]> (expanded_flags s)))
  /\ (forall s k t, reachable KEYS fuel m s ->
        tabs s !! k = Some t -> aria_expanded t = "false" ->
        (1 <= expanded_count s)%nat ->
        exists j, query_expanded (tabs s) (others s) = Some (ExTab j))
  /\ ((2 <= fuel)%nat -> markup_tabs m <> [] ->
      (length (markup_tabs m) <= length (markup_panels m))%nat ->
      forall s i, reachable KEYS fuel m s -> valid_input m i ->
        exists s', handle KEYS fuel i s = Done tt s').
Proof.
  intros Hm He Ho. split; [|split; [|split]].
  - intros s Hr. by eapply reachable_count.
  - intros s k t j s' Hr Ht Hf Hq ->%toggle_Done.
    assert (multiple (OPTIONS s) = false) as Hms.
    { destruct (decide (markup_tabs m = [])) as [Hnil|Hne].
      - by rewrite (reachable_no_headings _ _ _ _ Hnil Hr).
      - by destruct (reachable_Inv _ _ _ _ Hne Hr) as [-> _ _ _ _]. }
    unfold toggle_result. rewrite Ht, Hf, Hq, Hms. cbn [String.eqb Ascii.eqb Bool.eqb].
    cbn [nested_closed]. split.
    + cbn. by rewrite <- app_assoc.
    + by rewrite !toggled_flags.
  - intros s k t Hr Ht Hf Hc.
    destruct (query_expanded (tabs s) (others s)) as [[j|g j]|] eqn:Hq.
    + eauto.
    + exfalso. apply query_expanded_other in Hq as (o & Hol & Heo).
      pose proof (reachable_matching _ _ _ s Hm He Ho Hr) as Hmc.
      pose proof (other_flags_closed _ _ _ _ Hol Heo) as Hcl.
      unfold matching_count, others_count in Hmc. lia.
    + apply query_expanded_None_count in Hq as [Hq _]. lia.
  - intros Hf Hne Hp s i Hr Hv. eapply handle_total; eauto.
    by apply only_headings_resolvable.
Qed.

Lemma at_most_one_expanded_witness :
  has_multiple (three_headings false false false) = false /\
  has_expanded (three_headings false false false) = false /\
  only_headings_expand (markup_others (three_headings false false false)) /\
  (expanded_count second_clicked <= 1)%nat.
Proof.
  assert (has_multiple (three_headings false false false) = false) as H1
    by reflexivity.
  assert (has_expanded (three_headings false false false) = false) as H2
    by reflexivity.
  assert (only_headings_expand (markup_others (three_headings false false false)))
    as H3 by constructor.
  exact (conj H1 (conj H2 (conj H3
    (proj1 (at_most_one_expanded dom_keys 2 _ H1 H2 H3) _
       second_clicked_reachable)))).
Defined.

(** C4. In an accordion with N >= 1 headings, for a keydown on a heading:
    with wrap-focus a previous command (left or up arrow) at index 0 moves
    currentTabIndex to N-1 and a next command (right or down arrow) at index
    N-1 moves it to 0; without wrap-focus previous at 0 stays at 0 and next
    at N-1 stays at N-1. *)
Theorem wrap_or_clamp KEYS fuel m s target which :
  markup_tabs m <> [] -> reachable KEYS fuel m s -> role_is_tab target = true ->
  (which = left KEYS \/ which = up KEYS ->
   currentTabIndex s = 0 ->
   exists s', keydown KEYS fuel target which s = Done tt s'
         /\ currentTabIndex s' =
            if has_wrap_focus m then Z.of_nat (length (markup_tabs m)) - 1 else 0)
  /\ (which <> left KEYS -> which <> up KEYS ->
      which = right KEYS \/ which = down KEYS ->
      currentTabIndex s = Z.of_nat (length (markup_tabs m)) - 1 ->
      exists s', keydown KEYS fuel target which s = Done tt s'
            /\ currentTabIndex s' =
               if has_wrap_focus m then 0 else Z.of_nat (length (markup_tabs m)) - 1).
Proof.
  intros Hne Hr Htab. pose proof (reachable_Inv _ _ _ _ Hne Hr) as HI.
  destruct (HI) as [Ho _ _ Hl _].
  split.
  - intros Hw H0. rewrite keydown_eq, Htab.
    assert ((which =? left KEYS) || (which =? up KEYS) = true) as ->.
    { destruct Hw as [-> | ->]; rewrite Z.eqb_refl; [done|apply orb_true_r]. }
    destruct (nav_total m s true (prev_index s) HI
                (prev_index_range m s HI)) as (k & _ & ->).
    eexists. split; [done|]. cbn. unfold prev_index.
    rewrite Ho, H0, Hl. cbn. by destruct (has_wrap_focus m).
  - intros Hnl Hnu Hw Hlast. rewrite keydown_eq, Htab.
    assert ((which =? left KEYS) || (which =? up KEYS) = false) as ->.
    { apply orb_false_iff. split; by apply Z.eqb_neq. }
    assert ((which =? right KEYS) || (which =? down KEYS) = true) as ->.
    { destruct Hw as [-> | ->]; rewrite Z.eqb_refl; [done|apply orb_true_r]. }
    destruct (nav_total m s true (next_index s) HI
                (next_index_range m s HI)) as (k & _ & ->).
    eexists. split; [done|]. cbn. unfold next_index.
    rewrite Ho, Hlast, Hl, Z.eqb_refl. cbn. by destruct (has_wrap_focus m).
Qed.

Lemma wrap_or_clamp_witness :
  markup_tabs (three_headings false false true) <> [] /\
  reachable dom_keys 2 (three_headings false false true)
    (accordion (three_headings false false true)) /\
  role_is_tab (Heading 0) = true /\
  (37 = left dom_keys \/ 37 = up dom_keys) /\
  currentTabIndex (accordion (three_headings false false true)) = 0 /\
  exists s', keydown dom_keys 2 (Heading 0) 37
               (accordion (three_headings false false true)) = Done tt s'
        /\ currentTabIndex s' = 2.
Proof.
  assert (markup_tabs (three_headings false false true) <> []) as H1
    by discriminate.
  pose proof (reachable_init dom_keys 2 (three_headings false false true)) as H2.
  assert (role_is_tab (Heading 0) = true) as H3 by reflexivity.
  assert (37 = left dom_keys \/ 37 = up dom_keys) as H4 by (left; reflexivity).
  assert (currentTabIndex (accordion (three_headings false false true)) = 0)
    as H5 by reflexivity.
  exact (conj H1 (conj H2 (conj H3 (conj H4 (conj H5
    (proj1 (wrap_or_clamp dom_keys 2 _ _ (Heading 0) 37 H1 H2 H3) H4 H5)))))).
Defined.

(** C9. A focus transition from the heading [old] to the heading [new]
    completes and performs, in this order and nothing else: clear the
    selected flag of [old], remove its tab stop, emit accordion-blurred for
    it; then set the selected flag of [new], set its tab stop, focus it and
    emit accordion-focused for it. The focused notification comes after the
    blurred one. *)
Theorem blur_then_focus s old new :
  currentTab s = Some old ->
  array_ref (tabs s) (currentTabIndex s) = Some new ->
  exists s', updateFocusState s = Done tt s'
    /\ trace s' = (trace s ++
         [SetAttribute (TabEl old) "aria-selected" "false";
          SetAttribute (TabEl old) "tabindex" "-1";
          DispatchEvent "accordion-blurred" true (TabEl old);
          SetAttribute (TabEl new) "aria-selected" "true";
          SetAttribute (TabEl new) "tabindex" "0";
          Focus (TabEl new);
          DispatchEvent "accordion-focused" true (TabEl new)])%list
    /\ currentTab s' = Some new
    /\ activeElement s' = Some (TabEl new)
    /\ (forall t, tabs s' !! new = Some t ->
          aria_selected t = "true" /\ tabindex t = "0")
    /\ (old <> new -> forall t, tabs s' !! old = Some t ->
          aria_selected t = "false" /\ tabindex t = "-1").
Proof.
  intros Hc Hn. exists (refocused old new s).
  split; [by apply updateFocusState_eq|].
  split; [done|]. split; [done|]. split; [done|].
  unfold refocused. cbn [tabs]. split.
  - intros t. rewrite !lookup_alter_case.
    destruct (tabs s !! new); cbn; [|done]. intros [= <-].
    rewrite !bool_decide_true by done. by case_bool_decide.
  - intros Hne t. rewrite !lookup_alter_case.
    destruct (tabs s !! old); cbn; [|done]. intros [= <-].
    rewrite !(bool_decide_false (new = old)) by done.
    by rewrite !bool_decide_true.
Qed.

Lemma blur_then_focus_witness :
  let s := set_currentTabIndex 2 (accordion (three_headings false false false)) in
  currentTab s = Some 0%nat /\
  array_ref (tabs s) (currentTabIndex s) = Some 2%nat /\
  exists s', updateFocusState s = Done tt s'
    /\ trace s' = (trace s ++
         [SetAttribute (TabEl 0) "aria-selected" "false";
          SetAttribute (TabEl 0) "tabindex" "-1";
          DispatchEvent "accordion-blurred" true (TabEl 0);
          SetAttribute (TabEl 2) "aria-selected" "true";
          SetAttribute (TabEl 2) "tabindex" "0";
          Focus (TabEl 2);
          DispatchEvent "accordion-focused" true (TabEl 2)])%list.
Proof.
  intros s.
  assert (currentTab s = Some 0%nat) as H1 by reflexivity.
  assert (array_ref (tabs s) (currentTabIndex s) = Some 2%nat) as H2
    by reflexivity.
  destruct (blur_then_focus s 0 2 H1 H2) as (s' & Hs & Ht & _).
  exact (conj H1 (conj H2 (ex_intro _ s' (conj Hs Ht)))).
Defined.

End AccordionSpec.

(** ** Properties of the inert-based dialog controller *)
Module InertDialogSpec.
Import Dom InertDialog.

(** The siblings of the dialog's root: the children of the body but the root. *)
Definition is_sibling (c : Closure) (s : State) (el : node) : Prop :=
  el ∈ children body (elements s) /\ el <> root c.

(** A dialog opened by [open] and not closed since. *)
Definition opened (s : State) : Prop :=
  has_open s = true /\ "click" ∈ listeners s /\ "keydown" ∈ listeners s
  /\ is_Some (previousActiveElement s).

Lemma walk_contains dlg el : walk dlg el = dlg <-> contains dlg el = true.
Proof.
  induction el as [|x p IH]; cbn.
  - rewrite orb_false_r, bool_decide_eq_true. split; congruence.
  - case_bool_decide as H; cbn; [by rewrite H|]. exact IH.
Qed.

Lemma walk_outside dlg el : contains dlg el = false -> walk dlg el <> dlg.
Proof. intros H Hw%walk_contains. congruence. Qed.

(** [contains] is the ancestor-or-self relation of the path model. *)
Lemma contains_suffix dlg el : contains dlg el = true <-> dlg `suffix_of` el.
Proof.
  induction el as [|x p IH]; cbn.
  - rewrite orb_false_r, bool_decide_eq_true. split.
    + intros <-. done.
    + intros H. symmetry. by apply suffix_nil_inv.
  - rewrite orb_true_iff, bool_decide_eq_true, IH.
    split.
    + intros [->|H]; [done|]. by apply suffix_cons_r.
    + intros [[|y k] Hk]; cbn in Hk; [by left|].
      injection Hk as _ ->. right. by exists k.
Qed.


(** The loop over the body's children. *)
Lemma foldl_mark_inert c b (l : list node) s el :
  el ∈ inert (foldl (fun st child =>
                       if bool_decide (child ≠ root c)
                       then set_inert child b st else st) s l)
  <-> if b then el ∈ inert s \/ (el ∈ l /\ el <> root c)
      else el ∈ inert s /\ ~ (el ∈ l /\ el <> root c).
Proof.
  revert s. induction l as [|x l IH]; intros s; cbn [foldl].
  - destruct b; set_solver.
  - rewrite IH. case_bool_decide as Hx.
    + destruct b; cbn [inert set_inert]; set_solver.
    + destruct b; set_solver.
Qed.

Lemma foldl_mark_frame c b (l : list node) s :
  let s' := foldl (fun st child =>
                     if bool_decide (child ≠ root c)
                     then set_inert child b st else st) s l in
  elements s' = elements s /\ has_open s' = has_open s
  /\ overflow s' = overflow s /\ listeners s' = listeners s
  /\ autofocus s' = autofocus s /\ activeElement s' = activeElement s
  /\ previousActiveElement s' = previousActiveElement s
  /\ dispatched s' = dispatched s.
Proof.
  revert s. induction l as [|x l IH]; intros s; cbn [foldl]; [done|].
  case_bool_decide; [|apply IH].
  specialize (IH (set_inert x b s)). cbn in IH. exact IH.
Qed.

Lemma mark_siblings_inert c b s el :
  el ∈ inert (mark_siblings c b s)
  <-> if b then el ∈ inert s \/ is_sibling c s el
      else el ∈ inert s /\ ~ is_sibling c s el.
Proof. unfold mark_siblings, is_sibling. apply foldl_mark_inert. Qed.

Lemma mark_siblings_frame c b s :
  elements (mark_siblings c b s) = elements s
  /\ has_open (mark_siblings c b s) = has_open s
  /\ overflow (mark_siblings c b s) = overflow s
  /\ listeners (mark_siblings c b s) = listeners s
  /\ autofocus (mark_siblings c b s) = autofocus s
  /\ activeElement (mark_siblings c b s) = activeElement s
  /\ previousActiveElement (mark_siblings c b s) = previousActiveElement s
  /\ dispatched (mark_siblings c b s) = dispatched s.
Proof. apply foldl_mark_frame. Qed.

(** The state in which [open] and [close] touch the inert flags. *)
Definition scroll_locked (c : Closure) (b : bool) (s : State) : State :=
  if negb (modeless (OPTIONS c))
  then mark_siblings c b (set_overflow (if b then Some "hidden" else None) s)
  else s.

Lemma scroll_locked_frame c b s :
  elements (scroll_locked c b s) = elements s
  /\ has_open (scroll_locked c b s) = has_open s
  /\ listeners (scroll_locked c b s) = listeners s
  /\ autofocus (scroll_locked c b s) = autofocus s
  /\ activeElement (scroll_locked c b s) = activeElement s
  /\ previousActiveElement (scroll_locked c b s) = previousActiveElement s
  /\ dispatched (scroll_locked c b s) = dispatched s.
Proof.
  unfold scroll_locked. destruct (negb _); [|done].
  destruct (mark_siblings_frame c b
              (set_overflow (if b then Some "hidden" else None) s))
    as (?&?&?&?&?&?&?&?). done.
Qed.

Lemma scroll_locked_inert c b s el :
  el ∈ inert (scroll_locked c b s)
  <-> if modeless (OPTIONS c) then el ∈ inert s
      else if b then el ∈ inert s \/ is_sibling c s el
      else el ∈ inert s /\ ~ is_sibling c s el.
Proof.
  unfold scroll_locked. destruct (modeless _); cbn [negb]; [done|].
  rewrite mark_siblings_inert. unfold is_sibling. by destruct b.
Qed.

Lemma focus_frame el s :
  elements (focus el s) = elements s /\ has_open (focus el s) = has_open s
  /\ inert (focus el s) = inert s /\ listeners (focus el s) = listeners s
  /\ previousActiveElement (focus el s) = previousActiveElement s
  /\ dispatched (focus el s) = dispatched s
  /\ autofocus (focus el s) = autofocus s.
Proof. unfold focus. by destruct (can_focus _ _). Qed.

(** Nothing the dialog does changes which elements can take the focus,
    but for the inert flags. *)
Lemma foldl_mark_focusable c b (l : list node) s :
  focusable (foldl (fun st child =>
                      if bool_decide (child ≠ root c)
                      then set_inert child b st else st) s l)
  = focusable s.
Proof.
  revert s. induction l as [|x l IH]; intros s; cbn [foldl]; [done|].
  case_bool_decide; [|apply IH]. by rewrite IH.
Qed.

Lemma scroll_locked_focusable c b s :
  focusable (scroll_locked c b s) = focusable s.
Proof.
  unfold scroll_locked, mark_siblings. destruct (negb _); [|done].
  by rewrite foldl_mark_focusable.
Qed.

Ltac dialog_fields :=
  cbn [has_open elements inert overflow listeners autofocus activeElement
       previousActiveElement dispatched focusable dispatchEvent set_has_open set_inert
       set_overflow set_listeners set_activeElement set_previousActiveElement
       addEventListener removeEventListener].

(** [open] on a closed dialog, field by field. *)
Lemma open_closed c s :
  has_open s = false ->
  has_open (open c s) = true
  /\ elements (open c s) = elements s
  /\ previousActiveElement (open c s) = Some (activeElement s)
  /\ (forall el, el ∈ inert (open c s) <-> el ∈ inert (scroll_locked c true s))
  /\ "click" ∈ listeners (open c s) /\ "keydown" ∈ listeners (open c s)
  /\ dispatched (open c s) = dispatched s ++
       [mkCustomEvent "modal-opened" false (Some (dialog_el c))].
Proof.
  intros Hc. unfold open. rewrite Hc.
  change (if negb (modeless (OPTIONS c)) then _ else _) with
    (scroll_locked c true (set_previousActiveElement (Some (activeElement s)) s)).
  set (s0 := set_previousActiveElement (Some (activeElement s)) s).
  destruct (scroll_locked_frame c true s0) as (He & Ho & Hl & Ha & Hact & Hp & Hd).
  assert (forall el, el ∈ inert (scroll_locked c true s0)
                     <-> el ∈ inert (scroll_locked c true s)) as Hin.
  { intros el. by rewrite !scroll_locked_inert. }
  set (s1 := scroll_locked c true s0) in *.
  unfold focus. dialog_fields.
  destruct (autofocus s1); destruct (can_focus _ _); dialog_fields;
    rewrite ?He, ?Hp, ?Hd; subst s0; dialog_fields;
    (repeat split; try done; try apply Hin;
     repeat case_bool_decide; set_solver).
Qed.

(** [close] on a dialog that [open] opened. *)
Lemma close_opened c s p :
  has_open s = true -> previousActiveElement s = Some p ->
  exists s', close c s = Normal s'
    /\ has_open s' = false
    /\ elements s' = elements s
    /\ previousActiveElement s' = None
    /\ (forall el, el ∈ inert s' <-> el ∈ inert (scroll_locked c false s))
    /\ listeners s' = filter (fun t => t <> "keydown")
                        (filter (fun t => t <> "click") (listeners s))
    /\ activeElement s' =
         (if bool_decide (p ∈ focusable s)
             && negb (is_inert (inert (scroll_locked c false s)) p)
          then p else activeElement s)
    /\ dispatched s' = dispatched s ++
         [mkCustomEvent "modal-closed" false (Some (dialog_el c))].
Proof.
  intros Ho Hp. unfold close. rewrite Ho. cbn [negb].
  change (if negb (modeless (OPTIONS c)) then _ else _) with
    (scroll_locked c false s).
  destruct (scroll_locked_frame c false s) as (He & _ & Hl & Ha & Hact & Hp' & Hd).
  pose proof (scroll_locked_focusable c false s) as Hfo.
  set (s1 := scroll_locked c false s) in *.
  dialog_fields. rewrite Hp', Hp. unfold focus, can_focus. dialog_fields.
  rewrite Hfo.
  destruct (bool_decide (p ∈ focusable s) && negb (is_inert (inert s1) p));
    eexists; (split; [reflexivity|]);
    dialog_fields; rewrite ?He, ?Hl, ?Hd, ?Hact, ?Hfo; by repeat split.
Qed.

Lemma open_opened c s : has_open s = false -> opened (open c s).
Proof.
  intros H. destruct (open_closed c s H) as (?&_&Hp&_&?&?&_).
  unfold opened. rewrite Hp. eauto.
Qed.

(** The three ways through checkCloseDialog. *)
Lemma check_escape c target s :
  checkCloseDialog c (mkEvent "keydown" esc target) s = close c s.
Proof. done. Qed.

Lemma check_outside c e s :
  ev_type e <> "keydown" \/ which e <> esc ->
  contains (dialog_el c) (target e) = false ->
  checkCloseDialog c e s = close c s.
Proof.
  intros Hne Hout. unfold checkCloseDialog.
  assert (String.eqb (ev_type e) "keydown" && (which e =? esc) = false) as ->.
  { apply andb_false_iff. destruct Hne as [H|H].
    - left. by apply String.eqb_neq.
    - right. by apply Z.eqb_neq. }
  rewrite bool_decide_true; [done|]. by apply walk_outside.
Qed.

Lemma check_inside c e s :
  ev_type e <> "keydown" \/ which e <> esc ->
  contains (dialog_el c) (target e) = true ->
  checkCloseDialog c e s = Normal s.
Proof.
  intros Hne Hin. unfold checkCloseDialog.
  assert (String.eqb (ev_type e) "keydown" && (which e =? esc) = false) as ->.
  { apply andb_false_iff. destruct Hne as [H|H].
    - left. by apply String.eqb_neq.
    - right. by apply Z.eqb_neq. }
  rewrite bool_decide_false; [done|]. intros H. by apply H, walk_contains.
Qed.

(** A page with one sibling beside the dialog's root, a link; the dialog is
    the root itself and holds a button. These three can take the focus, the
    dialog by the tabindex the constructor gave it; the body cannot. *)
Definition sibling : node := [0%nat; 1%nat].
Definition dialog_root : node := [1%nat; 1%nat].
Definition button_in_dialog : node := [0%nat; 1%nat; 1%nat].

Definition page (I : gset node) (active : node) : State :=
  mkState [sibling; dialog_root; button_in_dialog] false I None [] None
          active None [] {[ sibling; dialog_root; button_in_dialog ]}.

Definition modal : Closure :=
  dialog (mkContainer false false) dialog_root dialog_root.

Definition modal_no_esc : Closure :=
  dialog (mkContainer false true) dialog_root dialog_root.

Lemma close_opened_closes c s :
  opened s -> exists s', close c s = Normal s' /\ has_open s' = false.
Proof.
  intros (Ho & _ & _ & [p Hp]).
  destruct (close_opened c s p Ho Hp) as (s' & Hc & Hcl & _). eauto.
Qed.


(** C10. In the inert variant, while the dialog is open, a keydown whose
    key is not escape and whose target is neither the dialog nor a
    descendant of it closes the dialog: the handler, registered for keydown
    as for click, sends every keydown but escape through the ancestor walk,
    which ends outside the dialog. *)
Theorem outside_keydown_closes c s e :
  opened s -> ev_type e = "keydown" -> which e <> esc ->
  contains (dialog_el c) (target e) = false ->
  walk (dialog_el c) (target e) <> dialog_el c
  /\ document_event c e s = close c s
  /\ exists s', document_event c e s = Normal s' /\ has_open s' = false.
Proof.
  intros Hop Ht Hw Hout. split; [by apply walk_outside|].
  assert (document_event c e s = close c s) as Heq.
  { unfold document_event. destruct Hop as (_ & _ & Hk & _).
    rewrite Ht, bool_decide_true by done.
    apply check_outside; auto. }
  split; [done|]. rewrite Heq. by apply close_opened_closes.
Qed.

Lemma outside_keydown_closes_witness :
  opened (open modal (page ∅ body)) /\
  ev_type (mkEvent "keydown" 9 sibling) = "keydown" /\
  which (mkEvent "keydown" 9 sibling) <> esc /\
  contains (dialog_el modal) (target (mkEvent "keydown" 9 sibling)) = false /\
  exists s', document_event modal (mkEvent "keydown" 9 sibling)
               (open modal (page ∅ body)) = Normal s'
        /\ has_open s' = false.
Proof.
  assert (opened (open modal (page ∅ body))) as H1 by (by apply open_opened).
  assert (ev_type (mkEvent "keydown" 9 sibling) = "keydown") as H2 by reflexivity.
  assert (which (mkEvent "keydown" 9 sibling) <> esc) as H3 by discriminate.
  assert (contains (dialog_el modal) (target (mkEvent "keydown" 9 sibling)) = false)
    as H4 by reflexivity.
  exact (conj H1 (conj H2 (conj H3 (conj H4
    (proj2 (proj2 (outside_keydown_closes modal _ _ H1 H2 H3 H4))))))).
Defined.

(** C6 on the code: the container's no-esc attribute is never read. A
    dialog whose container carries it, once opened, is closed by an escape
    keydown like any other. *)
Theorem escape_closes_despite_no_esc element root dlg s target :
  has_no_esc element = true -> opened s ->
  exists s', document_event (dialog element root dlg)
               (mkEvent "keydown" esc target) s = Normal s'
        /\ has_open s' = false.
Proof.
  intros _ Hop. unfold document_event. cbn [ev_type].
  destruct (Hop) as (_ & _ & Hk & _). rewrite bool_decide_true by done.
  rewrite check_escape. by apply close_opened_closes.
Qed.

Lemma escape_closes_despite_no_esc_witness :
  has_no_esc (mkContainer false true) = true /\
  opened (open modal_no_esc (page ∅ body)) /\
  exists s', document_event modal_no_esc (mkEvent "keydown" esc body)
               (open modal_no_esc (page ∅ body)) = Normal s'
        /\ has_open s' = false.
Proof.
  assert (has_no_esc (mkContainer false true) = true) as H1 by reflexivity.
  assert (opened (open modal_no_esc (page ∅ body))) as H2
    by (by apply open_opened).
  exact (conj H1 (conj H2
    (escape_closes_despite_no_esc _ dialog_root dialog_root _ body H1 H2))).
Defined.

End InertDialogSpec.

(** ** Properties of the built dialog controller *)
Module BuildDialogSpec.
Import Dom BuildDialog.

Ltac build_fields :=
  cbn [elements role tabindex prevTabindex outline aria_hidden nonModalNodes
       lastFocusedElement activeElement overflow autofocusEls listeners timers
       dispatched focusable set_tabindex set_prevTabindex set_outline set_aria_hidden
       set_nonModalNodes set_lastFocusedElement set_activeElement set_overflow
       set_listeners set_timers dispatchEvent addEventListener
       removeEventListener setTimeout state_of].

Lemma build_walk_contains dlg el : walk dlg el = dlg <-> contains dlg el = true.
Proof.
  induction el as [|x p IH]; cbn.
  - rewrite orb_false_r, bool_decide_eq_true. split; congruence.
  - destruct (decide (x :: p = dlg)) as [<-|Hne].
    + rewrite bool_decide_false by (by intros H). by rewrite bool_decide_true.
    + rewrite bool_decide_true by done.
      rewrite (bool_decide_false (x :: p = dlg)) by done. exact IH.
Qed.

(** The marking loop over a list without repetition. *)
Lemma foldl_mark_node (M L : list node) (st : State) :
  NoDup L ->
  let st' := foldl (mark_node M) st L in
  (forall el,
     (el ∈ L /\ el ∉ M ->
        tabindex st' !! el = Some "-1"
        /\ prevTabindex st' !! el = Some (tabindex st !! el))
     /\ (~ (el ∈ L /\ el ∉ M) ->
        tabindex st' !! el = tabindex st !! el
        /\ prevTabindex st' !! el = prevTabindex st !! el))
  /\ elements st' = elements st /\ role st' = role st
  /\ aria_hidden st' = aria_hidden st /\ nonModalNodes st' = nonModalNodes st
  /\ lastFocusedElement st' = lastFocusedElement st
  /\ activeElement st' = activeElement st /\ listeners st' = listeners st
  /\ timers st' = timers st /\ dispatched st' = dispatched st.
Proof.
  intros Hnd. revert st. induction Hnd as [|x L Hx Hnd IH]; intros st; cbn [foldl].
  - split; [|done]. intros el. split; [set_solver|done].
  - specialize (IH (mark_node M st x)).
    destruct IH as (IH & He & Hr & Ha & Hn & Hl & Hact & Hli & Ht & Hd).
    assert (elements (mark_node M st x) = elements st
            /\ role (mark_node M st x) = role st
            /\ aria_hidden (mark_node M st x) = aria_hidden st
            /\ nonModalNodes (mark_node M st x) = nonModalNodes st
            /\ lastFocusedElement (mark_node M st x) = lastFocusedElement st
            /\ activeElement (mark_node M st x) = activeElement st
            /\ listeners (mark_node M st x) = listeners st
            /\ timers (mark_node M st x) = timers st
            /\ dispatched (mark_node M st x) = dispatched st)
      as (?&?&?&?&?&?&?&?&?).
    { unfold mark_node. by case_bool_decide. }
    split; [|by repeat split; congruence].
    intros el. destruct (IH el) as [IH1 IH2]. split.
    + intros [Hel HM]. destruct (decide (el ∈ L)) as [HL|HL].
      * destruct (IH1 (conj HL HM)) as [-> ->]. split; [done|].
        assert (el <> x) by (intros ->; done).
        unfold mark_node. case_bool_decide; build_fields; [|done].
        by rewrite lookup_insert_ne.
      * assert (el = x) as -> by set_solver.
        destruct IH2 as [-> ->]; [tauto|].
        unfold mark_node. rewrite bool_decide_true by done. build_fields.
        by rewrite !lookup_insert_eq.
    + intros Hn'. destruct IH2 as [-> ->]; [set_solver|].
      unfold mark_node. case_bool_decide as HxM; build_fields; [|done].
      assert (el <> x) by (intros ->; set_solver).
      by rewrite !lookup_insert_ne.
Qed.

(** The restoring loop over a list without repetition. *)
Lemma foldl_restore_node (L : list node) (st : State) :
  NoDup L ->
  let st' := foldl restore_node st L in
  (forall el,
     (el ∈ L -> tabindex st' !! el = truthy (prevTabindex st !! el))
     /\ (el ∉ L -> tabindex st' !! el = tabindex st !! el))
  /\ elements st' = elements st /\ role st' = role st
  /\ aria_hidden st' = aria_hidden st /\ nonModalNodes st' = nonModalNodes st
  /\ lastFocusedElement st' = lastFocusedElement st
  /\ activeElement st' = activeElement st /\ listeners st' = listeners st
  /\ timers st' = timers st /\ dispatched st' = dispatched st.
Proof.
  intros Hnd. revert st. induction Hnd as [|x L Hx Hnd IH]; intros st; cbn [foldl].
  - split; [|done]. intros el. split; [set_solver|done].
  - specialize (IH (restore_node st x)).
    destruct IH as (IH & He & Hr & Ha & Hn & Hl & Hact & Hli & Ht & Hd).
    assert (elements (restore_node st x) = elements st
            /\ role (restore_node st x) = role st
            /\ aria_hidden (restore_node st x) = aria_hidden st
            /\ nonModalNodes (restore_node st x) = nonModalNodes st
            /\ lastFocusedElement (restore_node st x) = lastFocusedElement st
            /\ activeElement (restore_node st x) = activeElement st
            /\ listeners (restore_node st x) = listeners st
            /\ timers (restore_node st x) = timers st
            /\ dispatched (restore_node st x) = dispatched st)
      as (?&?&?&?&?&?&?&?&?).
    { unfold restore_node. by destruct (truthy _). }
    split; [|by repeat split; congruence].
    intros el. destruct (IH el) as [IH1 IH2]. split.
    + intros Hel. destruct (decide (el ∈ L)) as [HL|HL].
      * rewrite (IH1 HL). assert (el <> x) by (intros ->; done).
        unfold restore_node. destruct (truthy (prevTabindex st !! x));
          build_fields; [|done]. by rewrite lookup_insert_ne.
      * assert (el = x) as -> by set_solver. rewrite (IH2 HL).
        unfold restore_node. destruct (truthy (prevTabindex st !! x));
          build_fields; [by rewrite lookup_insert_eq|by rewrite lookup_delete_eq].
    + intros Hel. rewrite IH2 by set_solver.
      assert (el <> x) by (intros ->; set_solver).
      unfold restore_node. destruct (truthy (prevTabindex st !! x));
        build_fields; [by rewrite lookup_insert_ne|by rewrite lookup_delete_ne].
Qed.

(** [show] on a hidden dialog, field by field. *)
Lemma show_hidden c s :
  aria_hidden s <> None ->
  aria_hidden (show c s) = None
  /\ elements (show c s) = elements s /\ role (show c s) = role s
  /\ tabindex (show c s) = tabindex s
  /\ prevTabindex (show c s) = prevTabindex s
  /\ nonModalNodes (show c s) = nonModalNodes s
  /\ lastFocusedElement (show c s) = Some (activeElement s)
  /\ timers (show c s) =
       timers s ++ (if String.eqb (dialog_type c) "modal" then [MarkNodes] else [])
  /\ dispatched (show c s) = dispatched s
  /\ "keydown" ∈ listeners (show c s) /\ "mousedown" ∈ listeners (show c s).
Proof.
  intros Hh. unfold show, focus. rewrite bool_decide_false by done.
  destruct (first_visible _); destruct (can_focus _ _);
    destruct (String.eqb _ _); build_fields;
    rewrite ?app_nil_r; (repeat split; try done);
    repeat case_bool_decide; set_solver.
Qed.


(** [close] on a dialog that [show] opened. *)
Lemma close_shown c s p :
  aria_hidden s = None -> lastFocusedElement s = Some p ->
  exists s', close c s = Normal s'
    /\ aria_hidden s' = Some "true"
    /\ activeElement s' = (if can_focus s p then p else activeElement s)
    /\ lastFocusedElement s' = None
    /\ elements s' = elements s /\ role s' = role s
    /\ tabindex s' = tabindex s /\ prevTabindex s' = prevTabindex s
    /\ nonModalNodes s' = nonModalNodes s
    /\ timers s' =
         timers s ++ (if String.eqb (dialog_type c) "modal" then [RestoreNodes] else [])
    /\ dispatched s' = dispatched s.
Proof.
  intros Hh Hp. unfold close. rewrite bool_decide_false by (by rewrite Hh; intros H).
  destruct (String.eqb _ _); build_fields; rewrite Hp; unfold focus, can_focus;
    build_fields;
    destruct (bool_decide (p ∈ focusable s)
              || from_option parses_as_integer false (tabindex s !! p));
    eexists; (split; [reflexivity|]); build_fields; rewrite ?app_nil_r;
    by repeat split.
Qed.

Lemma query_nonModal_NoDup s : NoDup (elements s) -> NoDup (query_nonModal s).
Proof. intros H. unfold query_nonModal. by apply NoDup_filter. Qed.

Lemma elem_of_query_nonModal s el :
  el ∈ query_nonModal s <->
  el ∈ elements s /\ inside body el = true
  /\ role s !! el <> Some "dialog" /\ tabindex s !! el <> Some "-1".
Proof. unfold query_nonModal. rewrite list_elem_of_filter. tauto. Qed.

Lemma elem_of_query_modalNodes c s el :
  el ∈ query_modalNodes c s <->
  el ∈ elements s /\ inside (dialog_el c) el = true.
Proof. unfold query_modalNodes. rewrite list_elem_of_filter. tauto. Qed.

(** One open-close cycle of a modal dialog with both deferred callbacks run. *)
Definition marked (c : Closure) (s : State) : State :=
  run_timers c (show c s).

Definition cycled (c : Closure) (s : State) : State :=
  run_timers c (state_of (close c (marked c s))).

Lemma marked_fields c s :
  dialog_type c = "modal" -> aria_hidden s <> None -> timers s = [] ->
  NoDup (elements s) ->
  (forall el,
     (el ∈ query_nonModal s /\ inside (dialog_el c) el = false ->
        tabindex (marked c s) !! el = Some "-1"
        /\ prevTabindex (marked c s) !! el = Some (tabindex s !! el))
     /\ (~ (el ∈ query_nonModal s /\ inside (dialog_el c) el = false) ->
        tabindex (marked c s) !! el = tabindex s !! el
        /\ prevTabindex (marked c s) !! el = prevTabindex s !! el))
  /\ elements (marked c s) = elements s /\ role (marked c s) = role s
  /\ aria_hidden (marked c s) = None
  /\ nonModalNodes (marked c s) = Some (query_nonModal s)
  /\ lastFocusedElement (marked c s) = Some (activeElement s)
  /\ timers (marked c s) = [] /\ dispatched (marked c s) = dispatched s.
Proof.
  intros Hm Hh Ht Hnd.
  destruct (show_hidden c s Hh) as (Ha & He & Hr & Hti & Hpt & Hn & Hl & Htm & Hd & _).
  rewrite Hm, Ht in Htm. cbn in Htm.
  unfold marked, run_timers. rewrite Htm. cbn [run_tasks run_task].
  set (s1 := set_timers [] (show c s)).
  assert (query_nonModal s1 = query_nonModal s) as HL.
  { unfold query_nonModal, s1. build_fields. by rewrite He, Hr, Hti. }
  assert (query_modalNodes c s1 = query_modalNodes c s) as HM.
  { unfold query_modalNodes, s1. build_fields. by rewrite He. }
  build_fields. rewrite HL, HM.
  destruct (foldl_mark_node (query_modalNodes c s) (query_nonModal s)
              (set_nonModalNodes (Some (query_nonModal s)) s1)
              (query_nonModal_NoDup s Hnd))
    as (Hmark & He' & Hr' & Ha' & Hn' & Hl' & _ & _ & Ht' & Hd').
  split.
  - intros el. destruct (Hmark el) as [H1 H2]. split.
    + intros [HinL Hout]. destruct H1 as [-> ->].
      * split; [done|]. rewrite elem_of_query_modalNodes. intros [_ ?]. congruence.
      * unfold s1. build_fields. by rewrite Hti.
    + intros Hnot. destruct H2 as [-> ->].
      * intros [HinL HnM]. apply Hnot. split; [done|].
        destruct (inside (dialog_el c) el) eqn:Hin; [|done].
        exfalso. apply HnM. apply elem_of_query_modalNodes. split; [|done].
        by apply elem_of_query_nonModal in HinL as [? _].
      * unfold s1. build_fields. by rewrite Hti, Hpt.
  - rewrite He', Hr', Ha', Hn', Hl', Ht', Hd'. unfold s1. build_fields.
    by rewrite He, Hr, Ha, Hl, Hd.
Qed.

Lemma truthy_saved (v : option string) :
  v <> Some "" -> truthy (Some v) = v.
Proof.
  intros Hv. destruct v as [str|]; [|done]. cbn.
  destruct (String.eqb_spec str ""); congruence.
Qed.

Lemma cycled_fields c s :
  dialog_type c = "modal" -> aria_hidden s <> None -> timers s = [] ->
  NoDup (elements s) ->
  (forall el,
     (el ∈ query_nonModal s ->
        tabindex (cycled c s) !! el = truthy (prevTabindex (marked c s) !! el))
     /\ (el ∉ query_nonModal s ->
        tabindex (cycled c s) !! el = tabindex s !! el))
  /\ aria_hidden (cycled c s) = Some "true"
  /\ activeElement (cycled c s)
     = (if can_focus (marked c s) (activeElement s) then activeElement s
        else activeElement (marked c s))
  /\ lastFocusedElement (cycled c s) = None
  /\ timers (cycled c s) = [] /\ dispatched (cycled c s) = dispatched s.
Proof.
  intros Hm Hh Ht Hnd.
  destruct (marked_fields c s Hm Hh Ht Hnd)
    as (Hmark & He & Hr & Ha & Hn & Hl & Htm & Hd).
  destruct (close_shown c (marked c s) (activeElement s) Ha Hl)
    as (s3 & Hc & Ha3 & Hact3 & Hl3 & He3 & Hr3 & Hti3 & Hpt3 & Hn3 & Htm3 & Hd3).
  unfold cycled. rewrite Hc. cbn [state_of]. unfold run_timers.
  rewrite Htm3, Htm, Hm. cbn [String.eqb Ascii.eqb Bool.eqb app run_tasks run_task].
  build_fields. rewrite Hn3, Hn. cbn [state_of].
  destruct (foldl_restore_node (query_nonModal s) (set_timers [] s3)
              (query_nonModal_NoDup s Hnd))
    as (Hres & _ & _ & Ha' & _ & Hl' & Hact' & _ & Ht' & Hd').
  split.
  - intros el. destruct (Hres el) as [H1 H2]. split.
    + intros HinL. rewrite (H1 HinL). build_fields. by rewrite Hpt3.
    + intros HnL. rewrite (H2 HnL). build_fields. rewrite Hti3.
      destruct (Hmark el) as [_ H]. destruct H as [-> _]; [tauto|done].
  - rewrite Ha', Hl', Hact', Ht', Hd'. build_fields. by rewrite Hact3, Hd3, Hd.
Qed.

(** While a modal dialog is open and the marking callback has run, every
    element under the body outside the dialog, other than an element with
    the dialog role, has tabindex -1. *)
Lemma marked_outside c s el :
  dialog_type c = "modal" -> aria_hidden s <> None -> timers s = [] ->
  NoDup (elements s) ->
  el ∈ elements s -> inside body el = true ->
  inside (dialog_el c) el = false -> role s !! el <> Some "dialog" ->
  tabindex (marked c s) !! el = Some "-1".
Proof.
  intros Hm Hh Ht Hnd Hel Hb Hout Hrole.
  destruct (marked_fields c s Hm Hh Ht Hnd) as (Hmark & _).
  destruct (Hmark el) as [H1 H2].
  destruct (decide (tabindex s !! el = Some "-1")) as [Hti|Hti].
  - destruct H2 as [-> _]; [|done].
    intros [HinL _]. apply elem_of_query_nonModal in HinL. tauto.
  - destruct H1 as [-> _]; [|done]. split; [|done].
    by apply elem_of_query_nonModal.
Qed.

(** After the cycle an element outside the dialog has the tabindex
    attribute it had before, unless that was the empty string. *)
Lemma cycled_outside c s el :
  dialog_type c = "modal" -> aria_hidden s <> None -> timers s = [] ->
  NoDup (elements s) ->
  inside (dialog_el c) el = false -> tabindex s !! el <> Some "" ->
  tabindex (cycled c s) !! el = tabindex s !! el.
Proof.
  intros Hm Hh Ht Hnd Hout Hne.
  destruct (cycled_fields c s Hm Hh Ht Hnd) as (Hcyc & _).
  destruct (marked_fields c s Hm Hh Ht Hnd) as (Hmark & _).
  destruct (Hcyc el) as [H1 H2].
  destruct (decide (el ∈ query_nonModal s)) as [HL|HL]; [|by apply H2].
  rewrite (H1 HL). destruct (Hmark el) as [[_ ->] _]; [done|].
  by apply truthy_saved.
Qed.

(** A page with one sibling beside the dialog's root, a link; the dialog is
    the root itself, with the tabindex the constructor gave it, and holds a
    button. The link and the button can take the focus by their kind; the
    body cannot. *)
Definition sibling : node := [0%nat; 1%nat].
Definition dialog_root : node := [1%nat; 1%nat].
Definition button_in_dialog : node := [0%nat; 1%nat; 1%nat].

Definition page (ti : gmap node string) (active : node) : State :=
  mkState [sibling; dialog_root; button_in_dialog]
          {[ dialog_root := "dialog" ]} (<[dialog_root := "-1"]> ti) ∅ ∅
          (Some "true") None None
          active None [] [] [] [] {[ sibling; button_in_dialog ]}.

Definition modal : Closure := dialog (mkContainer false) dialog_root dialog_root.

End BuildDialogSpec.

(** ** Properties that span both dialog variants *)
Module DialogSpec.
Import Dom.

(** C1, as stated, fails on the inert variant: a sibling that was already
    inert before open() is not inert after close(). *)
Lemma inert_sibling_not_restored :
  let s := InertDialogSpec.page {[ InertDialogSpec.sibling ]} body in
  let s' := InertDialog.state_of
              (InertDialog.close InertDialogSpec.modal
                 (InertDialog.open InertDialogSpec.modal s)) in
  InertDialog.modeless (InertDialog.OPTIONS InertDialogSpec.modal) = false
  /\ InertDialogSpec.is_sibling InertDialogSpec.modal s InertDialogSpec.sibling
  /\ bool_decide (InertDialogSpec.sibling ∈ InertDialog.inert s) = true
  /\ bool_decide (InertDialogSpec.sibling ∈ InertDialog.inert s') = false.
Proof.
  cbn zeta. split; [reflexivity|]. split.
  - split; [|discriminate]. unfold children. cbn. set_solver.
  - split; vm_compute; reflexivity.
Qed.

(** C1, amended. Inert variant, modal: while the dialog is open every child
    of the body other than the dialog's root is inert; after close() every
    such child is not inert, which is its state before open() exactly when
    it was not inert then; no other element's inert flag changes. Tabindex
    variant, modal: once the deferred marking has run, every element under
    the body outside the dialog that does not carry the dialog role has
    tabindex -1; after close() and its deferred restoring, every element
    outside the dialog has the tabindex attribute it had before show(),
    absent or present, provided it was not the empty string. *)
Theorem modal_siblings
    (ci : InertDialog.Closure) (si : InertDialog.State)
    (cb : BuildDialog.Closure) (sb : BuildDialog.State) :
  InertDialog.modeless (InertDialog.OPTIONS ci) = false ->
  InertDialog.has_open si = false ->
  BuildDialog.dialog_type cb = "modal" ->
  BuildDialog.aria_hidden sb <> None ->
  BuildDialog.timers sb = [] ->
  NoDup (BuildDialog.elements sb) ->
  ((forall el, InertDialogSpec.is_sibling ci si el ->
      el ∈ InertDialog.inert (InertDialog.open ci si))
   /\ exists s', InertDialog.close ci (InertDialog.open ci si) = InertDialog.Normal s'
       /\ (forall el, InertDialogSpec.is_sibling ci si el ->
             el ∉ InertDialog.inert s')
       /\ (forall el, ~ InertDialogSpec.is_sibling ci si el ->
             (el ∈ InertDialog.inert s' <-> el ∈ InertDialog.inert si)))
  /\ ((forall el, el ∈ BuildDialog.elements sb ->
         inside body el = true ->
         inside (BuildDialog.dialog_el cb) el = false ->
         BuildDialog.role sb !! el <> Some "dialog" ->
         BuildDialog.tabindex (BuildDialogSpec.marked cb sb) !! el = Some "-1")
      /\ (forall el, inside (BuildDialog.dialog_el cb) el = false ->
            BuildDialog.tabindex sb !! el <> Some "" ->
            BuildDialog.tabindex (BuildDialogSpec.cycled cb sb) !! el
            = BuildDialog.tabindex sb !! el)).
Proof.
  intros Hm Hc Hty Hh Ht Hnd. split; [|split].
  - destruct (InertDialogSpec.open_closed ci si Hc) as (Ho & He & Hp & Hin & _).
    split.
    + intros el Hs. apply Hin. rewrite InertDialogSpec.scroll_locked_inert, Hm.
      by right.
    + destruct (InertDialogSpec.close_opened ci _ _ Ho Hp)
        as (s' & Hcl & _ & _ & _ & Hin' & _).
      exists s'. split; [done|].
      assert (forall el, el ∈ InertDialog.inert s' <->
                (el ∈ InertDialog.inert si \/ InertDialogSpec.is_sibling ci si el)
                /\ ~ InertDialogSpec.is_sibling ci si el) as Hchar.
      { intros el. rewrite Hin', InertDialogSpec.scroll_locked_inert, Hm.
        rewrite Hin, InertDialogSpec.scroll_locked_inert, Hm.
        unfold InertDialogSpec.is_sibling. by rewrite He. }
      split.
      * intros el Hs. rewrite Hchar. tauto.
      * intros el Hs. rewrite Hchar. tauto.
  - intros el. by apply BuildDialogSpec.marked_outside.
  - intros el. by apply BuildDialogSpec.cycled_outside.
Qed.

Lemma modal_siblings_witness :
  let si := InertDialogSpec.page ∅ body in
  let sb := BuildDialogSpec.page {[ BuildDialogSpec.sibling := "0" ]} body in
  InertDialog.modeless (InertDialog.OPTIONS InertDialogSpec.modal) = false /\
  InertDialog.has_open si = false /\
  BuildDialog.dialog_type BuildDialogSpec.modal = "modal" /\
  BuildDialog.aria_hidden sb <> None /\
  BuildDialog.timers sb = [] /\
  NoDup (BuildDialog.elements sb) /\
  (forall el, InertDialogSpec.is_sibling InertDialogSpec.modal si el ->
     el ∈ InertDialog.inert (InertDialog.open InertDialogSpec.modal si)) /\
  BuildDialog.tabindex (BuildDialogSpec.cycled BuildDialogSpec.modal sb)
    !! BuildDialogSpec.sibling = Some "0".
Proof.
  intros si sb.
  assert (InertDialog.modeless (InertDialog.OPTIONS InertDialogSpec.modal) = false)
    as H1 by reflexivity.
  assert (InertDialog.has_open si = false) as H2 by reflexivity.
  assert (BuildDialog.dialog_type BuildDialogSpec.modal = "modal") as H3
    by reflexivity.
  assert (BuildDialog.aria_hidden sb <> None) as H4 by discriminate.
  assert (BuildDialog.timers sb = []) as H5 by reflexivity.
  assert (NoDup (BuildDialog.elements sb)) as H6
    by (apply (bool_decide_unpack (NoDup _)); vm_compute; exact I).
  destruct (modal_siblings InertDialogSpec.modal si BuildDialogSpec.modal sb
              H1 H2 H3 H4 H5 H6) as [[Hopen _] [_ Hcycle]].
  refine (conj H1 (conj H2 (conj H3 (conj H4 (conj H5 (conj H6
            (conj Hopen _))))))).
  rewrite (Hcycle BuildDialogSpec.sibling); [reflexivity|reflexivity|].
  vm_compute. discriminate.
Defined.




(** C7, as stated, fails on the built variant: a pointer-down outside an
    open modal dialog is cancelled, and the dialog stays open. *)
Lemma outside_pointer_down_does_not_close :
  let s := BuildDialog.show BuildDialogSpec.modal (BuildDialogSpec.page ∅ body) in
  let e := mkEvent "mousedown" 0 BuildDialogSpec.sibling in
  BuildDialog.aria_hidden s = None
  /\ contains (BuildDialog.dialog_el BuildDialogSpec.modal) (target e) = false
  /\ BuildDialog.aria_hidden
       (BuildDialog.state_of (BuildDialog.document_event BuildDialogSpec.modal e s))
     = None
  /\ snd (BuildDialog.clickHandler BuildDialogSpec.modal e s)
     = BuildDialog.mkCancelled true true.
Proof. cbn zeta. repeat split; vm_compute; reflexivity. Qed.

(** C7, amended. Inert variant: for a dialog opened by open(), a click
    whose target is neither the dialog nor a descendant of it closes the
    dialog, and a click on the dialog or a descendant of it does not; the
    ancestor walk from the target ends on the dialog exactly when the target
    is the dialog or a descendant. Built variant: a pointer-down never
    closes the dialog; on a modal dialog a pointer-down outside the dialog
    is cancelled, any other is left alone. *)
Theorem outside_click
    (ci : InertDialog.Closure) (si : InertDialog.State)
    (cb : BuildDialog.Closure) (sb : BuildDialog.State) (e : Event) :
  InertDialogSpec.opened si ->
  ev_type e = "click" ->
  ((contains (InertDialog.dialog_el ci) (target e) = false ->
    exists s', InertDialog.document_event ci e si = InertDialog.Normal s'
          /\ InertDialog.has_open s' = false)
   /\ (contains (InertDialog.dialog_el ci) (target e) = true ->
       InertDialog.document_event ci e si = InertDialog.Normal si)
   /\ (InertDialog.walk (InertDialog.dialog_el ci) (target e)
       = InertDialog.dialog_el ci
       <-> InertDialog.dialog_el ci `suffix_of` target e))
  /\ (forall e', ev_type e' = "mousedown" ->
        BuildDialog.document_event cb e' sb = BuildDialog.Normal sb
        /\ fst (BuildDialog.clickHandler cb e' sb) = sb
        /\ snd (BuildDialog.clickHandler cb e' sb) =
           if String.eqb (BuildDialog.dialog_type cb) "modal"
              && negb (contains (BuildDialog.dialog_el cb) (target e'))
           then BuildDialog.mkCancelled true true
           else BuildDialog.mkCancelled false false).
Proof.
  intros Hop Ht. split; [split; [|split]|].
  - intros Hout. unfold InertDialog.document_event.
    destruct (Hop) as (_ & Hcl & _ & _). rewrite Ht, bool_decide_true by done.
    rewrite InertDialogSpec.check_outside; [|left; by rewrite Ht|done].
    by apply InertDialogSpec.close_opened_closes.
  - intros Hin. unfold InertDialog.document_event.
    destruct (Hop) as (_ & Hcl & _ & _). rewrite Ht, bool_decide_true by done.
    apply InertDialogSpec.check_inside; [left; by rewrite Ht|done].
  - by rewrite InertDialogSpec.walk_contains, InertDialogSpec.contains_suffix.
  - intros e' Ht'.
    assert (fst (BuildDialog.clickHandler cb e' sb) = sb) as Hfst.
    { unfold BuildDialog.clickHandler.
      destruct (negb _); [done|]. by case_bool_decide. }
    split; [|split; [done|]].
    + unfold BuildDialog.document_event. rewrite Ht'. cbn.
      rewrite Hfst. by case_bool_decide.
    + unfold BuildDialog.clickHandler.
      destruct (String.eqb _ "modal"); cbn [negb andb]; [|done].
      destruct (contains _ _) eqn:Hc; cbn [negb].
      * rewrite bool_decide_false; [done|].
        intros H. by apply H, BuildDialogSpec.build_walk_contains.
      * rewrite bool_decide_true; [done|].
        intros H%BuildDialogSpec.build_walk_contains. congruence.
Qed.

Lemma outside_click_witness :
  let si := InertDialog.open InertDialogSpec.modal (InertDialogSpec.page ∅ body) in
  let e := mkEvent "click" 0 InertDialogSpec.sibling in
  InertDialogSpec.opened si /\ ev_type e = "click" /\
  contains (InertDialog.dialog_el InertDialogSpec.modal) (target e) = false /\
  exists s', InertDialog.document_event InertDialogSpec.modal e si
             = InertDialog.Normal s'
        /\ InertDialog.has_open s' = false.
Proof.
  intros si e.
  assert (InertDialogSpec.opened si) as H1
    by (by apply InertDialogSpec.open_opened).
  assert (ev_type e = "click") as H2 by reflexivity.
  assert (contains (InertDialog.dialog_el InertDialogSpec.modal) (target e) = false)
    as H3 by reflexivity.
  exact (conj H1 (conj H2 (conj H3
    (proj1 (proj1 (outside_click InertDialogSpec.modal si BuildDialogSpec.modal
                     (BuildDialogSpec.page ∅ body) e H1 H2)) H3)))).
Defined.

(** C8, as stated, fails: the opened notification of the inert variant is
    constructed without the bubbles flag, so it does not bubble, and the
    built variant emits no notification at all when it opens. *)
Lemma opened_notification_does_not_bubble :
  InertDialog.dispatched
    (InertDialog.open InertDialogSpec.modal (InertDialogSpec.page ∅ body))
  = [mkCustomEvent "modal-opened" false (Some InertDialogSpec.dialog_root)]
  /\ BuildDialog.aria_hidden
       (BuildDialog.show BuildDialogSpec.modal (BuildDialogSpec.page ∅ body))
     = None
  /\ BuildDialog.dispatched
       (BuildDialog.show BuildDialogSpec.modal (BuildDialogSpec.page ∅ body))
     = [].
Proof. repeat split; vm_compute; reflexivity. Qed.

(** C8, amended. Inert variant: every open() of a closed dialog emits
    exactly one modal-opened notification and every close() of a dialog so
    opened, also the one an escape keydown causes, exactly one modal-closed
    notification; both carry the dialog as payload and neither bubbles.
    Built variant: show() and close() emit nothing; an escape keydown on a
    shown dialog closes it and emits exactly one dialog-closed notification,
    without payload and not bubbling. *)
Theorem notifications
    (ci : InertDialog.Closure) (si : InertDialog.State)
    (cb : BuildDialog.Closure) (sb : BuildDialog.State) (target : node) :
  InertDialog.has_open si = false ->
  BuildDialog.aria_hidden sb <> None ->
  (InertDialog.dispatched (InertDialog.open ci si)
   = InertDialog.dispatched si ++
     [mkCustomEvent "modal-opened" false (Some (InertDialog.dialog_el ci))]
   /\ (exists s', InertDialog.close ci (InertDialog.open ci si) = InertDialog.Normal s'
        /\ InertDialog.dispatched s'
           = InertDialog.dispatched (InertDialog.open ci si) ++
             [mkCustomEvent "modal-closed" false (Some (InertDialog.dialog_el ci))])
   /\ (exists s', InertDialog.document_event ci (mkEvent "keydown" esc target)
                   (InertDialog.open ci si) = InertDialog.Normal s'
        /\ InertDialog.has_open s' = false
        /\ InertDialog.dispatched s'
           = InertDialog.dispatched (InertDialog.open ci si) ++
             [mkCustomEvent "modal-closed" false (Some (InertDialog.dialog_el ci))]))
  /\ (BuildDialog.dispatched (BuildDialog.show cb sb) = BuildDialog.dispatched sb
      /\ (exists s', BuildDialog.close cb (BuildDialog.show cb sb) = BuildDialog.Normal s'
           /\ BuildDialog.dispatched s' = BuildDialog.dispatched sb)
      /\ (exists s', BuildDialog.document_event cb (mkEvent "keydown" esc target)
                      (BuildDialog.show cb sb) = BuildDialog.Normal s'
           /\ BuildDialog.aria_hidden s' <> None
           /\ BuildDialog.dispatched s'
              = BuildDialog.dispatched sb ++
                [mkCustomEvent "dialog-closed" false None])).
Proof.
  intros Hc Hh. split.
  - destruct (InertDialogSpec.open_closed ci si Hc) as (Ho & _ & Hp & _ & _ & Hk & Hd).
    split; [done|].
    destruct (InertDialogSpec.close_opened ci _ _ Ho Hp)
      as (s' & Hcl & Hcl' & _ & _ & _ & _ & _ & Hd').
    split; [by exists s'|]. exists s'.
    unfold InertDialog.document_event. cbn [ev_type].
    rewrite bool_decide_true by done. by rewrite InertDialogSpec.check_escape.
  - destruct (BuildDialogSpec.show_hidden cb sb Hh)
      as (Ha & _ & _ & _ & _ & _ & Hl & _ & Hd & Hk & _).
    split; [done|].
    destruct (BuildDialogSpec.close_shown cb _ _ Ha Hl)
      as (s' & Hcl & _ & _ & _ & _ & _ & _ & _ & _ & _ & Hd').
    split; [exists s'; split; [done|congruence]|].
    unfold BuildDialog.document_event. cbn [ev_type].
    rewrite bool_decide_true by done. cbn [String.eqb Ascii.eqb Bool.eqb].
    unfold BuildDialog.keydownHandler. cbn [which]. rewrite Z.eqb_refl.
    set (ev := mkCustomEvent "dialog-closed" false None).
    destruct (BuildDialogSpec.close_shown cb
                (BuildDialog.dispatchEvent ev (BuildDialog.show cb sb))
                (BuildDialog.activeElement sb))
      as (s2 & Hcl2 & Ha2 & _ & _ & _ & _ & _ & _ & _ & _ & Hd2); [done..|].
    exists s2. split; [done|]. split; [by rewrite Ha2|].
    rewrite Hd2. cbn. by rewrite Hd.
Qed.

Lemma notifications_witness :
  let si := InertDialogSpec.page ∅ body in
  let sb := BuildDialogSpec.page ∅ body in
  InertDialog.has_open si = false /\
  BuildDialog.aria_hidden sb <> None /\
  InertDialog.dispatched (InertDialog.open InertDialogSpec.modal si)
  = InertDialog.dispatched si ++
    [mkCustomEvent "modal-opened" false
       (Some (InertDialog.dialog_el InertDialogSpec.modal))].
Proof.
  intros si sb.
  assert (InertDialog.has_open si = false) as H1 by reflexivity.
  assert (BuildDialog.aria_hidden sb <> None) as H2 by discriminate.
  exact (conj H1 (conj H2
    (proj1 (proj1 (notifications InertDialogSpec.modal si BuildDialogSpec.modal
                     sb body H1 H2))))).
Defined.

End DialogSpec.

(** ** Further properties of the accordion controller *)
Module AccordionExtra.
Import Accordion AccordionSpec.

(** The [aria-hidden] attributes of the panels and the [aria-selected]
    attributes of the headings, in order. *)
Definition hidden_flags (s : State) : list string := aria_hidden <$> panels s.
Definition selected_flags (s : State) : list string := aria_selected <$> tabs s.

(** A panel is hidden exactly when its heading is collapsed. *)
Definition mirrored (s : State) : Prop :=
  forall i e h, expanded_flags s !! i = Some e -> hidden_flags s !! i = Some h ->
    (e = "true" /\ h = "false") \/ (e = "false" /\ h = "true").

(** Heading [k] is the only selected one. *)
Definition only_selected (k : nat) (s : State) : Prop :=
  forall j t, tabs s !! j = Some t ->
    aria_selected t = if bool_decide (j = k) then "true" else "false".

Lemma toggled_hidden k b s :
  hidden_flags (toggled k b s)
  = alter (fun _ => js_string_of_bool (negb b)) k (hidden_flags s).
Proof.
  unfold hidden_flags, toggled. cbn [panels].
  apply list_fmap_alter, Forall_true. done.
Qed.

Lemma refocused_moved_hidden k n pd i s :
  hidden_flags (refocused k n (moved pd i s)) = hidden_flags s.
Proof. by destruct pd. Qed.

Lemma prevented_flags s :
  expanded_flags (prevented s) = expanded_flags s
  /\ hidden_flags (prevented s) = hidden_flags s.
Proof. done. Qed.

Lemma mirrored_toggled k b s : mirrored s -> mirrored (toggled k b s).
Proof.
  intros Hm i e h. rewrite toggled_flags, toggled_hidden, list_insert_alter.
  rewrite !lookup_alter_case.
  destruct (expanded_flags s !! i) as [e0|] eqn:He; [|done].
  destruct (hidden_flags s !! i) as [h0|] eqn:Hh; [|done].
  cbn. intros [= <-] [= <-]. case_bool_decide; [|by eapply Hm].
  destruct b; cbn; tauto.
Qed.

Lemma mirrored_toggle_result k s : mirrored s -> mirrored (toggle_result k s).
Proof.
  intros Hm. unfold toggle_result.
  destruct (tabs s !! k); [|done].
  destruct (String.eqb _ _); [|by apply mirrored_toggled].
  destruct (query_expanded _ _) as [[j|g j]|]; [| |by apply mirrored_toggled].
  - destruct (multiple _); by repeat apply mirrored_toggled.
  - destruct (multiple _); by apply mirrored_toggled.
Qed.

Lemma mirrored_eq s s' :
  expanded_flags s' = expanded_flags s -> hidden_flags s' = hidden_flags s ->
  mirrored s -> mirrored s'.
Proof. unfold mirrored. by intros -> ->. Qed.

Lemma handled_mirrored s s' : handled s s' -> mirrored s -> mirrored s'.
Proof.
  intros [] Hm.
  - done.
  - eapply mirrored_eq; [apply refocused_moved_flags
                        |apply refocused_moved_hidden|done].
  - by apply mirrored_toggle_result.
  - apply mirrored_toggle_result.
    eapply mirrored_eq; [apply refocused_moved_flags
                        |apply refocused_moved_hidden|done].
Qed.

Lemma mirrored_init m : mirrored (accordion m).
Proof.
  intros i e h. unfold expanded_flags, hidden_flags, accordion. cbn [tabs panels].
  rewrite !list_lookup_fmap, !list_lookup_imap.
  destruct (markup_tabs m !! i); [|done].
  destruct (markup_panels m !! i); [|done].
  cbn. intros [= <-] [= <-]. destruct (has_expanded m); cbn; tauto.
Qed.



Lemma refocused_selected old new s :
  only_selected old s -> only_selected new (refocused old new s).
Proof.
  intros Hold j t. unfold refocused. cbn [tabs].
  rewrite !lookup_alter_case.
  destruct (tabs s !! j) as [t0|] eqn:Hj; cbn; [|done].
  specialize (Hold j t0 Hj). intros [= <-].
  repeat case_bool_decide; subst; cbn; try done; congruence.
Qed.

Lemma toggled_selected k0 k b s :
  only_selected k0 s -> only_selected k0 (toggled k b s).
Proof.
  intros H j t. unfold toggled. cbn [tabs]. rewrite lookup_alter_case.
  destruct (tabs s !! j) as [t0|] eqn:Hj; cbn; [|done].
  intros [= <-]. specialize (H j t0 Hj).
  destruct (bool_decide (k = j)); cbn; exact H.
Qed.

(** The current heading is the only selected one. *)
Definition selected_current (s : State) : Prop :=
  exists k, currentTab s = Some k /\ only_selected k s.

Lemma selected_toggled k b s : selected_current s -> selected_current (toggled k b s).
Proof. intros (k0 & Hc & Hs). exists k0. split; [done|]. by apply toggled_selected. Qed.

Lemma selected_toggle_result k s :
  selected_current s -> selected_current (toggle_result k s).
Proof.
  intros Hm. unfold toggle_result.
  destruct (tabs s !! k); [|done].
  destruct (String.eqb _ _); [|by apply selected_toggled].
  destruct (query_expanded _ _) as [[j|g j]|]; [| |by apply selected_toggled].
  - destruct (multiple _); by repeat apply selected_toggled.
  - destruct (multiple _); by apply selected_toggled.
Qed.

Lemma selected_refocused k n pd i s :
  currentTab s = Some k -> selected_current s ->
  selected_current (refocused k n (moved pd i s)).
Proof.
  intros Hk (k0 & Hc & Hs). rewrite Hc in Hk. injection Hk as ->.
  exists n. split; [done|]. apply refocused_selected.
  intros j t. destruct pd; apply Hs.
Qed.

Lemma handled_selected s s' :
  handled s s' -> selected_current s -> selected_current s'.
Proof.
  intros [] Hs.
  - done.
  - by apply selected_refocused.
  - apply selected_toggle_result. destruct Hs as (k0 & ? & ?). by exists k0.
  - by apply selected_toggle_result, selected_refocused.
Qed.

Lemma selected_init m : markup_tabs m <> [] -> selected_current (accordion m).
Proof.
  intros Hne. exists 0%nat. split.
  - unfold accordion. cbn [currentTab]. apply (array_ref_in_range _ 0).
    rewrite length_imap. destruct (markup_tabs m); [done|cbn; lia].
  - intros j t. unfold accordion. cbn [tabs]. rewrite list_lookup_imap.
    destruct (markup_tabs m !! j); cbn; [|done]. intros [= <-]. cbn.
    by destruct j.
Qed.

(** X2. In every state an accordion with at least one heading passes
    through between handlers, the heading at currentTabIndex has
    aria-selected true and every other heading has aria-selected false. *)
Theorem selected_follows_current KEYS fuel m s :
  markup_tabs m <> [] -> reachable KEYS fuel m s ->
  exists k, currentTabIndex s = Z.of_nat k
    /\ (k < length (tabs s))%nat
    /\ forall j t, tabs s !! j = Some t ->
         aria_selected t = if bool_decide (j = k) then "true" else "false".
Proof.
  intros Hne Hr.
  assert (selected_current s) as (k & Hc & Hs).
  { induction Hr as [|s0 inp s1 Hr IH Hs]; [by apply selected_init|].
    eapply handled_selected; [|done].
    eapply handle_handled; [|done]. by eapply reachable_Inv. }
  destruct (reachable_Inv _ _ _ _ Hne Hr) as [_ Ht _ _ (k' & Hi & Hc' & Hk & _)].
  exists k. rewrite Hc in Hc'. injection Hc' as ->. split; [done|].
  split; [lia|done].
Qed.

Lemma selected_follows_current_witness :
  markup_tabs (three_headings false false false) <> [] /\
  reachable dom_keys 2 (three_headings false false false) second_clicked /\
  exists k, currentTabIndex second_clicked = Z.of_nat k
    /\ (k < length (tabs second_clicked))%nat
    /\ forall j t, tabs second_clicked !! j = Some t ->
         aria_selected t = if bool_decide (j = k) then "true" else "false".
Proof.
  assert (markup_tabs (three_headings false false false) <> []) as H1
    by discriminate.
  pose proof second_clicked_reachable as H2.
  exact (conj H1 (conj H2 (selected_follows_current _ _ _ _ H1 H2))).
Defined.

(** X3. Away from the boundary the wrap-focus option plays no part: on a
    heading, a previous command at an index above 0 moves currentTabIndex
    one down, and a next command at an index below N-1 moves it one up. *)
Theorem interior_navigation KEYS fuel m s target which :
  markup_tabs m <> [] -> reachable KEYS fuel m s -> role_is_tab target = true ->
  (which = left KEYS \/ which = up KEYS ->
   0 < currentTabIndex s ->
   exists s', keydown KEYS fuel target which s = Done tt s'
         /\ currentTabIndex s' = currentTabIndex s - 1)
  /\ (which <> left KEYS -> which <> up KEYS ->
      which = right KEYS \/ which = down KEYS ->
      currentTabIndex s < Z.of_nat (length (markup_tabs m)) - 1 ->
      exists s', keydown KEYS fuel target which s = Done tt s'
            /\ currentTabIndex s' = currentTabIndex s + 1).
Proof.
  intros Hne Hr Htab. pose proof (reachable_Inv _ _ _ _ Hne Hr) as HI.
  destruct (HI) as [Ho _ _ Hl _].
  split.
  - intros Hw H0. rewrite keydown_eq, Htab.
    assert ((which =? left KEYS) || (which =? up KEYS) = true) as ->.
    { destruct Hw as [-> | ->]; rewrite Z.eqb_refl; [done|apply orb_true_r]. }
    destruct (nav_total m s true (prev_index s) HI
                (prev_index_range m s HI)) as (k & _ & ->).
    eexists. split; [done|]. cbn. unfold prev_index.
    destruct (Z.eqb_spec (currentTabIndex s) 0); [lia|].
    by destruct (wrapFocus _).
  - intros Hnl Hnu Hw Hlast. rewrite keydown_eq, Htab.
    assert ((which =? left KEYS) || (which =? up KEYS) = false) as ->.
    { apply orb_false_iff. split; by apply Z.eqb_neq. }
    assert ((which =? right KEYS) || (which =? down KEYS) = true) as ->.
    { destruct Hw as [-> | ->]; rewrite Z.eqb_refl; [done|apply orb_true_r]. }
    destruct (nav_total m s true (next_index s) HI
                (next_index_range m s HI)) as (k & _ & ->).
    eexists. split; [done|]. cbn. unfold next_index.
    destruct (Z.eqb_spec (currentTabIndex s) (lastTabIndex s)); [lia|].
    by destruct (wrapFocus _).
Qed.

Lemma interior_navigation_witness :
  markup_tabs (three_headings false false false) <> [] /\
  reachable dom_keys 2 (three_headings false false false) second_clicked /\
  role_is_tab (Heading 1) = true /\
  (37 = left dom_keys \/ 37 = up dom_keys) /\
  0 < currentTabIndex second_clicked /\
  exists s', keydown dom_keys 2 (Heading 1) 37 second_clicked = Done tt s'
        /\ currentTabIndex s' = currentTabIndex second_clicked - 1.
Proof.
  assert (markup_tabs (three_headings false false false) <> []) as H1
    by discriminate.
  pose proof second_clicked_reachable as H2.
  assert (role_is_tab (Heading 1) = true) as H3 by reflexivity.
  assert (37 = left dom_keys \/ 37 = up dom_keys) as H4 by (left; reflexivity).
  assert (0 < currentTabIndex second_clicked) as H5 by reflexivity.
  exact (conj H1 (conj H2 (conj H3 (conj H4 (conj H5
    (proj1 (interior_navigation dom_keys 2 _ _ (Heading 1) 37 H1 H2 H3) H4 H5)))))).
Defined.

(** X4. On a heading, End moves currentTabIndex to the last heading and
    prevents the default action first; Home moves it to the first heading
    and does not prevent the default action. *)
Theorem home_and_end KEYS fuel m s target which :
  markup_tabs m <> [] -> reachable KEYS fuel m s -> role_is_tab target = true ->
  which <> left KEYS -> which <> up KEYS ->
  which <> right KEYS -> which <> down KEYS ->
  (which = end_ KEYS ->
   exists s' k, currentTab s = Some k
     /\ keydown KEYS fuel target which s = Done tt s'
     /\ currentTabIndex s' = Z.of_nat (length (markup_tabs m)) - 1
     /\ trace s' = trace s ++ PreventDefault ::
          focus_transition k (length (markup_tabs m) - 1))
  /\ (which <> end_ KEYS -> which = home KEYS ->
      exists s' k, currentTab s = Some k
        /\ keydown KEYS fuel target which s = Done tt s'
        /\ currentTabIndex s' = 0
        /\ trace s' = trace s ++ focus_transition k 0).
Proof.
  intros Hne Hr Htab Hl Hu Hri Hd.
  pose proof (reachable_Inv _ _ _ _ Hne Hr) as HI.
  destruct (HI) as [_ _ _ Hlast _].
  assert ((which =? left KEYS) || (which =? up KEYS) = false) as E1.
  { apply orb_false_iff. split; by apply Z.eqb_neq. }
  assert ((which =? right KEYS) || (which =? down KEYS) = false) as E2.
  { apply orb_false_iff. split; by apply Z.eqb_neq. }
  split.
  - intros ->. rewrite keydown_eq, Htab, E1, E2, Z.eqb_refl.
    destruct (nav_total m s true (lastTabIndex s) HI
                (last_index_range m s HI)) as (k & Hk & ->).
    exists (refocused k (Z.to_nat (lastTabIndex s)) (moved true (lastTabIndex s) s)), k.
    split; [done|]. split; [done|]. split; [by cbn|].
    cbn. rewrite Hlast.
    replace (Z.to_nat (Z.of_nat (length (markup_tabs m)) - 1))
      with (length (markup_tabs m) - 1)%nat by lia.
    by rewrite <- app_assoc.
  - intros Hne' ->. rewrite keydown_eq, Htab, E1, E2.
    apply Z.eqb_neq in Hne'. rewrite Hne', Z.eqb_refl.
    destruct (nav_total m s false 0 HI (zero_index_range m s HI))
      as (k & Hk & ->).
    exists (refocused k (Z.to_nat 0) (moved false 0 s)), k.
    split; [done|]. split; [done|]. split; by cbn.
Qed.

Lemma home_and_end_witness :
  markup_tabs (three_headings false false false) <> [] /\
  reachable dom_keys 2 (three_headings false false false) second_clicked /\
  role_is_tab (Heading 1) = true /\
  36 <> left dom_keys /\ 36 <> up dom_keys /\
  36 <> right dom_keys /\ 36 <> down dom_keys /\
  36 <> end_ dom_keys /\ 36 = home dom_keys /\
  exists s' k, currentTab second_clicked = Some k
    /\ keydown dom_keys 2 (Heading 1) 36 second_clicked = Done tt s'
    /\ currentTabIndex s' = 0
    /\ trace s' = trace second_clicked ++ focus_transition k 0.
Proof.
  assert (markup_tabs (three_headings false false false) <> []) as H1
    by discriminate.
  pose proof second_clicked_reachable as H2.
  assert (role_is_tab (Heading 1) = true) as H3 by reflexivity.
  assert (36 <> left dom_keys) as H4 by discriminate.
  assert (36 <> up dom_keys) as H5 by discriminate.
  assert (36 <> right dom_keys) as H6 by discriminate.
  assert (36 <> down dom_keys) as H7 by discriminate.
  assert (36 <> end_ dom_keys) as H8 by discriminate.
  assert (36 = home dom_keys) as H9 by reflexivity.
  exact (conj H1 (conj H2 (conj H3 (conj H4 (conj H5 (conj H6 (conj H7
    (conj H8 (conj H9
      (proj2 (home_and_end dom_keys 2 _ _ (Heading 1) 36
                H1 H2 H3 H4 H5 H6 H7) H8 H9)))))))))).
Defined.

(** X5. What the listeners leave alone: a keydown or a pointer-down whose
    target is not a heading, and a keydown on a heading with a key that is
    none of the eight handled ones, change nothing; in particular the
    default action is not prevented. *)
Theorem ignored_input KEYS fuel s target which :
  (role_is_tab target = false ->
   keydown KEYS fuel target which s = Done tt s
   /\ mousedown fuel target s = Done tt s)
  /\ (which <> left KEYS -> which <> up KEYS -> which <> right KEYS ->
      which <> down KEYS -> which <> end_ KEYS -> which <> home KEYS ->
      which <> enter KEYS -> which <> space KEYS ->
      keydown KEYS fuel target which s = Done tt s).
Proof.
  split.
  - intros Hn. by rewrite keydown_eq, mousedown_eq, Hn.
  - intros H1 H2 H3 H4 H5 H6 H7 H8. rewrite keydown_eq.
    destruct (role_is_tab target); [|done].
    apply Z.eqb_neq in H1, H2, H3, H4, H5, H6, H7, H8.
    by rewrite H1, H2, H3, H4, H5, H6, H7, H8.
Qed.

Lemma ignored_input_witness :
  role_is_tab NotHeading = false /\
  keydown dom_keys 2 NotHeading 13 second_clicked = Done tt second_clicked /\
  mousedown 2 NotHeading second_clicked = Done tt second_clicked.
Proof.
  assert (role_is_tab NotHeading = false) as H1 by reflexivity.
  exact (conj H1
    (proj1 (ignored_input dom_keys 2 second_clicked NotHeading 13) H1)).
Defined.

(** X8. Headings the constructor did not collect: a pointer-down on one
    faults, in any state, and in an accordion without headings every
    handled key pressed on one faults. *)
Theorem uncollected_heading_faults KEYS fuel m s h target which :
  (~ (h < length (tabs s))%nat -> mousedown fuel (Heading h) s = Fault)
  /\ (markup_tabs m = [] -> role_is_tab target = true ->
      which = left KEYS \/ which = up KEYS \/ which = right KEYS
      \/ which = down KEYS \/ which = end_ KEYS \/ which = home KEYS
      \/ which = enter KEYS \/ which = space KEYS ->
      keydown KEYS fuel target which (accordion m) = Fault).
Proof.
  split.
  - intros Hh. rewrite mousedown_eq. cbn [role_is_tab indexOf].
    rewrite bool_decide_false by done.
    rewrite updateFocusState_fault_undefined; [done|].
    unfold moved, array_ref. by cbn.
  - intros Hnil Htab Hw. rewrite keydown_eq, Htab.
    assert (currentTab (accordion m) = None) as Hc
      by (unfold accordion; by rewrite Hnil).
    rewrite Hc.
    rewrite !updateFocusState_fault_no_current by exact Hc.
    destruct ((which =? left KEYS) || (which =? up KEYS)) eqn:E1; [done|].
    destruct ((which =? right KEYS) || (which =? down KEYS)) eqn:E2; [done|].
    destruct (which =? end_ KEYS) eqn:E3; [done|].
    destruct (which =? home KEYS) eqn:E4; [done|].
    destruct ((which =? enter KEYS) || (which =? space KEYS)) eqn:E5; [done|].
    apply orb_false_iff in E1 as [?%Z.eqb_neq ?%Z.eqb_neq].
    apply orb_false_iff in E2 as [?%Z.eqb_neq ?%Z.eqb_neq].
    apply orb_false_iff in E5 as [?%Z.eqb_neq ?%Z.eqb_neq].
    apply Z.eqb_neq in E3, E4. intuition.
Qed.

Lemma uncollected_heading_faults_witness :
  ~ (7 < length (tabs second_clicked))%nat /\
  mousedown 2 (Heading 7) second_clicked = Fault.
Proof.
  assert (~ (7 < length (tabs second_clicked))%nat) as H1
    by (vm_compute; lia).
  exact (conj H1
    (proj1 (uncollected_heading_faults dom_keys 2
              (three_headings false false false) second_clicked 7
              NotHeading 0) H1)).
Defined.

Lemma reachable_options KEYS fuel m s :
  reachable KEYS fuel m s ->
  OPTIONS s = mkOptions (has_expanded m) (has_multiple m) (has_wrap_focus m)
  /\ length (tabs s) = length (markup_tabs m)
  /\ length (panels s) = length (markup_panels m).
Proof.
  intros Hr. destruct (decide (markup_tabs m = [])) as [Hnil|Hne].
  - rewrite (reachable_no_headings _ _ _ _ Hnil Hr). unfold accordion.
    cbn. by rewrite !length_imap.
  - by destruct (reachable_Inv _ _ _ _ Hne Hr).
Qed.

Lemma reachable_mirrored KEYS fuel m s : reachable KEYS fuel m s -> mirrored s.
Proof.
  intros Hr. destruct (decide (markup_tabs m = [])) as [Hnil|Hne].
  - rewrite (reachable_no_headings _ _ _ _ Hnil Hr). apply mirrored_init.
  - induction Hr as [|s0 inp s1 Hr IH Hs]; [apply mirrored_init|].
    eapply handled_mirrored; [|by apply IH].
    eapply handle_handled; [|done]. by eapply reachable_Inv.
Qed.

(** X6. With [multiple], activating a heading changes the expanded flag of
    that heading only, and activating it again brings every heading's
    aria-expanded and every panel's aria-hidden back to what they were. *)
Theorem multiple_toggle_round_trip KEYS fuel m s k :
  has_multiple m = true -> reachable KEYS fuel m s ->
  (k < length (markup_tabs m))%nat ->
  (length (markup_tabs m) <= length (markup_panels m))%nat ->
  (1 <= fuel)%nat ->
  exists s1 s2,
    toggleTabPanel fuel (ExTab k) s = Done tt s1
    /\ toggleTabPanel fuel (ExTab k) s1 = Done tt s2
    /\ (forall j, j <> k -> expanded_flags s1 !! j = expanded_flags s !! j)
    /\ expanded_flags s1 !! k <> expanded_flags s !! k
    /\ expanded_flags s2 = expanded_flags s
    /\ hidden_flags s2 = hidden_flags s.
Proof.
  intros Hmu Hr Hk Hp Hf.
  destruct (reachable_options _ _ _ _ Hr) as (Ho & Hlt & Hlp).
  pose proof (reachable_mirrored _ _ _ _ Hr) as Hmir.
  destruct fuel as [|f]; [lia|].
  assert (k < length (tabs s))%nat as Hk' by lia.
  destruct (lookup_lt_is_Some_2 _ _ Hk') as [t Ht].
  assert (k < length (panels s))%nat as Hkp by lia.
  destruct (lookup_lt_is_Some_2 _ _ Hkp) as [p Hpk].
  assert (multiple (OPTIONS s) = true) as Hms by (by rewrite Ho).
  pose proof (flags_lookup _ _ _ Ht) as Hfk.
  assert (hidden_flags s !! k = Some (aria_hidden p)) as Hhk
    by (unfold hidden_flags; by rewrite list_lookup_fmap, Hpk).
  destruct (Hmir k _ _ Hfk Hhk) as [[He Hh]|[He Hh]].
  - (* expanded: collapse, then expand *)
    exists (toggled k false s), (toggled k true (toggled k false s)).
    split; [eapply toggle_collapse; eauto; by rewrite He|].
    split.
    { eapply toggle_expand_alone.
      - cbn [tabs toggled]. rewrite list_lookup_alter_eq, Ht. done.
      - done.
      - by left.
      - cbn [panels toggled]. by rewrite length_alter. }
    rewrite !toggled_flags, !toggled_hidden. cbn [negb js_string_of_bool].
    split; [intros j Hj; by rewrite list_lookup_insert_ne|].
    split.
    { rewrite list_lookup_insert_eq by (unfold expanded_flags;
        by rewrite length_fmap). rewrite Hfk, He. done. }
    split.
    + rewrite list_insert_insert_eq. apply list_insert_id. by rewrite Hfk, He.
    + rewrite <- !list_insert_alter, list_insert_insert_eq.
      apply list_insert_id. by rewrite Hhk, Hh.
  - (* collapsed: expand, then collapse *)
    exists (toggled k true s), (toggled k false (toggled k true s)).
    split; [eapply toggle_expand_alone; eauto|].
    split.
    { eapply toggle_collapse.
      - cbn [tabs toggled]. rewrite list_lookup_alter_eq, Ht. done.
      - done.
      - cbn [panels toggled]. by rewrite length_alter. }
    rewrite !toggled_flags, !toggled_hidden. cbn [negb js_string_of_bool].
    split; [intros j Hj; by rewrite list_lookup_insert_ne|].
    split.
    { rewrite list_lookup_insert_eq by (unfold expanded_flags;
        by rewrite length_fmap). rewrite Hfk, He. done. }
    split.
    + rewrite list_insert_insert_eq. apply list_insert_id. by rewrite Hfk, He.
    + rewrite <- !list_insert_alter, list_insert_insert_eq.
      apply list_insert_id. by rewrite Hhk, Hh.
Qed.

Lemma multiple_toggle_round_trip_witness :
  has_multiple (three_headings false true false) = true /\
  reachable dom_keys 2 (three_headings false true false)
    (accordion (three_headings false true false)) /\
  (1 < length (markup_tabs (three_headings false true false)))%nat /\
  (length (markup_tabs (three_headings false true false))
   <= length (markup_panels (three_headings false true false)))%nat /\
  (1 <= 2)%nat /\
  exists s1 s2,
    toggleTabPanel 2 (ExTab 1) (accordion (three_headings false true false))
    = Done tt s1
    /\ toggleTabPanel 2 (ExTab 1) s1 = Done tt s2
    /\ expanded_flags s2
       = expanded_flags (accordion (three_headings false true false)).
Proof.
  assert (has_multiple (three_headings false true false) = true) as H1
    by reflexivity.
  pose proof (reachable_init dom_keys 2 (three_headings false true false)) as H2.
  assert (1 < length (markup_tabs (three_headings false true false)))%nat as H3
    by (cbn; lia).
  assert (length (markup_tabs (three_headings false true false))
          <= length (markup_panels (three_headings false true false)))%nat as H4
    by (cbn; lia).
  assert (1 <= 2)%nat as H5 by lia.
  destruct (multiple_toggle_round_trip dom_keys 2 _ _ 1%nat H1 H2 H3 H4 H5)
    as (s1 & s2 & Ha & Hb & _ & _ & Hc & _).
  exact (conj H1 (conj H2 (conj H3 (conj H4 (conj H5
    (ex_intro _ s1 (ex_intro _ s2 (conj Ha (conj Hb Hc))))))))).
Defined.

Lemma toggle_result_others_count k s :
  (others_count (toggle_result k s) <= others_count s)%nat.
Proof.
  unfold toggle_result.
  destruct (tabs s !! k); [|done].
  destruct (String.eqb _ _); [|done].
  destruct (query_expanded _ _) as [[j|g j]|] eqn:Hq; [| |done].
  - by destruct (multiple _).
  - destruct (multiple _); [done|].
    apply query_expanded_other in Hq as (o & Ho & He).
    pose proof (others_count_closed g j (default 0%nat (resolved s g j)) s o Ho He).
    change (others_count (toggled k true (nested_closed (ExOther g j) s)))
      with (others_count (other_closed g j (default 0%nat (resolved s g j)) s)).
    lia.
Qed.

Lemma handled_others_count s s' :
  handled s s' -> (others_count s' <= others_count s)%nat.
Proof.
  intros [].
  - done.
  - by destruct pd.
  - apply (toggle_result_others_count k (prevented s)).
  - apply (toggle_result_others_count h
             (refocused k h (moved false (Z.of_nat h) s))).
Qed.

Lemma reachable_others_count KEYS fuel m s :
  reachable KEYS fuel m s ->
  (others_count s <= count_true (other_flags (markup_others m)))%nat.
Proof.
  intros Hr. destruct (decide (markup_tabs m = [])) as [Hnil|Hne].
  { by rewrite (reachable_no_headings _ _ _ _ Hnil Hr). }
  induction Hr as [|s0 inp s1 Hr IH Hs]; [done|].
  etrans; [|exact IH]. apply handled_others_count.
  eapply handle_handled; [|done]. by eapply reachable_Inv.
Qed.

(** X7. Without [multiple], no handler raises the number of elements under
    the root whose aria-expanded is true, headings and others alike, above
    one, and once there is one no handler raises it at all: each expansion
    first closes one of them. When the headings are the only elements that
    carry the attribute with that value, this is the number of expanded
    panels: an accordion that starts with every panel expanded only ever
    loses expanded panels. *)
Theorem expanded_count_never_grows KEYS fuel m s i s' :
  has_multiple m = false -> reachable KEYS fuel m s ->
  handle KEYS fuel i s = Done tt s' ->
  ((matching_count s' <= Nat.max (matching_count s) 1)%nat
   /\ ((1 <= matching_count s)%nat -> (matching_count s' <= matching_count s)%nat))
  /\ (only_headings_expand (markup_others m) ->
      (expanded_count s' <= Nat.max (expanded_count s) 1)%nat
      /\ ((1 <= expanded_count s)%nat ->
          (expanded_count s' <= expanded_count s)%nat)).
Proof.
  intros Hmu Hr Hs.
  destruct (reachable_options _ _ _ _ Hr) as (Ho & _ & _).
  assert (multiple (OPTIONS s) = false) as Hms by (by rewrite Ho).
  assert ((matching_count s' <= Nat.max (matching_count s) 1)%nat
          /\ ((1 <= matching_count s)%nat ->
              (matching_count s' <= matching_count s)%nat)) as Hb.
  { destruct (decide (markup_tabs m = [])) as [Hnil|Hne].
    { assert (s' = s) as ->; [|lia]. eapply handle_no_current; [|done].
      rewrite (reachable_no_headings _ _ _ _ Hnil Hr). unfold accordion.
      by rewrite Hnil. }
    pose proof (reachable_Inv _ _ _ _ Hne Hr) as HI.
    destruct (handle_handled _ _ _ _ _ _ HI Hs).
    - lia.
    - rewrite refocused_moved_matching. lia.
    - apply (toggle_result_bound k (prevented s)). done.
    - pose proof (toggle_result_bound h
                    (refocused k h (moved false (Z.of_nat h) s)) Hms) as Hb.
      rewrite refocused_moved_matching in Hb. done. }
  split; [exact Hb|]. intros Hoh.
  pose proof (only_headings_count _ Hoh) as H0.
  pose proof (reachable_others_count _ _ _ _ Hr) as H1.
  pose proof (reachable_others_count _ _ _ _
                (reachable_step _ _ _ _ _ _ Hr Hs)) as H2.
  unfold matching_count in Hb. lia.
Qed.

Lemma expanded_count_never_grows_witness :
  has_multiple with_disclosures = false /\
  reachable dom_keys 2 with_disclosures (accordion with_disclosures) /\
  handle dom_keys 2 (Mousedown (Heading 2)) (accordion with_disclosures)
  = Done tt (toggle_result 2
               (refocused 0 2 (moved false 2 (accordion with_disclosures))))
  /\ (matching_count
        (toggle_result 2
           (refocused 0 2 (moved false 2 (accordion with_disclosures))))
      <= Nat.max (matching_count (accordion with_disclosures)) 1)%nat.
Proof.
  assert (has_multiple with_disclosures = false) as H1 by reflexivity.
  pose proof (reachable_init dom_keys 2 with_disclosures) as H2.
  assert (handle dom_keys 2 (Mousedown (Heading 2)) (accordion with_disclosures)
          = Done tt (toggle_result 2
               (refocused 0 2 (moved false 2 (accordion with_disclosures)))))
    as H3 by (vm_compute; reflexivity).
  exact (conj H1 (conj H2 (conj H3
    (proj1 (proj1 (expanded_count_never_grows _ _ _ _ _ _ H1 H2 H3)))))).
Defined.

Lemma toggle_result_trace k s :
  (k < length (tabs s))%nat ->
  exists rest ev,
    trace (toggle_result k s)
    = trace s ++ rest ++ [DispatchEvent ev true (TabEl k)]
    /\ (ev = "accordion-expanded" \/ ev = "accordion-collapsed")
    /\ Forall (fun e => forall el, e <> Focus el) rest
    /\ Forall (fun e => e <> DispatchEvent "accordion-focused" true (TabEl k)
                      /\ e <> DispatchEvent "accordion-blurred" true (TabEl k))
              rest.
Proof.
  intros Hk. destruct (lookup_lt_is_Some_2 _ _ Hk) as [t Ht].
  unfold toggle_result. rewrite Ht.
  destruct (String.eqb _ _).
  - destruct (query_expanded _ _) as [[j|g j]|];
      [destruct (multiple _)|destruct (multiple _)|].
    + eexists [_; _], _. cbn. rewrite <- ?app_assoc. cbn.
      split; [done|]. split; [by left|]. split; repeat constructor; done.
    + eexists [_; _; _; _; _], _. cbn. rewrite <- ?app_assoc. cbn.
      split; [done|]. split; [by left|]. split; repeat constructor; done.
    + eexists [_; _], _. cbn. rewrite <- ?app_assoc. cbn.
      split; [done|]. split; [by left|]. split; repeat constructor; done.
    + eexists [_; _; _; _; _], _. cbn. rewrite <- ?app_assoc. cbn.
      split; [done|]. split; [by left|]. split; repeat constructor; done.
    + eexists [_; _], _. cbn. rewrite <- ?app_assoc. cbn.
      split; [done|]. split; [by left|]. split; repeat constructor; done.
  - eexists [_; _], _. cbn. rewrite <- ?app_assoc. cbn.
    split; [done|]. split; [by right|]. split; repeat constructor; done.
Qed.

(** A three-heading accordion whose first panel holds an open disclosure
    button without an aria-controls attribute: the query of line 211 looks
    for the id null and finds nothing. *)
Definition with_dangling : Markup :=
  mkMarkup false false false
           (replicate 3 (mkTab "" "" "")) (replicate 3 (mkPanel ""))
           [[]; [mkOther "true" (Resolves None)]] [].

(** The query reads the aria-expanded attributes only. *)
Lemma query_from_flags g ts ts' oss :
  aria_expanded <$> ts = aria_expanded <$> ts' ->
  query_from g ts oss = query_from g ts' oss.
Proof.
  revert g ts' oss. induction ts as [|t ts IH]; intros g [|t' ts'] oss; try done.
  cbn. intros [= Ht Hts]. rewrite Ht, (IH _ ts') by done. done.
Qed.

Lemma query_expanded_refocused k n pd i s :
  query_expanded (tabs (refocused k n (moved pd i s)))
                 (others (refocused k n (moved pd i s)))
  = query_expanded (tabs s) (others s).
Proof.
  unfold query_expanded.
  replace (others (refocused k n (moved pd i s))) with (others s)
    by (by destruct pd).
  apply query_from_flags. apply (refocused_moved_flags k n pd i s).
Qed.

(** The nested call faults on an other element whose aria-controls names no
    element. *)
Lemma other_unresolved_fault f g j s o :
  lookup_other (others s) g j = Some o -> other_expanded o = "true" ->
  resolved s g j = None ->
  toggleTabPanel (S f) (ExOther g j) s = Fault.
Proof.
  intros Ho He. unfold resolved. rewrite Ho.
  mstart s. cbn [toggleTabPanel]. munfold. rewrite Ho. munfold.
  destruct (other_controls o) as [|[i|]]; [done| |].
  - unfold query_panel. case_bool_decide; [done|]. intros _.
    cbn [fmap option_fmap option_map]. munfold. rewrite Ho. munfold.
    rewrite He. cbn [String.eqb Ascii.eqb Bool.eqb]. by munfold.
  - intros _. munfold. rewrite Ho. munfold.
    rewrite He. cbn [String.eqb Ascii.eqb Bool.eqb]. by munfold.
Qed.

(** X9. A pointer-down on a collected heading, in an accordion where every
    heading has a panel. When every other element the query of line 218
    can return names an element by its aria-controls, the handler first
    moves the roving focus to that heading and only then toggles its panel:
    currentTabIndex becomes the heading's index, the heading has the focus,
    and in the trace the whole focus transition comes before every step of
    the toggle, whose last step is the expanded or collapsed notification
    for that heading. When the heading is collapsed and the query returns
    an other element that names no element, the handler faults instead: the
    nested call throws before the heading is expanded. *)
Theorem pointer_activation KEYS fuel m s h :
  markup_tabs m <> [] -> reachable KEYS fuel m s ->
  (h < length (markup_tabs m))%nat ->
  (length (markup_tabs m) <= length (markup_panels m))%nat ->
  (2 <= fuel)%nat ->
  (resolvable (markup_others m) (markup_controlled m) ->
   exists s' k rest ev,
     currentTab s = Some k
     /\ mousedown fuel (Heading h) s = Done tt s'
     /\ currentTabIndex s' = Z.of_nat h
     /\ currentTab s' = Some h
     /\ activeElement s' = Some (TabEl h)
     /\ trace s' = trace s ++ focus_transition k h ++ rest
                   ++ [DispatchEvent ev true (TabEl h)]
     /\ (ev = "accordion-expanded" \/ ev = "accordion-collapsed")
     /\ Forall (fun e => forall el, e <> Focus el) rest)
  /\ (forall t g j,
        has_multiple m = false ->
        tabs s !! h = Some t -> aria_expanded t = "false" ->
        query_expanded (tabs s) (others s) = Some (ExOther g j) ->
        resolved s g j = None ->
        mousedown fuel (Heading h) s = Fault).
Proof.
  intros Hne Hr Hh Hp Hf. pose proof (reachable_Inv _ _ _ _ Hne Hr) as HI.
  destruct (HI) as [Hopt Ht Hpl Hl _].
  assert (0 <= Z.of_nat h <= lastTabIndex s) as Hrange by lia.
  destruct (nav_total m s false (Z.of_nat h) HI Hrange) as (k & Hk & Hnav).
  rewrite Nat2Z.id in Hnav.
  set (s1 := refocused k h (moved false (Z.of_nat h) s)) in *.
  assert (h < length (tabs s1))%nat as Hh1.
  { unfold s1, refocused. cbn [tabs moved set_currentTabIndex].
    rewrite !length_alter. lia. }
  split.
  - intros Hres.
    pose proof (reachable_resolvable _ _ _ _ Hres Hr) as Hrs.
    destruct (toggle_result_trace h s1 Hh1) as (rest & ev & Htr & Hev & Hrest & _).
    exists (toggle_result h s1), k, rest, ev.
    split; [done|]. split.
    { rewrite mousedown_eq. cbn [role_is_tab indexOf].
      rewrite bool_decide_true by lia. rewrite Hnav.
      change (currentTab s1) with (Some h).
      apply toggle_total; [done|done| |done].
      unfold s1, refocused. cbn [tabs panels moved set_currentTabIndex].
      rewrite !length_alter. lia. }
    assert (currentTabIndex (toggle_result h s1) = Z.of_nat h
            /\ currentTab (toggle_result h s1) = Some h
            /\ activeElement (toggle_result h s1) = Some (TabEl h)) as (?&?&?).
    { unfold toggle_result.
      destruct (tabs s1 !! h); [|done].
      destruct (String.eqb _ _); [|done].
      destruct (query_expanded _ _) as [[j|g j]|]; [| |done];
        by destruct (multiple _). }
    repeat split; try done.
    rewrite Htr. unfold s1. cbn [trace refocused moved set_currentTabIndex].
    by rewrite <- !app_assoc.
  - intros t g j Hmu Hth He Hq Hnone.
    rewrite mousedown_eq. cbn [role_is_tab indexOf].
    rewrite bool_decide_true by lia. rewrite Hnav.
    change (currentTab s1) with (Some h).
    destruct (lookup_lt_is_Some_2 _ _ Hh1) as [t1 Ht1].
    assert (aria_expanded t1 = "false") as He1.
    { pose proof (flags_lookup _ _ _ Ht1) as H1.
      unfold s1 in H1. rewrite refocused_moved_flags in H1.
      rewrite (flags_lookup _ _ _ Hth) in H1. congruence. }
    assert (query_expanded (tabs s1) (others s1) = Some (ExOther g j)) as Hq1.
    { unfold s1. by rewrite query_expanded_refocused. }
    destruct fuel as [|[|f]]; [lia|lia|].
    rewrite (toggle_expand_unfold (S f) h s1 t1 (ExOther g j)); try done.
    2:{ change (OPTIONS s1) with (OPTIONS s). by rewrite Hopt. }
    apply query_expanded_other in Hq as (o & Ho & Heo).
    by rewrite (other_unresolved_fault f g j s1 o).
Qed.

Lemma pointer_activation_witness :
  markup_tabs (three_headings false false false) <> [] /\
  reachable dom_keys 2 (three_headings false false false) second_clicked /\
  (2 < length (markup_tabs (three_headings false false false)))%nat /\
  (length (markup_tabs (three_headings false false false))
   <= length (markup_panels (three_headings false false false)))%nat /\
  resolvable (markup_others (three_headings false false false))
             (markup_controlled (three_headings false false false)) /\
  (2 <= 2)%nat /\
  (exists s', mousedown 2 (Heading 2) second_clicked = Done tt s'
         /\ currentTabIndex s' = 2) /\
  mousedown 2 (Heading 0) (accordion with_dangling) = Fault.
Proof.
  assert (markup_tabs (three_headings false false false) <> []) as H1
    by discriminate.
  pose proof second_clicked_reachable as H2.
  assert (2 < length (markup_tabs (three_headings false false false)))%nat as H3
    by (cbn; lia).
  assert (length (markup_tabs (three_headings false false false))
          <= length (markup_panels (three_headings false false false)))%nat as H4
    by (cbn; lia).
  assert (resolvable (markup_others (three_headings false false false))
            (markup_controlled (three_headings false false false))) as Hres
    by (intros g j o Ho; by destruct g).
  assert (2 <= 2)%nat as H5 by lia.
  destruct (proj1 (pointer_activation dom_keys 2 _ _ 2%nat H1 H2 H3 H4 H5) Hres)
    as (s' & k & rest & ev & _ & Ha & Hb & _).
  assert (markup_tabs with_dangling <> []) as D1 by discriminate.
  pose proof (reachable_init dom_keys 2 with_dangling) as D2.
  assert (0 < length (markup_tabs with_dangling))%nat as D3 by (cbn; lia).
  assert (length (markup_tabs with_dangling)
          <= length (markup_panels with_dangling))%nat as D4 by (cbn; lia).
  assert (has_multiple with_dangling = false) as D5 by reflexivity.
  assert (tabs (accordion with_dangling) !! 0%nat = Some (mkTab "false" "true" "0"))
    as D6 by reflexivity.
  assert (query_expanded (tabs (accordion with_dangling))
            (others (accordion with_dangling)) = Some (ExOther 1 0)) as D7
    by reflexivity.
  assert (resolved (accordion with_dangling) 1 0 = None) as D8 by reflexivity.
  exact (conj H1 (conj H2 (conj H3 (conj H4 (conj Hres (conj H5
    (conj (ex_intro _ s' (conj Ha Hb))
       (proj2 (pointer_activation dom_keys 2 _ _ 0%nat D1 D2 D3 D4 H5)
          _ _ _ D5 D6 eq_refl D7 D8)))))))).
Defined.

End AccordionExtra.

(** ** Properties of the generated identifiers *)
Module AccordionIdsSpec.
Import Accordion AccordionIds.

Lemma concat_number_inj prefix a b :
  concat_number prefix a = concat_number prefix b -> a = b.
Proof.
  unfold concat_number. intros H.
  apply (inj (String.append prefix)) in H. by apply (inj pretty) in H.
Qed.

Lemma tab_panel_prefix a b : concat_number TAB_ID a <> concat_number PANEL_ID b.
Proof.
  unfold concat_number, TAB_ID, PANEL_ID. intros H.
  cbv [String.append] in H. congruence.
Qed.

Lemma lookup_numbered prefix uid n i x :
  ((fun i => concat_number prefix (uid + N.of_nat i)) <$> seq 0 n) !! i = Some x
  <-> (i < n)%nat /\ x = concat_number prefix (uid + N.of_nat i).
Proof.
  rewrite list_lookup_fmap. split.
  - destruct (seq 0 n !! i) as [j|] eqn:Hj; [|done].
    apply lookup_seq in Hj as [-> ?]. cbn. intros [= <-]. done.
  - intros [Hi ->]. by rewrite (lookup_seq_lt 0 n i Hi).
Qed.

Lemma find_numbered prefix uid n k :
  (k < n)%nat ->
  list_find (fun x => x = concat_number prefix (uid + N.of_nat k))
    ((fun i => concat_number prefix (uid + N.of_nat i)) <$> seq 0 n)
  = Some (k, concat_number prefix (uid + N.of_nat k)).
Proof.
  intros Hk. apply list_find_Some. split; [by apply lookup_numbered|].
  split; [done|]. intros j y [Hj ->]%lookup_numbered Hlt Heq.
  apply concat_number_inj in Heq. lia.
Qed.

Lemma find_numbered_none prefix uid n k :
  ~ (k < n)%nat ->
  list_find (fun x => x = concat_number prefix (uid + N.of_nat k))
    ((fun i => concat_number prefix (uid + N.of_nat i)) <$> seq 0 n)
  = None.
Proof.
  intros Hk. apply list_find_None, Forall_forall. intros x Hx Heq. subst x.
  apply list_elem_of_lookup in Hx as [j [Hj Heq]%lookup_numbered].
  apply concat_number_inj in Heq. lia.
Qed.

Lemma find_other_prefix uid n a :
  list_find (fun x => x = concat_number PANEL_ID a)
    ((fun i => concat_number TAB_ID (uid + N.of_nat i)) <$> seq 0 n) = None.
Proof.
  apply list_find_None, Forall_forall. intros x Hx Heq. subst x.
  apply list_elem_of_lookup in Hx as [j [Hj Heq]%lookup_numbered].
  symmetry in Heq. by apply tab_panel_prefix in Heq.
Qed.

(** X10. The ids wire each heading to the panel at its own position: the
    lookup by id that toggleTabPanel makes with a heading's aria-controls
    finds the panel at the heading's index, or nothing when there are fewer
    panels than that, which is the positional lookup [query_panel]; and
    each panel's aria-labelledby is the id of the heading at its index. *)
Theorem ids_wire_by_position uid m k c :
  tab_controls (wire uid m) !! k = Some c ->
  query_id (wire uid m) c
  = PanelEl <$> query_panel (markup_panels m) k
  /\ (forall l, panel_labelledby (wire uid m) !! k = Some l ->
       tab_id (wire uid m) !! k = Some l).
Proof.
  intros Hc. unfold wire in *. cbn [tab_controls tab_id panel_id panel_labelledby] in *.
  apply lookup_numbered in Hc as [Hk ->]. split.
  - unfold query_id. cbn [tab_id panel_id].
    rewrite find_other_prefix. unfold query_panel.
    case_bool_decide as Hp.
    + by rewrite find_numbered.
    + by rewrite find_numbered_none.
  - intros l [_ ->]%lookup_numbered. by apply lookup_numbered.
Qed.

Lemma ids_wire_by_position_witness :
  let m := mkMarkup false false false
             (replicate 3 (mkTab "" "" "")) (replicate 2 (mkPanel "")) [] [] in
  tab_controls (wire 1 m) !! 1%nat = Some "ae_accordion-panel2" /\
  query_id (wire 1 m) "ae_accordion-panel2"
  = PanelEl <$> query_panel (markup_panels m) 1.
Proof.
  intros m.
  assert (tab_controls (wire 1 m) !! 1%nat = Some "ae_accordion-panel2") as H1
    by (vm_compute; reflexivity).
  exact (conj H1 (proj1 (ids_wire_by_position 1 m 1 _ H1))).
Defined.

Lemma NoDup_numbered prefix uid n :
  NoDup ((fun i => concat_number prefix (uid + N.of_nat i)) <$> seq 0 n).
Proof.
  apply NoDup_fmap_2_strong; [|apply NoDup_seq].
  intros i j _ _ Heq. apply concat_number_inj in Heq. lia.
Qed.

(** X11. The ids are unique: within one accordion no two of its headings
    and panels share an id, and the headings of an accordion built next,
    from the advanced counter, share no id with the headings of the first.
    The same holds for the panels when the first accordion has no more
    panels than headings. *)
Theorem ids_unique uid m m' :
  NoDup (tab_id (wire uid m) ++ panel_id (wire uid m))
  /\ (forall x, x ∈ tab_id (wire uid m) ->
       x ∉ tab_id (wire (uid_after (wire uid m)) m'))
  /\ ((length (markup_panels m) <= length (markup_tabs m))%nat ->
      forall x, x ∈ panel_id (wire uid m) ->
        x ∉ panel_id (wire (uid_after (wire uid m)) m')).
Proof.
  unfold wire. cbn [tab_id panel_id uid_after]. split; [|split].
  - apply NoDup_app. split; [apply NoDup_numbered|].
    split; [|apply NoDup_numbered].
    intros x [i [_ ->]%lookup_numbered]%list_elem_of_lookup
             [j [_ Heq]%lookup_numbered]%list_elem_of_lookup.
    by apply tab_panel_prefix in Heq.
  - intros x [i [Hi ->]%lookup_numbered]%list_elem_of_lookup
             [j [_ Heq]%lookup_numbered]%list_elem_of_lookup.
    apply concat_number_inj in Heq. lia.
  - intros Hle x [i [Hi ->]%lookup_numbered]%list_elem_of_lookup
             [j [_ Heq]%lookup_numbered]%list_elem_of_lookup.
    apply concat_number_inj in Heq. lia.
Qed.

Lemma ids_unique_witness :
  let m := mkMarkup false false false
             (replicate 2 (mkTab "" "" "")) (replicate 2 (mkPanel "")) [] [] in
  (length (markup_panels m) <= length (markup_tabs m))%nat /\
  "ae_accordion-panel2" ∈ panel_id (wire 1 m) /\
  "ae_accordion-panel2" ∉ panel_id (wire (uid_after (wire 1 m)) m).
Proof.
  intros m.
  assert (length (markup_panels m) <= length (markup_tabs m))%nat as H1
    by (cbn; lia).
  assert ("ae_accordion-panel2" ∈ panel_id (wire 1 m)) as H2
    by (apply list_elem_of_lookup; exists 1%nat; vm_compute; reflexivity).
  exact (conj H1 (conj H2 (proj2 (proj2 (ids_unique 1 m m)) H1 _ H2))).
Defined.

End AccordionIdsSpec.

(** ** Further properties of the inert-based dialog controller *)
Module InertDialogExtra.
Import Dom InertDialog InertDialogSpec.

Lemma open_is_open c s : has_open (open c s) = true.
Proof.
  destruct (has_open s) eqn:Ho.
  - unfold open. by rewrite Ho.
  - by destruct (open_closed c s Ho) as (? & _).
Qed.

Lemma close_fields c s :
  let s' := state_of (close c s) in
  has_open s' = false
  /\ (has_open s = true ->
      ("click" ∉ listeners s') /\ ("keydown" ∉ listeners s')
      /\ (forall el, el ∈ inert s' <-> el ∈ inert (scroll_locked c false s))
      /\ overflow s' = overflow (scroll_locked c false s)).
Proof.
  cbn zeta. unfold close. destruct (has_open s) eqn:Ho; cbn [negb]; [|done].
  change (if negb (modeless (OPTIONS c)) then _ else _) with
    (scroll_locked c false s).
  destruct (scroll_locked_frame c false s) as (He & _ & Hl & Ha & Hact & Hp' & Hd).
  set (s1 := scroll_locked c false s) in *.
  dialog_fields. unfold focus.
  destruct (previousActiveElement s1) as [p|]; [destruct (can_focus _ _)|];
    cbn [state_of]; dialog_fields;
    (split; [done|]); intros _;
    (split; [rewrite !list_elem_of_filter; naive_solver|]);
    (split; [rewrite !list_elem_of_filter; naive_solver|]); done.
Qed.

(** X12. open() and close() are idempotent: open() on a dialog that open()
    has just left changes nothing, so the stored focus reference is not
    overwritten and no second notification is emitted, and close() on a
    dialog that close() has just left changes nothing either. *)
Theorem open_close_idempotent c s :
  open c (open c s) = open c s
  /\ close c (state_of (close c s)) = Normal (state_of (close c s)).
Proof.
  split.
  - unfold open at 1. by rewrite open_is_open.
  - destruct (close_fields c s) as [Hc _]. unfold close at 1. by rewrite Hc.
Qed.

(** X13. Closing unregisters the handler: after open() and close() neither
    a click nor a keydown, whatever its key or target, reaches the dialog
    any more. *)
Theorem closed_dialog_ignores_events c s e :
  has_open s = false ->
  ev_type e = "click" \/ ev_type e = "keydown" ->
  exists s', close c (open c s) = Normal s'
    /\ ("click" ∉ listeners s') /\ ("keydown" ∉ listeners s')
    /\ document_event c e s' = Normal s'.
Proof.
  intros Hc Ht.
  destruct (open_closed c s Hc) as (Ho & _ & Hp & _).
  destruct (close_opened c _ _ Ho Hp) as (s' & Hcl & _).
  destruct (close_fields c (open c s)) as [_ Hf]. rewrite Hcl in Hf.
  destruct (Hf Ho) as (Hnc & Hnk & _).
  exists s'. repeat split; try done.
  unfold document_event. rewrite bool_decide_false; [done|].
  by destruct Ht as [-> | ->].
Qed.

Lemma closed_dialog_ignores_events_witness :
  has_open (page ∅ body) = false /\
  (ev_type (mkEvent "keydown" esc body) = "click"
   \/ ev_type (mkEvent "keydown" esc body) = "keydown") /\
  exists s', close modal (open modal (page ∅ body)) = Normal s'
    /\ document_event modal (mkEvent "keydown" esc body) s' = Normal s'.
Proof.
  assert (has_open (page ∅ body) = false) as H1 by reflexivity.
  assert (ev_type (mkEvent "keydown" esc body) = "click"
          \/ ev_type (mkEvent "keydown" esc body) = "keydown") as H2
    by (right; reflexivity).
  destruct (closed_dialog_ignores_events modal _ _ H1 H2)
    as (s' & Ha & _ & _ & Hb).
  exact (conj H1 (conj H2 (ex_intro _ s' (conj Ha Hb)))).
Defined.

Lemma foldl_mark_previous c b (l : list node) r st :
  foldl (fun st child =>
           if bool_decide (child ≠ root c) then set_inert child b st else st)
        (set_previousActiveElement r st) l
  = set_previousActiveElement r
      (foldl (fun st child =>
                if bool_decide (child ≠ root c) then set_inert child b st else st)
             st l).
Proof.
  revert st. induction l as [|x l IH]; intros st; [done|].
  cbn [foldl]. case_bool_decide; [|apply IH]. by rewrite <- IH.
Qed.

Lemma open_overflow_focus c s :
  has_open s = false ->
  overflow (open c s) = overflow (scroll_locked c true s)
  /\ inert (open c s) = inert (scroll_locked c true s)
  /\ activeElement (open c s) =
     (let target := default (dialog_el c) (autofocus s) in
      if bool_decide (target ∈ focusable s)
         && negb (is_inert (inert (scroll_locked c true s)) target)
      then target else activeElement s).
Proof.
  intros Hc. unfold open. rewrite Hc.
  change (if negb (modeless (OPTIONS c)) then _ else _) with
    (scroll_locked c true (set_previousActiveElement (Some (activeElement s)) s)).
  set (s0 := set_previousActiveElement (Some (activeElement s)) s).
  assert (scroll_locked c true s0
          = set_previousActiveElement (Some (activeElement s))
              (scroll_locked c true s)) as ->.
  { unfold scroll_locked, mark_siblings, s0. destruct (negb _); [|done].
    apply (foldl_mark_previous c true _ _ (set_overflow (Some "hidden") s)). }
  destruct (scroll_locked_frame c true s) as (_ & _ & _ & Ha & Hact & _).
  pose proof (scroll_locked_focusable c true s) as Hfo.
  set (s1 := scroll_locked c true s) in *.
  unfold focus, can_focus. dialog_fields. rewrite ?Ha, ?Hact, ?Hfo.
  destruct (autofocus s) as [a|]; cbn [default];
    destruct (bool_decide _ && negb (is_inert (inert s1) _)); dialog_fields;
    rewrite ?Hact; done.
Qed.

(** X14. A modeless dialog leaves the rest of the page alone: neither
    open() nor close() changes any inert flag or the body's overflow
    style. *)
Theorem modeless_leaves_page c s :
  modeless (OPTIONS c) = true ->
  inert (open c s) = inert s /\ overflow (open c s) = overflow s
  /\ inert (state_of (close c s)) = inert s
  /\ overflow (state_of (close c s)) = overflow s.
Proof.
  intros Hm.
  assert (forall b st, scroll_locked c b st = st) as Hsl
    by (intros b st; unfold scroll_locked; by rewrite Hm).
  split; [|split; [|split]].
  - destruct (has_open s) eqn:Ho; [unfold open; by rewrite Ho|].
    destruct (open_overflow_focus c s Ho) as (_ & -> & _). by rewrite Hsl.
  - destruct (has_open s) eqn:Ho; [unfold open; by rewrite Ho|].
    destruct (open_overflow_focus c s Ho) as (-> & _). by rewrite Hsl.
  - destruct (has_open s) eqn:Ho; [|unfold close; by rewrite Ho].
    destruct (close_fields c s) as [_ Hf]. destruct (Hf Ho) as (_ & _ & Hi & _).
    apply set_eq. intros el. by rewrite Hi, Hsl.
  - destruct (has_open s) eqn:Ho; [|unfold close; by rewrite Ho].
    destruct (close_fields c s) as [_ Hf]. destruct (Hf Ho) as (_ & _ & _ & ->).
    by rewrite Hsl.
Qed.

Lemma modeless_leaves_page_witness :
  modeless (OPTIONS (dialog (mkContainer true false) dialog_root dialog_root))
  = true /\
  inert (open (dialog (mkContainer true false) dialog_root dialog_root)
           (page ∅ body)) = inert (page ∅ body).
Proof.
  assert (modeless (OPTIONS (dialog (mkContainer true false)
                               dialog_root dialog_root)) = true) as H1
    by reflexivity.
  exact (conj H1 (proj1 (modeless_leaves_page _ (page ∅ body) H1))).
Defined.

(** X15. The scroll lock of a modal dialog is not a save and restore:
    open() sets the body's overflow style to hidden, and close() clears it,
    whatever value the page had given it before. *)
Theorem scroll_lock_cleared c s :
  modeless (OPTIONS c) = false -> has_open s = false ->
  overflow (open c s) = Some "hidden"
  /\ exists s', close c (open c s) = Normal s' /\ overflow s' = None.
Proof.
  intros Hm Hc.
  assert (forall b st, overflow (scroll_locked c b st)
                       = if b then Some "hidden" else None) as Hov.
  { intros b st. unfold scroll_locked. rewrite Hm. cbn [negb].
    by destruct (mark_siblings_frame c b
                   (set_overflow (if b then Some "hidden" else None) st))
      as (_ & _ & -> & _). }
  destruct (open_overflow_focus c s Hc) as (Ho & _).
  split; [by rewrite Ho, Hov|].
  destruct (open_closed c s Hc) as (Hop & _ & Hp & _).
  destruct (close_opened c _ _ Hop Hp) as (s' & Hcl & _).
  exists s'. split; [done|].
  destruct (close_fields c (open c s)) as [_ Hf]. rewrite Hcl in Hf.
  cbn [state_of] in Hf. destruct (Hf Hop) as (_ & _ & _ & ->). by rewrite Hov.
Qed.

Lemma scroll_lock_cleared_witness :
  let s := set_overflow (Some "scroll") (page ∅ body) in
  modeless (OPTIONS modal) = false /\ has_open s = false /\
  overflow s = Some "scroll" /\
  overflow (open modal s) = Some "hidden" /\
  exists s', close modal (open modal s) = Normal s' /\ overflow s' = None.
Proof.
  intros s.
  assert (modeless (OPTIONS modal) = false) as H1 by reflexivity.
  assert (has_open s = false) as H2 by reflexivity.
  assert (overflow s = Some "scroll") as H3 by reflexivity.
  exact (conj H1 (conj H2 (conj H3 (scroll_lock_cleared modal s H1 H2)))).
Defined.

(** X16. close() on a dialog that carries the open attribute without
    open() having run (no stored focus reference) faults halfway: the open
    attribute and the handler are already removed, and the focus is not
    moved and no closed notification is emitted. *)
Theorem close_without_stored_focus c s :
  has_open s = true -> previousActiveElement s = None ->
  exists s', close c s = Throw s'
    /\ has_open s' = false
    /\ ("click" ∉ listeners s') /\ ("keydown" ∉ listeners s')
    /\ activeElement s' = activeElement s
    /\ dispatched s' = dispatched s.
Proof.
  intros Ho Hp. unfold close. rewrite Ho. cbn [negb].
  change (if negb (modeless (OPTIONS c)) then _ else _) with
    (scroll_locked c false s).
  destruct (scroll_locked_frame c false s) as (_ & _ & Hl & _ & Hact & Hp' & Hd).
  set (s1 := scroll_locked c false s) in *.
  dialog_fields. rewrite Hp', Hp. eexists. split; [done|]. dialog_fields.
  split; [done|]. split; [rewrite !list_elem_of_filter; naive_solver|].
  split; [rewrite !list_elem_of_filter; naive_solver|]. done.
Qed.

Lemma close_without_stored_focus_witness :
  let s := set_has_open true (page ∅ body) in
  has_open s = true /\ previousActiveElement s = None /\
  exists s', close modal s = Throw s' /\ has_open s' = false.
Proof.
  intros s.
  assert (has_open s = true) as H1 by reflexivity.
  assert (previousActiveElement s = None) as H2 by reflexivity.
  destruct (close_without_stored_focus modal s H1 H2) as (s' & Ha & Hb & _).
  exact (conj H1 (conj H2 (ex_intro _ s' (conj Ha Hb)))).
Defined.

(** X17. open() of a closed dialog calls focus() on the element of the
    dialog that carries autofocus, if there is one, and on the dialog itself
    otherwise; the focus moves to that element when it can take it, that
    is, when it is focusable and, once the siblings are marked, not
    inert. *)
Theorem open_moves_focus c s :
  has_open s = false ->
  default (dialog_el c) (autofocus s) ∈ focusable s ->
  is_inert (inert (open c s)) (default (dialog_el c) (autofocus s)) = false ->
  activeElement (open c s) = default (dialog_el c) (autofocus s).
Proof.
  intros Hc Hf Hi. destruct (open_overflow_focus c s Hc) as (_ & Hin & ->).
  cbn zeta. by rewrite <- Hin, bool_decide_true, Hi.
Qed.

Lemma open_moves_focus_witness :
  has_open (page ∅ sibling) = false /\
  default (dialog_el modal) (autofocus (page ∅ sibling))
    ∈ focusable (page ∅ sibling) /\
  is_inert (inert (open modal (page ∅ sibling)))
    (default (dialog_el modal) (autofocus (page ∅ sibling))) = false /\
  activeElement (open modal (page ∅ sibling)) = dialog_root.
Proof.
  assert (has_open (page ∅ sibling) = false) as H1 by reflexivity.
  assert (default (dialog_el modal) (autofocus (page ∅ sibling))
            ∈ focusable (page ∅ sibling)) as H3
    by (apply (bool_decide_unpack _); vm_compute; exact I).
  assert (is_inert (inert (open modal (page ∅ sibling)))
            (default (dialog_el modal) (autofocus (page ∅ sibling))) = false)
    as H2 by (vm_compute; reflexivity).
  exact (conj H1 (conj H3 (conj H2 (open_moves_focus modal _ H1 H3 H2)))).
Defined.

(** X18. Keys typed inside the dialog do not close it: a keydown other
    than escape whose target is the dialog or a descendant of it leaves the
    state as it is. *)
Theorem keydown_inside_keeps_open c s e :
  ev_type e = "keydown" -> which e <> esc ->
  contains (dialog_el c) (target e) = true ->
  document_event c e s = Normal s.
Proof.
  intros Ht Hw Hin. unfold document_event.
  case_bool_decide; [|done]. apply check_inside; auto.
Qed.

Lemma keydown_inside_keeps_open_witness :
  ev_type (mkEvent "keydown" 9 button_in_dialog) = "keydown" /\
  which (mkEvent "keydown" 9 button_in_dialog) <> esc /\
  contains (dialog_el modal) (target (mkEvent "keydown" 9 button_in_dialog))
  = true /\
  document_event modal (mkEvent "keydown" 9 button_in_dialog)
    (open modal (page ∅ body)) = Normal (open modal (page ∅ body)).
Proof.
  assert (ev_type (mkEvent "keydown" 9 button_in_dialog) = "keydown") as H1
    by reflexivity.
  assert (which (mkEvent "keydown" 9 button_in_dialog) <> esc) as H2
    by discriminate.
  assert (contains (dialog_el modal)
            (target (mkEvent "keydown" 9 button_in_dialog)) = true) as H3
    by reflexivity.
  exact (conj H1 (conj H2 (conj H3
    (keydown_inside_keeps_open modal _ _ H1 H2 H3)))).
Defined.

End InertDialogExtra.

(** ** Further properties of the built dialog controller *)
Module BuildDialogExtra.
Import Dom BuildDialog BuildDialogSpec.

(** The two deferred callbacks on any state. *)
Lemma mark_task c st :
  NoDup (elements st) ->
  exists st', run_task c MarkNodes st = Normal st'
    /\ (forall el,
         (el ∈ query_nonModal st /\ inside (dialog_el c) el = false ->
            tabindex st' !! el = Some "-1"
            /\ prevTabindex st' !! el = Some (tabindex st !! el))
         /\ (~ (el ∈ query_nonModal st /\ inside (dialog_el c) el = false) ->
            tabindex st' !! el = tabindex st !! el
            /\ prevTabindex st' !! el = prevTabindex st !! el))
    /\ elements st' = elements st /\ role st' = role st
    /\ aria_hidden st' = aria_hidden st
    /\ nonModalNodes st' = Some (query_nonModal st)
    /\ lastFocusedElement st' = lastFocusedElement st
    /\ activeElement st' = activeElement st /\ listeners st' = listeners st
    /\ timers st' = timers st /\ dispatched st' = dispatched st.
Proof.
  intros Hnd. cbn [run_task]. build_fields. eexists. split; [reflexivity|].
  assert (query_nonModal (set_nonModalNodes (Some (query_nonModal st)) st)
          = query_nonModal st) as HL by done.
  destruct (foldl_mark_node (query_modalNodes c st) (query_nonModal st)
              (set_nonModalNodes (Some (query_nonModal st)) st)
              (query_nonModal_NoDup st Hnd))
    as (Hmark & He' & Hr' & Ha' & Hn' & Hl' & Hact' & Hli' & Ht' & Hd').
  split; [|by rewrite He', Hr', Ha', Hn', Hl', Hact', Hli', Ht', Hd'].
  intros el. destruct (Hmark el) as [H1 H2]. split.
  - intros [HinL Hout]. apply H1. split; [done|].
    rewrite elem_of_query_modalNodes. intros [_ ?]. congruence.
  - intros Hnot. apply H2. intros [HinL HnM]. apply Hnot. split; [done|].
    destruct (inside (dialog_el c) el) eqn:Hin; [|done].
    exfalso. apply HnM. apply elem_of_query_modalNodes. split; [|done].
    by apply elem_of_query_nonModal in HinL as [? _].
Qed.

Lemma restore_task c st L :
  nonModalNodes st = Some L -> NoDup L ->
  exists st', run_task c RestoreNodes st = Normal st'
    /\ (forall el,
         (el ∈ L -> tabindex st' !! el = truthy (prevTabindex st !! el))
         /\ (el ∉ L -> tabindex st' !! el = tabindex st !! el))
    /\ elements st' = elements st /\ role st' = role st
    /\ aria_hidden st' = aria_hidden st
    /\ nonModalNodes st' = nonModalNodes st
    /\ lastFocusedElement st' = lastFocusedElement st
    /\ activeElement st' = activeElement st /\ listeners st' = listeners st
    /\ timers st' = timers st /\ dispatched st' = dispatched st.
Proof.
  intros HL Hnd. cbn [run_task]. rewrite HL. eexists. split; [reflexivity|].
  pose proof (foldl_restore_node L st Hnd) as H. cbn zeta in H.
  rewrite HL in H. exact H.
Qed.

Lemma show_is_shown c s : aria_hidden (show c s) = None.
Proof.
  destruct (decide (aria_hidden s = None)) as [Hh|Hh].
  - unfold show. by rewrite bool_decide_true.
  - by destruct (show_hidden c s Hh) as (? & _).
Qed.

Lemma close_is_hidden c s : aria_hidden (state_of (close c s)) <> None.
Proof.
  unfold close. case_bool_decide as Hh; [done|].
  destruct (String.eqb _ _); build_fields;
    (destruct (lastFocusedElement s); [unfold focus; destruct (can_focus _ _)|]);
    by build_fields.
Qed.

(** X19. show() and close() are idempotent: show() on a dialog that show()
    has just left changes nothing (the stored focus reference is kept and
    no second marking is scheduled), and close() after close() changes
    nothing either. *)
Theorem show_close_idempotent c s :
  show c (show c s) = show c s
  /\ close c (state_of (close c s)) = Normal (state_of (close c s)).
Proof.
  split.
  - unfold show at 1. by rewrite bool_decide_true by apply show_is_shown.
  - unfold close at 1. by rewrite bool_decide_true by apply close_is_hidden.
Qed.

(** The state after show() and close() in the same turn of the event loop,
    and after the two callbacks they scheduled have then run. *)
Definition closed_at_once (c : Closure) (s : State) : State :=
  run_timers c (state_of (close c (show c s))).

(** X20. Closing before the deferred marking has run is safe: the marking
    still runs first and the restoring after it, and every element outside
    the dialog ends with the tabindex attribute it had before show(),
    provided that attribute was not the empty string. *)
Theorem close_before_marking c s el :
  dialog_type c = "modal" -> aria_hidden s <> None -> timers s = [] ->
  NoDup (elements s) ->
  inside (dialog_el c) el = false -> tabindex s !! el <> Some "" ->
  timers (state_of (close c (show c s))) = [MarkNodes; RestoreNodes]
  /\ tabindex (closed_at_once c s) !! el = tabindex s !! el.
Proof.
  intros Hm Hh Ht Hnd Hout Hne.
  destruct (show_hidden c s Hh)
    as (Ha & He & Hr & Hti & Hpt & Hn & Hl & Htm & Hd & _).
  rewrite Hm, Ht in Htm. cbn in Htm.
  destruct (close_shown c (show c s) (activeElement s) Ha Hl)
    as (s2 & Hc & _ & _ & _ & He2 & Hr2 & Hti2 & Hpt2 & _ & Htm2 & _).
  rewrite Hm, Htm in Htm2. cbn in Htm2.
  unfold closed_at_once. rewrite Hc. cbn [state_of]. split; [done|].
  unfold run_timers. rewrite Htm2. cbn [run_tasks].
  set (s3 := set_timers [] s2).
  assert (NoDup (elements s3)) as Hnd3 by (unfold s3; build_fields; congruence).
  destruct (mark_task c s3 Hnd3)
    as (s4 & -> & Hmark & _ & _ & _ & Hn4 & _).
  cbn [state_of].
  assert (query_nonModal s3 = query_nonModal s) as HL.
  { unfold query_nonModal, s3. build_fields. by rewrite He2, Hr2, Hti2, He, Hr, Hti. }
  rewrite HL in Hn4, Hmark.
  destruct (restore_task c s4 _ Hn4 (query_nonModal_NoDup s Hnd))
    as (s5 & -> & Hres & _).
  cbn [state_of].
  assert (tabindex s3 = tabindex s) as Hti3
    by (unfold s3; build_fields; congruence).
  destruct (Hres el) as [H1 H2]. destruct (Hmark el) as [M1 M2].
  destruct (decide (el ∈ query_nonModal s)) as [HinL|HinL].
  - rewrite (H1 HinL). destruct M1 as [_ ->]; [done|].
    rewrite Hti3. by apply truthy_saved.
  - rewrite (H2 HinL). destruct M2 as [-> _]; [tauto|]. by rewrite Hti3.
Qed.

Lemma close_before_marking_witness :
  let s := page {[ sibling := "0" ]} body in
  dialog_type modal = "modal" /\ aria_hidden s <> None /\ timers s = [] /\
  NoDup (elements s) /\
  inside (dialog_el modal) sibling = false /\
  tabindex s !! sibling <> Some "" /\
  tabindex (closed_at_once modal s) !! sibling = tabindex s !! sibling.
Proof.
  intros s.
  assert (dialog_type modal = "modal") as H1 by reflexivity.
  assert (aria_hidden s <> None) as H2 by discriminate.
  assert (timers s = []) as H3 by reflexivity.
  assert (NoDup (elements s)) as H4
    by (apply (bool_decide_unpack (NoDup _)); vm_compute; exact I).
  assert (inside (dialog_el modal) sibling = false) as H5 by reflexivity.
  assert (tabindex s !! sibling <> Some "") as H6 by (vm_compute; discriminate).
  exact (conj H1 (conj H2 (conj H3 (conj H4 (conj H5 (conj H6
    (proj2 (close_before_marking modal s sibling H1 H2 H3 H4 H5 H6)))))))).
Defined.

Lemma cycled_elements c s :
  dialog_type c = "modal" -> aria_hidden s <> None -> timers s = [] ->
  NoDup (elements s) ->
  elements (cycled c s) = elements s.
Proof.
  intros Hm Hh Ht Hnd.
  destruct (marked_fields c s Hm Hh Ht Hnd)
    as (_ & He & _ & Ha & Hn & Hl & Htm & _).
  destruct (close_shown c (marked c s) (activeElement s) Ha Hl)
    as (s3 & Hc & _ & _ & _ & He3 & _ & _ & _ & Hn3 & Htm3 & _).
  unfold cycled. rewrite Hc. cbn [state_of]. unfold run_timers.
  rewrite Htm3, Htm, Hm. cbn [String.eqb Ascii.eqb Bool.eqb app run_tasks].
  assert (nonModalNodes (set_timers [] s3) = Some (query_nonModal s)) as HL
    by (build_fields; congruence).
  destruct (restore_task c _ _ HL (query_nonModal_NoDup s Hnd))
    as (s4 & -> & _ & He4 & _).
  cbn [state_of]. rewrite He4. build_fields. congruence.
Qed.

(** X21. Any number of open-close cycles of a modal dialog, each with its
    two callbacks run, leaves every element outside the dialog with the
    tabindex attribute it started with, provided that attribute was not
    the empty string. *)
Theorem repeated_cycles c s el n :
  dialog_type c = "modal" -> aria_hidden s <> None -> timers s = [] ->
  NoDup (elements s) ->
  inside (dialog_el c) el = false -> tabindex s !! el <> Some "" ->
  tabindex (Nat.iter n (cycled c) s) !! el = tabindex s !! el.
Proof.
  intros Hm Hh Ht Hnd Hout Hne.
  assert (aria_hidden (Nat.iter n (cycled c) s) <> None
          /\ timers (Nat.iter n (cycled c) s) = []
          /\ elements (Nat.iter n (cycled c) s) = elements s
          /\ tabindex (Nat.iter n (cycled c) s) !! el = tabindex s !! el)
    as (_ & _ & _ & H); [|done].
  induction n as [|n (Hh' & Ht' & He' & Hti')]; [done|].
  change (Nat.iter (S n) (cycled c) s)
    with (cycled c (Nat.iter n (cycled c) s)).
  assert (NoDup (elements (Nat.iter n (cycled c) s))) as Hnd'
    by (by rewrite He').
  destruct (cycled_fields c _ Hm Hh' Ht' Hnd') as (_ & Ha & _ & _ & Htm & _).
  split; [by rewrite Ha|]. split; [done|].
  split; [by rewrite cycled_elements|].
  rewrite cycled_outside; try done. by rewrite Hti'.
Qed.

Lemma repeated_cycles_witness :
  let s := page {[ sibling := "0" ]} body in
  dialog_type modal = "modal" /\ aria_hidden s <> None /\ timers s = [] /\
  NoDup (elements s) /\
  inside (dialog_el modal) sibling = false /\
  tabindex s !! sibling <> Some "" /\
  tabindex (Nat.iter 3 (cycled modal) s) !! sibling = tabindex s !! sibling.
Proof.
  intros s.
  assert (dialog_type modal = "modal") as H1 by reflexivity.
  assert (aria_hidden s <> None) as H2 by discriminate.
  assert (timers s = []) as H3 by reflexivity.
  assert (NoDup (elements s)) as H4
    by (apply (bool_decide_unpack (NoDup _)); vm_compute; exact I).
  assert (inside (dialog_el modal) sibling = false) as H5 by reflexivity.
  assert (tabindex s !! sibling <> Some "") as H6 by (vm_compute; discriminate).
  exact (conj H1 (conj H2 (conj H3 (conj H4 (conj H5 (conj H6
    (repeated_cycles modal s sibling 3 H1 H2 H3 H4 H5 H6))))))).
Defined.

(** X22. What a cycle does not give back. An element inside the dialog
    that carries a tabindex other than -1 is selected by the marking query
    but skipped by the marking loop, so the restoring loop, which does not
    skip it, finds no saved value and removes its tabindex. An element
    outside the dialog whose tabindex is the empty string has it saved, but
    the saved value is falsy and the attribute is removed as well. *)
Theorem cycle_drops_tabindex c s el :
  dialog_type c = "modal" -> aria_hidden s <> None -> timers s = [] ->
  NoDup (elements s) ->
  el ∈ elements s -> inside body el = true ->
  role s !! el <> Some "dialog" ->
  (inside (dialog_el c) el = true ->
   is_Some (tabindex s !! el) -> tabindex s !! el <> Some "-1" ->
   truthy (prevTabindex s !! el) = None ->
   tabindex (cycled c s) !! el = None)
  /\ (inside (dialog_el c) el = false -> tabindex s !! el = Some "" ->
      tabindex (cycled c s) !! el = None).
Proof.
  intros Hm Hh Ht Hnd Hel Hb Hrole.
  destruct (cycled_fields c s Hm Hh Ht Hnd) as (Hcyc & _).
  destruct (marked_fields c s Hm Hh Ht Hnd) as (Hmark & _).
  destruct (Hcyc el) as [H1 _]. destruct (Hmark el) as [M1 M2].
  split.
  - intros Hin _ Hti Hprev.
    rewrite H1 by (apply elem_of_query_nonModal; tauto).
    destruct M2 as [_ ->]; [|done]. intros [_ ?]. congruence.
  - intros Hout Hti.
    assert (el ∈ query_nonModal s) as HL.
    { apply elem_of_query_nonModal. repeat split; try done. by rewrite Hti. }
    rewrite (H1 HL). destruct M1 as [_ ->]; [done|]. by rewrite Hti.
Qed.

Lemma cycle_drops_tabindex_witness :
  let s := page {[ button_in_dialog := "0" ]} body in
  dialog_type modal = "modal" /\ aria_hidden s <> None /\ timers s = [] /\
  NoDup (elements s) /\ button_in_dialog ∈ elements s /\
  inside body button_in_dialog = true /\
  role s !! button_in_dialog <> Some "dialog" /\
  inside (dialog_el modal) button_in_dialog = true /\
  is_Some (tabindex s !! button_in_dialog) /\
  tabindex s !! button_in_dialog <> Some "-1" /\
  truthy (prevTabindex s !! button_in_dialog) = None /\
  tabindex (cycled modal s) !! button_in_dialog = None.
Proof.
  intros s.
  assert (dialog_type modal = "modal") as H1 by reflexivity.
  assert (aria_hidden s <> None) as H2 by discriminate.
  assert (timers s = []) as H3 by reflexivity.
  assert (NoDup (elements s)) as H4
    by (apply (bool_decide_unpack (NoDup _)); vm_compute; exact I).
  assert (button_in_dialog ∈ elements s) as H5
    by (apply (bool_decide_unpack (_ ∈ _)); vm_compute; exact I).
  assert (inside body button_in_dialog = true) as H6 by reflexivity.
  assert (role s !! button_in_dialog <> Some "dialog") as H7
    by (vm_compute; discriminate).
  assert (inside (dialog_el modal) button_in_dialog = true) as H8
    by reflexivity.
  assert (is_Some (tabindex s !! button_in_dialog)) as H9
    by (exists "0"; vm_compute; reflexivity).
  assert (tabindex s !! button_in_dialog <> Some "-1") as H10
    by (vm_compute; discriminate).
  assert (truthy (prevTabindex s !! button_in_dialog) = None) as H11
    by (vm_compute; reflexivity).
  exact (conj H1 (conj H2 (conj H3 (conj H4 (conj H5 (conj H6 (conj H7
    (conj H8 (conj H9 (conj H10 (conj H11
      (proj1 (cycle_drops_tabindex modal s button_in_dialog
                H1 H2 H3 H4 H5 H6 H7) H8 H9 H10 H11)))))))))))).
Defined.

(** X23. Elements that are already out of the tab order are never
    touched: an element whose tabindex is -1, or that carries the dialog
    role, keeps its tabindex attribute and its saved value through the
    marking, and its tabindex through the whole cycle, wherever it is. *)
Theorem excluded_elements_untouched c s el :
  dialog_type c = "modal" -> aria_hidden s <> None -> timers s = [] ->
  NoDup (elements s) ->
  tabindex s !! el = Some "-1" \/ role s !! el = Some "dialog" ->
  tabindex (marked c s) !! el = tabindex s !! el
  /\ prevTabindex (marked c s) !! el = prevTabindex s !! el
  /\ tabindex (cycled c s) !! el = tabindex s !! el.
Proof.
  intros Hm Hh Ht Hnd Hex.
  assert (el ∉ query_nonModal s) as HnL.
  { rewrite elem_of_query_nonModal. intros (_ & _ & ? & ?). tauto. }
  destruct (cycled_fields c s Hm Hh Ht Hnd) as (Hcyc & _).
  destruct (marked_fields c s Hm Hh Ht Hnd) as (Hmark & _).
  destruct (Hmark el) as [_ [-> ->]]; [tauto|].
  destruct (Hcyc el) as [_ ->]; done.
Qed.

Lemma excluded_elements_untouched_witness :
  let s := page {[ sibling := "-1" ]} body in
  dialog_type modal = "modal" /\ aria_hidden s <> None /\ timers s = [] /\
  NoDup (elements s) /\
  (tabindex s !! sibling = Some "-1" \/ role s !! sibling = Some "dialog") /\
  prevTabindex (marked modal s) !! sibling = prevTabindex s !! sibling.
Proof.
  intros s.
  assert (dialog_type modal = "modal") as H1 by reflexivity.
  assert (aria_hidden s <> None) as H2 by discriminate.
  assert (timers s = []) as H3 by reflexivity.
  assert (NoDup (elements s)) as H4
    by (apply (bool_decide_unpack (NoDup _)); vm_compute; exact I).
  assert (tabindex s !! sibling = Some "-1" \/ role s !! sibling = Some "dialog")
    as H5 by (left; vm_compute; reflexivity).
  exact (conj H1 (conj H2 (conj H3 (conj H4 (conj H5
    (proj1 (proj2 (excluded_elements_untouched modal s sibling
                     H1 H2 H3 H4 H5)))))))).
Defined.

(** X24. A modeless built dialog leaves the page alone: neither show()
    nor close() schedules a callback, show() changes neither a tabindex
    attribute nor the body's overflow style, and no pointer-down is ever
    cancelled. *)
Theorem modeless_built_dialog c s e :
  dialog_type c <> "modal" ->
  timers (show c s) = timers s
  /\ tabindex (show c s) = tabindex s
  /\ overflow (show c s) = overflow s
  /\ timers (state_of (close c s)) = timers s
  /\ clickHandler c e s = (s, mkCancelled false false).
Proof.
  intros Hm. apply String.eqb_neq in Hm.
  assert (timers (show c s) = timers s /\ tabindex (show c s) = tabindex s
          /\ overflow (show c s) = overflow s) as (? & ? & ?).
  { unfold show, focus. case_bool_decide; [done|]. rewrite Hm.
    destruct (first_visible _); destruct (can_focus _ _); by build_fields. }
  repeat split; try done.
  - unfold close, focus. case_bool_decide; [done|]. rewrite Hm. build_fields.
    destruct (lastFocusedElement s); [destruct (can_focus _ _)|];
      by build_fields.
  - unfold clickHandler. by rewrite Hm.
Qed.

Lemma modeless_built_dialog_witness :
  dialog_type (dialog (mkContainer true) dialog_root dialog_root) <> "modal" /\
  timers (show (dialog (mkContainer true) dialog_root dialog_root)
            (page ∅ body)) = timers (page ∅ body).
Proof.
  assert (dialog_type (dialog (mkContainer true) dialog_root dialog_root)
          <> "modal") as H1 by discriminate.
  exact (conj H1
    (proj1 (modeless_built_dialog _ (page ∅ body)
              (mkEvent "mousedown" 0 sibling) H1))).
Defined.

(** X25. close() on a built dialog that is shown but has no stored focus
    reference faults after it has hidden the dialog and, for a modal one,
    scheduled the restoring, and before it removes the handlers: the
    keydown and mousedown handlers stay registered. *)
Theorem close_without_stored_focus_keeps_handlers c s :
  aria_hidden s = None -> lastFocusedElement s = None ->
  exists s', close c s = Throw s'
    /\ aria_hidden s' = Some "true"
    /\ listeners s' = listeners s
    /\ activeElement s' = activeElement s
    /\ timers s' = timers s ++
         (if String.eqb (dialog_type c) "modal" then [RestoreNodes] else []).
Proof.
  intros Hh Hl. unfold close.
  rewrite bool_decide_false by (by rewrite Hh; intros H).
  destruct (String.eqb _ _); build_fields; rewrite Hl; eexists;
    (split; [reflexivity|]); build_fields; rewrite ?app_nil_r; done.
Qed.

Lemma close_without_stored_focus_keeps_handlers_witness :
  let s := addEventListener "keydown" (set_aria_hidden None (page ∅ body)) in
  aria_hidden s = None /\ lastFocusedElement s = None /\
  exists s', close modal s = Throw s' /\ listeners s' = ["keydown"].
Proof.
  intros s.
  assert (aria_hidden s = None) as H1 by reflexivity.
  assert (lastFocusedElement s = None) as H2 by reflexivity.
  destruct (close_without_stored_focus_keeps_handlers modal s H1 H2)
    as (s' & Ha & _ & Hb & _).
  exact (conj H1 (conj H2 (ex_intro _ s' (conj Ha Hb)))).
Defined.

(** X26. Only an escape keydown changes a built dialog: every other event
    that reaches the document, whatever its type, key or target, leaves the
    state as it is. *)
Theorem only_escape_acts c s e :
  ~ (ev_type e = "keydown" /\ which e = esc) ->
  document_event c e s = Normal s.
Proof.
  intros Hne. unfold document_event. case_bool_decide; [|done].
  destruct (String.eqb_spec (ev_type e) "keydown") as [Ht|Ht].
  - unfold keydownHandler. destruct (Z.eqb_spec (which e) esc); [tauto|done].
  - destruct (String.eqb _ "mousedown"); [|done].
    unfold clickHandler. destruct (negb _); [done|]. by case_bool_decide.
Qed.

Lemma only_escape_acts_witness :
  ~ (ev_type (mkEvent "keydown" 9 sibling) = "keydown"
     /\ which (mkEvent "keydown" 9 sibling) = esc) /\
  document_event modal (mkEvent "keydown" 9 sibling) (show modal (page ∅ body))
  = Normal (show modal (page ∅ body)).
Proof.
  assert (~ (ev_type (mkEvent "keydown" 9 sibling) = "keydown"
             /\ which (mkEvent "keydown" 9 sibling) = esc)) as H1
    by (intros [_ H]; discriminate H).
  exact (conj H1 (only_escape_acts modal _ _ H1)).
Defined.

End BuildDialogExtra.

(** ** Properties of the labelling *)
Module DialogLabelSpec.
Import AccordionIds DialogLabel.



(** X28. Headings labelled one after the other get different ids: when two
    dialogs whose headings have no id are constructed in a row on the
    shared counter, by either variant, the two generated ids differ. *)
Theorem generated_title_ids_differ lb1 lb2 u :
  let l1 := label_build (mkLabels (Some None) lb1 u) in
  let l2 := label_build (mkLabels (Some None) lb2 (uid l1)) in
  title l1 <> title l2
  /\ label_inert (mkLabels (Some None) lb1 u)
     = Some (mkLabels (title l1)
               (match lb1 with Some x => Some x | None => labelledby l1 end)
               (uid l1))
  /\ (u < uid l1)%N /\ (uid l1 < uid l2)%N.
Proof.
  cbn. split; [|split; [|lia]].
  - intros [= H%AccordionIdsSpec.concat_number_inj]. lia.
  - by destruct lb1.
Qed.

End DialogLabelSpec.
